(** * OmniSketch: a shallow embedding of the sketch substrate

    Part I embeds the C++ sources, one module per source file:
    - [Util]       : [src/common/utils.h], [src/impl/utils.cpp]
                     (Mangle, IsPrime, NextPrime, Net2Host, DynamicIntX)
    - [FlowKey]    : [src/common/flowkey.h]
    - [Hash]       : [src/common/hash.h], [src/impl/hash.cpp]
    - [Hierarchy]  : [src/common/hierarchy.h] (CounterHierarchy)
    - [Data]       : [src/common/data.h]    (GndTruth, Estimation)
    - [DataFormat] : [src/common/data.h], [src/impl/data.cpp]
    - [Bloom]      : [src/sketch/BloomFilter.h]
    - [CMSketch]   : [src/sketch/CMSketch.h]
    Part II states and proves the properties.

    Conventions.  A fixed-width C++ integer is a [Z] together with its
    two's-complement wrap-around, written out at every arithmetic
    operation.  A [double] is a binary64 value of the standard library's
    [spec_float].  A C++ function that may throw returns a [result]; a
    construct whose behaviour the language leaves undefined is reported
    as [undefined_behaviour].  Object representations are those of a
    little-endian host. *)

From Stdlib Require Import ZArith Lia Bool.
From Stdlib Require Import Floats.SpecFloat.
From stdpp Require Import base tactics option list vector sorting gmap strings.

Local Open Scope Z_scope.

(** * Part I: the embedding *)

(** ** Exceptions and the error monad *)

Inductive exn : Type :=
| overflow_error
| out_of_range
| length_error
| invalid_argument
| bad_array_new_length
| undefined_behaviour.

Inductive result (A : Type) : Type :=
| Ok (a : A)
| Throw (e : exn).
Arguments Ok {A} a.
Arguments Throw {A} e.

Definition rbind {A B : Type} (r : result A) (k : A -> result B) : result B :=
  match r with
  | Ok a => k a
  | Throw e => Throw e
  end.

Notation "'let*' x ':=' r 'in' k" := (rbind r (fun x => k))
  (at level 10, x pattern, r at level 100, k at level 200).

(** Reading a vector element: an index past the end is undefined
    behaviour in C++. *)
Definition vec_at {A : Type} (l : list A) (i : Z) : result A :=
  if i <? 0 then Throw undefined_behaviour
  else match l !! Z.to_nat i with
       | Some a => Ok a
       | None => Throw undefined_behaviour
       end.

(** A counted loop [for (i = 0; i < n; ++i) body] over a state, stopping at
    the first exception. *)
Fixpoint for_loop {St : Type} (body : Z -> St -> result St)
  (idxs : list nat) (s : St) : result St :=
  match idxs with
  | [] => Ok s
  | i :: idxs => let* s' := body (Z.of_nat i) s in for_loop body idxs s'
  end.

Definition upto (n : Z) : list nat := seq 0 (Z.to_nat n).

(** Exactly one of three booleans is [true]. *)
Definition exactly_one (x y z : bool) : Prop :=
  (x = true /\ y = false /\ z = false)
  \/ (x = false /\ y = true /\ z = false)
  \/ (x = false /\ y = false /\ z = true).

(** ** Fixed-width integers *)

Module Int.

(** Value of [x] after storing it in a signed integer of [bits] bits. *)
Definition wrap_signed (bits x : Z) : Z :=
  (x + 2 ^ (bits - 1)) mod 2 ^ bits - 2 ^ (bits - 1).

(** Value of [x] after storing it in an unsigned integer of [bits] bits. *)
Definition wrap_unsigned (bits x : Z) : Z := x mod 2 ^ bits.

Definition size_t (x : Z) : Z := wrap_unsigned 64 x.
Definition uint64 (x : Z) : Z := wrap_unsigned 64 x.
Definition uint8 (x : Z) : Z := wrap_unsigned 8 x.
Definition int64 (x : Z) : Z := wrap_signed 64 x.
Definition int8 (x : Z) : Z := wrap_signed 8 x.
Definition int32 (x : Z) : Z := wrap_signed 32 x.
Definition INT32_MAX : Z := 2147483647.

End Int.

(** ** Binary64 floating point *)

Module Double.

Definition prec : Z := 53.
Definition emax : Z := 1024.

Definition double : Type := spec_float.

(** [static_cast<double>(z)] for an integer [z]: round to nearest, ties
    to even. *)
Definition of_Z (z : Z) : double := binary_normalize prec emax z 0 false.

Definition add (x y : double) : double := SFadd prec emax x y.
Definition mul (x y : double) : double := SFmul prec emax x y.
Definition ltb (x y : double) : bool := SFltb x y.
Definition leb (x y : double) : bool := SFleb x y.

Definition zero : double := S754_zero false.
Definition half : double := S754_finite false 4503599627370496 (-53).
Definition one : double := S754_finite false 4503599627370496 (-52).

(** The integer part of a finite value (rounding toward zero). *)
Definition trunc (d : double) : option Z :=
  match d with
  | S754_zero _ => Some 0
  | S754_finite s m e =>
      let a := if 0 <=? e then Z.pos m * 2 ^ e else Z.pos m / 2 ^ (- e) in
      Some (if s then - a else a)
  | S754_infinity _ | S754_nan => None
  end.

(** [static_cast<I>(d)] for an integer type [I] with range [lo..hi]:
    the truncated value when [I] can represent it, undefined behaviour
    otherwise. *)
Definition to_int (lo hi : Z) (d : double) : result Z :=
  match trunc d with
  | Some z => if (lo <=? z) && (z <=? hi) then Ok z else Throw undefined_behaviour
  | None => Throw undefined_behaviour
  end.

Definition to_signed (bits : Z) (d : double) : result Z :=
  to_int (- 2 ^ (bits - 1)) (2 ^ (bits - 1) - 1) d.

Definition to_size_t (d : double) : result Z := to_int 0 (2 ^ 64 - 1) d.

End Double.

(** ** [src/common/utils.h] *)

Module Util.

Definition MANGLE_MAGIC : Z := 2083697005.

(** The object representation of an unsigned integer of [n] bytes, and
    the value of such a representation. *)
Fixpoint to_bytes (n : nat) (x : Z) : list Z :=
  match n with
  | O => []
  | S n => x mod 256 :: to_bytes n (x / 256)
  end.

Fixpoint of_bytes (s : list Z) : Z :=
  match s with
  | [] => 0
  | b :: s => b + 256 * of_bytes s
  end.

(** [std::swap(s[i], s[j])] *)
Definition swap (s : list Z) (i j : nat) : list Z :=
  match s !! i, s !! j with
  | Some a, Some b => <[j := a]> (<[i := b]> s)
  | _, _ => s
  end.

(** [template <typename T> T Mangle(T key)], for an unsigned [T] of
    [sizeof_T] bytes (the one call site, [AwareHash::AwareHash], has
    [T = uint64_t]):
<<
  const size_t n = sizeof(T) >> 1;
  char *s = reinterpret_cast<char *>(&key);
  for (int i = 0; i < n; ++i)
    std::swap(s[i], s[n - 1 - i]);
  return key * MANGLE_MAGIC;
>> *)
Definition Mangle (sizeof_T : nat) (key : Z) : Z :=
  let n := Nat.shiftr sizeof_T 1 in
  let s := fold_left (fun s i => swap s i (n - 1 - i)) (seq 0 n)
             (to_bytes sizeof_T key) in
  Int.wrap_unsigned (8 * Z.of_nat sizeof_T) (of_bytes s * MANGLE_MAGIC).

(** The specification's wording of the same function, "byte-reverse the
    seed, then multiply by a fixed odd constant", to compare [Mangle]
    against. *)
Definition byte_reverse (sizeof_T : nat) (key : Z) : Z :=
  of_bytes (rev (to_bytes sizeof_T key)).

Definition Mangle_spec (sizeof_T : nat) (key : Z) : Z :=
  Int.wrap_unsigned (8 * Z.of_nat sizeof_T)
    (byte_reverse sizeof_T key * MANGLE_MAGIC).

(** [bool IsPrime(int32_t n)] of [src/impl/utils.cpp]
<<
  if (n <= 0) throw std::invalid_argument(...);
  if (!(n & 1)) return n == 2;
  for (int32_t i = 3; static_cast<int64_t>(i) * i <= n; i += 2)
    if (n % i == 0) return false;
  return n != 1;
>>
    The loop leaves before [i] passes the square root of [n], so
    [Z.sqrt n] rounds of fuel are never used up. *)
Fixpoint IsPrime_loop (fuel : nat) (n i : Z) : bool :=
  if i * i <=? n then
    match fuel with
    | O => false
    | S fuel => if Z.rem n i =? 0 then false else IsPrime_loop fuel n (i + 2)
    end
  else negb (n =? 1).

Definition IsPrime (n : Z) : result bool :=
  if n <=? 0 then Throw invalid_argument
  else if Z.land n 1 =? 0 then Ok (n =? 2)
  else Ok (IsPrime_loop (Z.to_nat (Z.sqrt n)) n 3).

(** [int32_t NextPrime(int32_t n)]: [while (!IsPrime(n)) ++n; return n;].
    One round of the loop either ends it or goes on with [n + 1]; [n] is
    an [int32_t], so [2^31] rounds are all there can be. *)
Definition NextPrime_round (n : Z) : result Z + Z :=
  match IsPrime n with
  | Throw e => inl (Throw e)
  | Ok true => inl (Ok n)
  | Ok false =>
      if n =? Int.INT32_MAX then inl (Throw undefined_behaviour)
      else inr (n + 1)
  end.

Fixpoint NextPrime_rounds (fuel : positive) (n : Z) : result Z + Z :=
  match fuel with
  | xH => NextPrime_round n
  | xO fuel | xI fuel =>
      match NextPrime_rounds fuel n with
      | inl r => inl r
      | inr n' => NextPrime_rounds fuel n'
      end
  end.

Definition NextPrime (n : Z) : result Z :=
  match NextPrime_rounds (2 ^ 31)%positive n with
  | inl r => r
  | inr _ => Throw undefined_behaviour
  end.

(** *** [DynamicIntX<T>], for a signed [T] of [Tbits = 8 * sizeof(T)] bits *)

Record DynamicIntX : Type := { counter : Z; bits : Z }.

Definition getVal (c : DynamicIntX) : Z := counter c.

Section DynamicIntX.
Variable Tbits : Z.

Definition wrapT (x : Z) : Z := Int.wrap_signed Tbits x.

(** [DynamicIntX(size_t bits)] *)
Definition DynamicIntX_new (bits : Z) : result DynamicIntX :=
  if (bits =? 0) || (Int.size_t (Tbits - 1) <=? bits)
  then Throw length_error
  else Ok {| counter := 0; bits := bits |}.

(** [T operator+(T val)]: returns the overflow and leaves the residue in
    the counter.  [/] and [%] of C++ truncate ([Z.quot], [Z.rem]). *)
Definition add (c : DynamicIntX) (val : Z) : result (Z * DynamicIntX) :=
  let constant := wrapT (Z.shiftl 1 (bits c)) in
  let bound := wrapT (wrapT (Z.shiftl 1 (Tbits - 2)) - 1) in
  if 0 <=? val then
    if bound <? val then Throw overflow_error
    else
      let overflow := Z.shiftr val (bits c) in
      let add := wrapT (counter c + Z.land val (wrapT (constant - 1))) in
      let counter' := Z.rem add constant in
      let overflow := wrapT (overflow + Z.quot add constant) in
      Ok (overflow, {| counter := counter'; bits := bits c |})
  else
    if val <? wrapT (- bound) then Throw overflow_error
    else
      let negate := wrapT (- val) in
      let negate_overflow := Z.shiftr negate (bits c) in
      let add := wrapT (wrapT (constant + counter c)
                        - Z.land negate (wrapT (constant - 1))) in
      let counter' := Z.rem add constant in
      Ok (wrapT (- wrapT (wrapT (negate_overflow + 1) - Z.quot add constant)),
          {| counter := counter'; bits := bits c |}).

End DynamicIntX.

(** [inline bool Endianness()]: whether the first byte of the [int32_t]
    1 is zero.  With the object representations of this development it
    is not. *)
Definition Endianness : bool := nth 0 (to_bytes 4 1) 0 =? 0.

(** [uint16_t Net2Host16(uint16_t val)]: the operands of [|] are
    promoted to [int]; the result is converted back on return. *)
Definition Net2Host16 (val : Z) : Z :=
  if Endianness then val
  else Int.wrap_unsigned 16 (Z.lor (Z.shiftr val 8) (Z.shiftl val 8)).

(** [uint32_t Net2Host32(uint32_t val)] *)
Definition Net2Host32 (val : Z) : Z :=
  if Endianness then val
  else
    Z.lor
      (Int.wrap_unsigned 32
         (Z.shiftl (Net2Host16 (Int.wrap_unsigned 16 val)) 16))
      (Net2Host16 (Int.wrap_unsigned 16 (Z.shiftr val 16))).

End Util.

(** ** [src/common/flowkey.h] *)

Module FlowKey.

(** [int8_t key_[key_len]]: the bytes are signed, as the C++ type says. *)
Definition FlowKey (key_len : nat) : Type := vec Z key_len.

(** [key_[i]] *)
Definition byte_at {key_len} (k : FlowKey key_len) (i : nat) : Z :=
  nth i (vec_to_list k) 0.

(** The same byte read through a [const uint8_t *]. *)
Definition ubyte_at {key_len} (k : FlowKey key_len) (i : nat) : Z :=
  Int.uint8 (byte_at k i).

(** [FlowKey()] *)
Definition zero_key (key_len : nat) : FlowKey key_len := vreplicate key_len 0.

(** [FlowKey(int32_t ipaddr)], for [key_len = 4] *)
Definition of_ip (ipaddr : Z) : FlowKey 4 :=
  match Util.to_bytes 4 (Int.wrap_unsigned 32 ipaddr) with
  | [b0; b1; b2; b3] => [# Int.int8 b0; Int.int8 b1; Int.int8 b2; Int.int8 b3]
  | _ => zero_key 4
  end.

(** [bool operator==(const FlowKey &otherkey) const] *)
Fixpoint eq_loop {key_len} (n i : nat) (a b : FlowKey key_len) : bool :=
  match n with
  | O => true
  | S n => if negb (byte_at a i =? byte_at b i) then false
           else eq_loop n (S i) a b
  end.

Definition eq {key_len} (a b : FlowKey key_len) : bool :=
  eq_loop key_len 0 a b.

(** [bool operator<(const FlowKey &otherkey) const]
<<
  for (int32_t i = 0; i < key_len; ++i) {
    if (key_[i] < otherkey.key_[i]) return true;
    else if (key_[i] > otherkey.key_[i]) return false;
  }
  return false;
>> *)
Fixpoint lt_loop {key_len} (n i : nat) (a b : FlowKey key_len) : bool :=
  match n with
  | O => false
  | S n => if byte_at a i <? byte_at b i then true
           else if byte_at a i >? byte_at b i then false
           else lt_loop n (S i) a b
  end.

Definition lt {key_len} (a b : FlowKey key_len) : bool :=
  lt_loop key_len 0 a b.

(** The bytes as [reinterpret_cast<const uint8_t *>(cKey())] shows them. *)
Definition ubytes {key_len} (k : FlowKey key_len) : list Z :=
  map Int.uint8 (vec_to_list k).

(** *** Reading and writing bytes

    [vec_imap f i v] applies [f] to every element of [v] together with
    its position, counted from [i]. *)
Fixpoint vec_imap {A : Type} {n : nat} (f : nat -> A -> A) (i : nat)
  (v : vec A n) : vec A n :=
  match v in vec _ n return vec A n with
  | vnil => vnil
  | vcons x v => vcons (f i x) (vec_imap f (S i) v)
  end.

(** Overwrites the bytes at [pos], [pos + 1], ... with those of [src]. *)
Definition write_bytes {key_len} (k : FlowKey key_len) (pos : Z)
  (src : list Z) : FlowKey key_len :=
  vec_imap (fun j old =>
              if (pos <=? Z.of_nat j)
                 && (Z.of_nat j <? pos + Z.of_nat (length src))
              then nth (Z.to_nat (Z.of_nat j - pos)) src 0
              else old)
    0 k.

(** The [len] bytes from [pos] on. *)
Definition read_bytes {key_len} (k : FlowKey key_len) (pos len : nat)
  : list Z :=
  map (fun j => byte_at k (pos + j)) (seq 0 len).

(** [*(intN_t * )(key_ + pos) = v]: the object representation of a signed
    integer of [n] bytes, as signed bytes. *)
Definition int_bytes (n : nat) (v : Z) : list Z :=
  map Int.int8 (Util.to_bytes n (Int.wrap_unsigned (8 * Z.of_nat n) v)).

(** [*(intN_t * )(key_ + pos)] *)
Definition read_int {key_len} (k : FlowKey key_len) (pos n : nat) : Z :=
  Int.wrap_signed (8 * Z.of_nat n)
    (Util.of_bytes (map Int.uint8 (read_bytes k pos n))).

(** [FlowKey(const int8_t *key)]: reads [key_len] bytes; fewer are there
    to read is undefined behaviour. *)
Definition of_key (key_len : nat) (key : list Z) : result (FlowKey key_len) :=
  if (length key <? key_len)%nat then Throw undefined_behaviour
  else Ok (write_bytes (zero_key key_len) 0 (take key_len key)).

(** [FlowKey(int32_t ipaddr)], [FlowKey(int32_t srcip, int32_t dstip)] and
    [FlowKey(int32_t srcip, int32_t dstip, int16_t srcport, int16_t
    dstport, int8_t protocol)]: every byte of the key is written when the
    length is the one asked for. *)
Definition new_ip (key_len : nat) (ipaddr : Z) : result (FlowKey key_len) :=
  if negb (key_len =? 4)%nat then Throw invalid_argument
  else Ok (write_bytes (zero_key key_len) 0 (int_bytes 4 ipaddr)).

Definition new_ips (key_len : nat) (srcip dstip : Z)
  : result (FlowKey key_len) :=
  if negb (key_len =? 8)%nat then Throw invalid_argument
  else
    let k := write_bytes (zero_key key_len) 0 (int_bytes 4 srcip) in
    Ok (write_bytes k 4 (int_bytes 4 dstip)).

Definition new_5tuple (key_len : nat) (srcip dstip srcport dstport protocol : Z)
  : result (FlowKey key_len) :=
  if negb (key_len =? 13)%nat then Throw invalid_argument
  else
    let k := write_bytes (zero_key key_len) 0 (int_bytes 4 srcip) in
    let k := write_bytes k 4 (int_bytes 4 dstip) in
    let k := write_bytes k 8 (int_bytes 2 srcport) in
    let k := write_bytes k 10 (int_bytes 2 dstport) in
    Ok (write_bytes k 12 (int_bytes 1 protocol)).

(** [getIp], [getSrcIp], [getDstIp], [getSrcPort], [getDstPort],
    [getProtocol] *)
Definition getIp {key_len} (k : FlowKey key_len) : result Z :=
  if negb (key_len =? 4)%nat then Throw invalid_argument
  else Ok (read_int k 0 4).

Definition getSrcIp {key_len} (k : FlowKey key_len) : result Z :=
  if negb (key_len =? 8)%nat && negb (key_len =? 13)%nat
  then Throw invalid_argument
  else Ok (read_int k 0 4).

Definition getDstIp {key_len} (k : FlowKey key_len) : result Z :=
  if negb (key_len =? 8)%nat && negb (key_len =? 13)%nat
  then Throw invalid_argument
  else Ok (read_int k 4 4).

Definition getSrcPort {key_len} (k : FlowKey key_len) : result Z :=
  if negb (key_len =? 13)%nat then Throw invalid_argument
  else Ok (read_int k 8 2).

Definition getDstPort {key_len} (k : FlowKey key_len) : result Z :=
  if negb (key_len =? 13)%nat then Throw invalid_argument
  else Ok (read_int k 10 2).

Definition getProtocol {key_len} (k : FlowKey key_len) : result Z :=
  if negb (key_len =? 13)%nat then Throw invalid_argument
  else Ok (read_int k 12 1).

(** [FlowKey<key_len> &operator^=(const FlowKey &otherkey)] *)
Definition xor {key_len} (k otherkey : FlowKey key_len) : FlowKey key_len :=
  vzip_with (fun a b => Int.int8 (Z.lxor a b)) k otherkey.


(** [copy(int32_t pos, const int8_t *key, int32_t len)]: [key] points to
    the bytes given. *)
Definition copy_bytes {key_len} (k : FlowKey key_len) (pos : Z)
  (key : list Z) (len : Z) : result (FlowKey key_len) :=
  if pos <? 0 then Throw out_of_range
  else if Int.INT32_MAX <? pos + len then Throw undefined_behaviour
  else if Z.of_nat key_len <? pos + len then Throw out_of_range
  else if len <? 0 then Throw undefined_behaviour
  else if Z.of_nat (length key) <? len then Throw undefined_behaviour
  else Ok (write_bytes k pos (take (Z.to_nat len) key)).

(** [FlowKey<key_len> &swap(FlowKey<key_len> &the_other_key)] *)
Definition swap {key_len} (k the_other_key : FlowKey key_len)
  : FlowKey key_len * FlowKey key_len :=
  (the_other_key, k).

(** [BYTE(n)] and [BIT(n)] *)
Definition BYTE (n : Z) : Z := Z.shiftr n 3.
Definition BIT (n : Z) : Z := Z.land n 7.

(** [int8_t getBit(int32_t pos) const]
<<
  if (BYTE(pos) >= key_len) throw FlowKeyOutOfRange(BYTE(pos), 0, key_len);
  return (key_[BYTE(pos)] >> BIT(pos)) & 1;
>> *)
Definition getBit {key_len} (k : FlowKey key_len) (pos : Z) : result Z :=
  if Z.of_nat key_len <=? BYTE pos then Throw out_of_range
  else
    let* b := vec_at (vec_to_list k) (BYTE pos) in
    Ok (Int.int8 (Z.land (Z.shiftr b (BIT pos)) 1)).

(** [void setBit(int32_t pos, bool one)] *)
Definition setBit {key_len} (k : FlowKey key_len) (pos : Z) (one : bool)
  : result (FlowKey key_len) :=
  if Z.of_nat key_len <=? BYTE pos then Throw out_of_range
  else
    let* b := vec_at (vec_to_list k) (BYTE pos) in
    let b' :=
      if one then Int.int8 (Z.lor b (Z.shiftl 1 (BIT pos)))
      else Int.int8 (Z.land b (Z.lnot (Z.shiftl 1 (BIT pos)))) in
    Ok (write_bytes k (BYTE pos) [b']).

End FlowKey.

(** ** [src/common/hash.h], [src/impl/hash.cpp] *)

Module Hash.

(** A hashing class: anything derived from [HashBase], which provides
    [uint64_t hash(const uint8_t *key, const int32_t len) const]. *)
Class HashT (hash_t : Type) : Type :=
  { hash : hash_t -> list Z -> Z }.

(** [uint64_t operator()(const uint8_t *key, const int32_t len) const] *)
Definition hash_bytes `{HashT hash_t} (h : hash_t) (key : list Z) : Z :=
  Int.uint64 (hash h key).

(** [uint64_t operator()(const size_t val) const] *)
Definition hash_size_t `{HashT hash_t} (h : hash_t) (val : Z) : Z :=
  hash_bytes h (Util.to_bytes 8 val).

(** [uint64_t operator()(const FlowKey<key_len> &flowkey) const] *)
Definition hash_flowkey `{HashT hash_t} {key_len} (h : hash_t)
  (flowkey : FlowKey.FlowKey key_len) : Z :=
  hash_bytes h (FlowKey.ubytes flowkey).

Record AwareHash : Type := { init : Z; scale : Z; hardener : Z }.

(** [uint64_t AwareHash::hash(const uint8_t *data, const int32_t n) const] *)
Definition AwareHash_hash (h : AwareHash) (data : list Z) : Z :=
  let result :=
    fold_left (fun result b => Int.uint64 (Int.uint64 (result * scale h) + b))
      data (init h) in
  Z.lxor result (hardener h).

#[global] Instance AwareHash_HashT : HashT AwareHash :=
  {| hash := AwareHash_hash |}.

Definition gen_hash : AwareHash :=
  {| init := 388650253; scale := 388650319; hardener := 1176845762 |}.

(** [AwareHash::AwareHash()]: [seed] is the value [rand()] returned and
    [index] the static counter before the call; the counter afterwards is
    [index + 3]. *)
Definition AwareHash_new (seed index : Z) : AwareHash :=
  let gen i :=
    hash_bytes gen_hash
      (Util.to_bytes 8 (Util.Mangle 8 (Int.uint64 (seed + (index + i))))) in
  {| init := gen 0; scale := gen 1; hardener := gen 2 |}.

End Hash.

(** ** [src/common/hierarchy.h] *)

Module Hierarchy.
Import Util.

Section CounterHierarchy.

(** Template parameters of [CounterHierarchy<no_layer, T, hash_t>]: [T] is
    a signed integer type of [Tbits] bits. *)
Context {hash_t : Type} `{Hash.HashT hash_t}.
Variable no_layer : Z.
Variable Tbits : Z.
Variable sizeof_hash_t : Z.

(** [Eigen::LeastSquaresConjugateGradient]: [lscg_solve rows cols A b] is
    the vector [X] the solver returns for the [rows * cols] sparse matrix
    built from the triplets [A] (row, column, each of value 1.0, duplicates
    summed) and the right-hand side [b].  The solver is external to the
    repository and is left uninterpreted. *)
Variable lscg_solve :
  Z -> Z -> list (Z * Z) -> list Double.double -> list Double.double.

(** [using CarryOver = std::map<std::size_t, T>], kept in key order. *)
Definition CarryOver : Type := list (Z * Z).

(** [m[index] += val], a missing entry being value-initialised first. *)
Fixpoint co_add (m : CarryOver) (index val : Z) : CarryOver :=
  match m with
  | [] => [(index, wrapT Tbits (0 + val))]
  | (k, v) :: m' =>
      if index <? k then (index, wrapT Tbits (0 + val)) :: m
      else if index =? k then (k, wrapT Tbits (v + val)) :: m'
      else (k, v) :: co_add m' index val
  end.

Record CounterHierarchy : Type := {
  no_cnt : list Z;
  width_cnt : list Z;
  no_hash : list Z;
  hash_fns : list (list hash_t);
  cnt_array : list (list DynamicIntX);
  status_bits : list (list bool);
  original_cnt : list Z;
  decoded_cnt : list Double.double;
  lazy_update : CarryOver
}.

Definition set_counter (ch : CounterHierarchy) (layer idx : Z)
  (c : DynamicIntX) : CounterHierarchy :=
  {| no_cnt := no_cnt ch; width_cnt := width_cnt ch; no_hash := no_hash ch;
     hash_fns := hash_fns ch;
     cnt_array :=
       alter (fun row => <[Z.to_nat idx := c]> row) (Z.to_nat layer)
         (cnt_array ch);
     status_bits := status_bits ch; original_cnt := original_cnt ch;
     decoded_cnt := decoded_cnt ch; lazy_update := lazy_update ch |}.

Definition set_status (ch : CounterHierarchy) (layer idx : Z)
  : CounterHierarchy :=
  {| no_cnt := no_cnt ch; width_cnt := width_cnt ch; no_hash := no_hash ch;
     hash_fns := hash_fns ch; cnt_array := cnt_array ch;
     status_bits :=
       alter (fun row => <[Z.to_nat idx := true]> row) (Z.to_nat layer)
         (status_bits ch);
     original_cnt := original_cnt ch;
     decoded_cnt := decoded_cnt ch; lazy_update := lazy_update ch |}.

Definition set_lazy (ch : CounterHierarchy) (lazy : CarryOver)
  : CounterHierarchy :=
  {| no_cnt := no_cnt ch; width_cnt := width_cnt ch; no_hash := no_hash ch;
     hash_fns := hash_fns ch; cnt_array := cnt_array ch;
     status_bits := status_bits ch; original_cnt := original_cnt ch;
     decoded_cnt := decoded_cnt ch; lazy_update := lazy |}.

Definition set_decoded (ch : CounterHierarchy) (d : list Double.double)
  : CounterHierarchy :=
  {| no_cnt := no_cnt ch; width_cnt := width_cnt ch; no_hash := no_hash ch;
     hash_fns := hash_fns ch; cnt_array := cnt_array ch;
     status_bits := status_bits ch; original_cnt := original_cnt ch;
     decoded_cnt := d; lazy_update := lazy_update ch |}.

(** [hash_fns[layer][i](idx) % no_cnt[layer + 1]] *)
Definition upper_index (ch : CounterHierarchy) (layer i idx : Z) : result Z :=
  let* fns := vec_at (hash_fns ch) layer in
  let* h := vec_at fns i in
  let* m := vec_at (no_cnt ch) (layer + 1) in
  if m =? 0 then Throw undefined_behaviour
  else Ok (Hash.hash_size_t h idx mod m).

(** One iteration of the loop of [updateLayer] over [updates]. *)
Definition updateLayer_step (layer : Z)
  (st : CarryOver * CounterHierarchy) (kv : Z * Z)
  : result (CarryOver * CounterHierarchy) :=
  let* row := vec_at (cnt_array st.2) layer in
  let* c := vec_at row kv.1 in
  let* oc := add Tbits c kv.2 in
  let ch := set_counter st.2 layer kv.1 oc.2 in
  let overflow := oc.1 in
  if overflow =? 0 then Ok (st.1, ch)
  else
    let ch := set_status ch layer kv.1 in
    if layer =? no_layer - 1 then Throw overflow_error
    else
      let* nh := vec_at (no_hash ch) layer in
      let* ret :=
        for_loop (fun i ret =>
                    let* index := upper_index ch layer i kv.1 in
                    Ok (co_add ret index overflow))
          (upto nh) st.1 in
      Ok (ret, ch).

Fixpoint updateLayer_loop (layer : Z) (updates : CarryOver)
  (st : CarryOver * CounterHierarchy)
  : result (CarryOver * CounterHierarchy) :=
  match updates with
  | [] => Ok st
  | kv :: updates =>
      let* st' := updateLayer_step layer st kv in
      updateLayer_loop layer updates st'
  end.

(** [CarryOver updateLayer(const int32_t layer, CarryOver &&updates)] *)
Definition updateLayer (ch : CounterHierarchy) (layer : Z)
  (updates : CarryOver) : result (CarryOver * CounterHierarchy) :=
  updateLayer_loop layer updates ([], ch).

(** The triplet list of [decodeLayer]: one entry (k, i) per hash function
    of every counter [i] of [layer] whose status bit is set. *)
Definition triplets (ch : CounterHierarchy) (layer : Z)
  : result (list (Z * Z)) :=
  let* m := vec_at (no_cnt ch) layer in
  for_loop (fun i acc =>
              let* bits := vec_at (status_bits ch) layer in
              let* b := vec_at bits i in
              if negb b then Ok acc
              else
                let* nh := vec_at (no_hash ch) layer in
                for_loop (fun j acc =>
                            let* k := upper_index ch layer j i in
                            Ok (acc ++ [(k, i)]))
                  (upto nh) acc)
    (upto m) [].

(** [std::vector<double> decodeLayer(const int32_t layer,
    std::vector<double> &&higher) const] *)
Definition decodeLayer (ch : CounterHierarchy) (layer : Z)
  (higher : list Double.double) : result (list Double.double) :=
  let* m1 := vec_at (no_cnt ch) (layer + 1) in
  if negb (Z.of_nat (length higher) =? m1) then Throw length_error
  else
    let* m := vec_at (no_cnt ch) layer in
    let* A := triplets ch layer in
    let X := lscg_solve m1 m A higher in
    let* w := vec_at (width_cnt ch) layer in
    for_loop (fun i ret =>
                let* bits := vec_at (status_bits ch) layer in
                let* b := vec_at bits i in
                let* hi :=
                  if b : bool then
                    let* r :=
                      Double.to_signed Tbits
                        (Double.add (nth (Z.to_nat i) X S754_nan) Double.half) in
                    Ok (Double.of_Z (wrapT Tbits (Z.shiftl r w)))
                  else Ok Double.zero in
                let* row := vec_at (cnt_array ch) layer in
                let* c := vec_at row i in
                Ok (ret ++ [Double.add hi (Double.of_Z (getVal c))]))
      (upto m) [].

(** [CounterHierarchy(no_cnt, width_cnt, no_hash)].  The hashing classes
    are default-constructed by the C++ constructor; [new_hash layer i] is
    the instance that ends up in [hash_fns[layer][i]]. *)
Definition check_widths (width_cnt : list Z) : result Z :=
  fold_left (fun acc i =>
               let* length := acc in
               let tmp := Int.size_t (length + i) in
               if (tmp <? length) || (Tbits <? tmp)
               then Throw invalid_argument else Ok tmp)
    width_cnt (Ok 0).

Fixpoint new_counters (no_cnt width_cnt : list Z)
  : result (list (list DynamicIntX)) :=
  match no_cnt, width_cnt with
  | m :: no_cnt, w :: width_cnt =>
      let* c := DynamicIntX_new Tbits w in
      let* rest := new_counters no_cnt width_cnt in
      Ok (replicate (Z.to_nat m) c :: rest)
  | _, _ => Ok []
  end.

Definition CounterHierarchy_new (no_cnt width_cnt no_hash : list Z)
  (new_hash : nat -> nat -> hash_t) : result CounterHierarchy :=
  if no_layer <? 1 then Throw invalid_argument
  else if negb (Z.of_nat (length no_cnt) =? no_layer)
  then Throw invalid_argument
  else if negb (Z.of_nat (length width_cnt) =? no_layer)
  then Throw invalid_argument
  else if negb (Z.of_nat (length no_hash) =? no_layer - 1)
  then Throw invalid_argument
  else if existsb (Z.eqb 0) no_cnt then Throw invalid_argument
  else if existsb (Z.eqb 0) width_cnt then Throw invalid_argument
  else if existsb (Z.eqb 0) no_hash then Throw invalid_argument
  else
    let* _ := check_widths width_cnt in
    let* cnts := new_counters no_cnt width_cnt in
    let m0 := Z.to_nat (nth 0 no_cnt 0) in
    Ok {| no_cnt := no_cnt; width_cnt := width_cnt; no_hash := no_hash;
          hash_fns :=
            imap (fun layer n => map (new_hash layer) (seq 0 (Z.to_nat n)))
              no_hash;
          cnt_array := cnts;
          status_bits := map (fun m => replicate (Z.to_nat m) false) no_cnt;
          original_cnt := replicate m0 0;
          decoded_cnt := replicate m0 Double.zero;
          lazy_update := [] |}.

(** [void updateCnt(size_t index, T val)] *)
Definition updateCnt (ch : CounterHierarchy) (index val : Z)
  : result CounterHierarchy :=
  let* m0 := vec_at (no_cnt ch) 0 in
  if m0 <=? index then Throw out_of_range
  else
    let* o := vec_at (original_cnt ch) index in
    Ok {| no_cnt := no_cnt ch; width_cnt := width_cnt ch;
          no_hash := no_hash ch; hash_fns := hash_fns ch;
          cnt_array := cnt_array ch; status_bits := status_bits ch;
          original_cnt :=
            <[Z.to_nat index := wrapT Tbits (o + val)]> (original_cnt ch);
          decoded_cnt := decoded_cnt ch;
          lazy_update := co_add (lazy_update ch) index val |}.

(** The lazy update of [getCnt]: the pending updates go through the
    layers from low to high, each layer handing its carries to the next. *)
Definition flush (ch : CounterHierarchy) : result CounterHierarchy :=
  let* st :=
    for_loop (fun i (st : CarryOver * CounterHierarchy) =>
                updateLayer st.2 i st.1)
      (upto no_layer) (lazy_update ch, ch) in
  Ok (set_lazy st.2 []).

(** The decoding of [getCnt]: the last layer is read as it is and every
    lower layer is decoded from the one above it. *)
Definition decode (ch : CounterHierarchy) : result CounterHierarchy :=
  let* m_back := vec_at (no_cnt ch) (Z.of_nat (length (no_cnt ch)) - 1) in
  let* top :=
    for_loop (fun i d =>
                let* row := vec_at (cnt_array ch) (no_layer - 1) in
                let* c := vec_at row i in
                Ok (d ++ [Double.of_Z (getVal c)]))
      (upto m_back) [] in
  let* d :=
    for_loop (fun i d => decodeLayer ch i d) (rev (upto (no_layer - 1))) top in
  Ok (set_decoded ch d).

(** [T getCnt(size_t index)] *)
Definition getCnt (ch : CounterHierarchy) (index : Z)
  : result (Z * CounterHierarchy) :=
  let* m0 := vec_at (no_cnt ch) 0 in
  if m0 <=? index then Throw out_of_range
  else
    let* ch' :=
      match lazy_update ch with
      | [] => Ok ch
      | _ :: _ => let* ch1 := flush ch in decode ch1
      end in
    let* d := vec_at (decoded_cnt ch') index in
    let* v := Double.to_signed Tbits d in
    Ok (v, ch').

(** [T getOriginalCnt(size_t index) const] *)
Definition getOriginalCnt (ch : CounterHierarchy) (index : Z) : result Z :=
  vec_at (original_cnt ch) index.

(** [size_t size() const]
<<
  size_t tot = 0; // first in bits
  for (int32_t i = 0; i < no_layer; ++i) {
    tot += no_cnt[i] * width_cnt[i];
    tot += no_cnt[i];
  }
  tot >>= 3; // to bytes
  for (int32_t i = 0; i < no_layer - 1; ++i)
    tot += sizeof(hash_t) * no_hash[i];
  return tot;
>> *)
Definition size (ch : CounterHierarchy) : result Z :=
  let* tot :=
    for_loop (fun i tot =>
                let* m := vec_at (no_cnt ch) i in
                let* w := vec_at (width_cnt ch) i in
                let tot := Int.size_t (tot + Int.size_t (m * w)) in
                Ok (Int.size_t (tot + m)))
      (upto no_layer) 0 in
  let tot := Z.shiftr tot 3 in
  for_loop (fun i tot =>
              let* h := vec_at (no_hash ch) i in
              Ok (Int.size_t (tot + Int.size_t (sizeof_hash_t * h))))
    (upto (no_layer - 1)) tot.

(** [size_t originalSize() const] *)
Definition originalSize (ch : CounterHierarchy) : result Z :=
  let* m0 := vec_at (no_cnt ch) 0 in
  Ok (Int.size_t (Tbits / 8 * m0)).

(** [void clear()]: the decoded counters are left as they are. *)
Definition clear (ch : CounterHierarchy) : result CounterHierarchy :=
  let* cnts := new_counters (no_cnt ch) (width_cnt ch) in
  Ok {| no_cnt := no_cnt ch; width_cnt := width_cnt ch;
        no_hash := no_hash ch; hash_fns := hash_fns ch;
        cnt_array := cnts;
        status_bits := map (fun row => replicate (length row) false)
                         (status_bits ch);
        original_cnt := replicate (Z.to_nat (nth 0 (no_cnt ch) 0)) 0;
        decoded_cnt := decoded_cnt ch;
        lazy_update := [] |}.

(** *** Sequences of calls

    A client drives the hierarchy by a sequence of [updateCnt] and
    [getCnt] calls.  [quiet ch] says that flushing the pending updates of
    [ch] carries nothing out of layer 0: every pending update is absorbed
    by its counter's residue with overflow 0. *)
Inductive call : Type :=
| UpdateCnt (index val : Z)
| GetCnt (index : Z).

Definition quiet_update (ch : CounterHierarchy) (kv : Z * Z) : bool :=
  match vec_at (cnt_array ch) 0 with
  | Ok row =>
      match vec_at row kv.1 with
      | Ok c =>
          match add Tbits c kv.2 with
          | Ok oc => oc.1 =? 0
          | Throw _ => false
          end
      | Throw _ => false
      end
  | Throw _ => false
  end.

Definition quiet (ch : CounterHierarchy) : bool :=
  forallb (quiet_update ch) (lazy_update ch).

(** Runs the calls in order; [None] as soon as a call throws or a
    [getCnt] has to flush updates that are not [quiet]. *)
Fixpoint run_quiet (calls : list call) (ch : CounterHierarchy)
  : option CounterHierarchy :=
  match calls with
  | [] => Some ch
  | UpdateCnt index val :: calls =>
      match updateCnt ch index val with
      | Ok ch' => run_quiet calls ch'
      | Throw _ => None
      end
  | GetCnt index :: calls =>
      if quiet ch then
        match getCnt ch index with
        | Ok r => run_quiet calls r.2
        | Throw _ => None
        end
      else None
  end.

(** The shadow value of counter [index] after the calls: the sum, in [T],
    of the updates made to it. *)
Definition shadow (calls : list call) (index : Z) : Z :=
  fold_left (fun acc c =>
               match c with
               | UpdateCnt i val =>
                   if i =? index then wrapT Tbits (acc + val) else acc
               | GetCnt _ => acc
               end)
    calls 0.

End CounterHierarchy.

End Hierarchy.

(** ** [src/common/data.h] *)

Module Data.

Inductive CntMethod : Type := InLength | InPacket.
Inductive HXMethod : Type := TopK | Percentile.

(** What the functions log at level WARNING. *)
Inductive warning : Type :=
| CalledAgain (called : Z)
| SpuriousLength
| CounterOverflow.

Section GndTruth.

(** Template parameters of [GndTruth<key_len, T>]: [T] is a signed integer
    type of [Tbits] bits ([int32_t] or [int64_t]). *)
Context {key_len : nat}.
Variable Tbits : Z.

Local Abbreviation Key := (FlowKey.FlowKey key_len).
Local Abbreviation wrapT := (Int.wrap_signed Tbits).

(** [struct Record] *)
Record PacketRecord : Type := {
  flowkey : Key;
  timestamp : Z;
  length : Z
}.

(** The bidirectional map [bimap<unordered_set_of<FlowKey>, vector_of<T>>]
    is the list of its relations in the order of the right view (a
    vector).  The left view finds a relation by its key. *)
Definition BidirMap : Type := list (Key * Z).

(** The order in which the left view (a hash table) enumerates the
    relations; it depends on the hash table's internals, so it is a
    parameter. *)
Variable left_order : BidirMap -> BidirMap.

(** [my_map.left.count(flowkey)] *)
Definition left_count (m : BidirMap) (k : Key) : bool :=
  existsb (fun kv => FlowKey.eq kv.1 k) m.

(** [my_map.left.at(flowkey)] for a key that is there *)
Fixpoint left_at (m : BidirMap) (k : Key) : Z :=
  match m with
  | [] => 0
  | kv :: m => if FlowKey.eq kv.1 k then kv.2 else left_at m k
  end.

(** [my_map.left[flowkey] = f(my_map.left[flowkey])]: a key that is there
    keeps its place in the right view, a new one goes to its end with a
    value-initialised counter. *)
Fixpoint left_update (m : BidirMap) (k : Key) (f : Z -> Z) : BidirMap :=
  match m with
  | [] => [(k, f 0)]
  | kv :: m =>
      if FlowKey.eq kv.1 k then (kv.1, f kv.2) :: m
      else kv :: left_update m k f
  end.

(** [my_map.right.push_back(kv)]: refused when the key is there. *)
Definition push_back (m : BidirMap) (kv : Key * Z) : BidirMap :=
  if left_count m kv.1 then m else m ++ [kv].

(** [my_map.right.sort(std::greater<T>())]: a stable sort, by value,
    descending. *)
Fixpoint sort_insert (x : Key * Z) (l : BidirMap) : BidirMap :=
  match l with
  | [] => [x]
  | y :: l' => if y.2 <=? x.2 then x :: l else y :: sort_insert x l'
  end.

Fixpoint sort_desc (l : BidirMap) : BidirMap :=
  match l with
  | [] => []
  | x :: l => sort_insert x (sort_desc l)
  end.

(** [std::lower_bound(first, last, thres, greater)] on a range partitioned
    by [value > thres]: the position of the first relation whose value is
    not greater than [thres]. *)
Fixpoint lower_bound (l : BidirMap) (thres : Z) : nat :=
  match l with
  | [] => O
  | kv :: l => if kv.2 >? thres then S (lower_bound l thres) else O
  end.

(** [for (ptr : l) tot_value += ptr->get_right();] *)
Definition add_values (tot : Z) (l : BidirMap) : Z :=
  fold_left (fun tot kv => Int.int64 (tot + kv.2)) l tot.

Record GndTruth : Type := {
  my_map : BidirMap;
  tot_value : Z;
  called : Z
}.

(** A default-constructed instance. *)
Definition empty : GndTruth := {| my_map := []; tot_value := 0; called := 0 |}.

Definition totalValue (g : GndTruth) : Z := tot_value g.
Definition size (g : GndTruth) : Z := Z.of_nat (List.length (my_map g)).

Definition set_called (g : GndTruth) (c : Z) : GndTruth :=
  {| my_map := my_map g; tot_value := tot_value g; called := c |}.

(** [CHECK_CALLED_ONCE]: [called++], then a warning and an early return
    when [called > 1].  The counter of calls is not wrapped: it cannot
    reach the end of [int64_t]. *)
Definition check_called_once (g : GndTruth)
  (k : GndTruth -> result (GndTruth * list warning))
  : result (GndTruth * list warning) :=
  let g' := set_called g (called g + 1) in
  if called g' >? 1 then Ok (g', [CalledAgain (called g')]) else k g'.

(** [ASSERT_AND_TRUNCATE_MYSELF_TO_THE_FIRST_K_ELEMENTS] *)
Definition truncate_top_k (g : GndTruth) (threshold : Double.double)
  : result GndTruth :=
  if Double.ltb threshold Double.one then Throw invalid_argument
  else
    let* k := Double.to_size_t threshold in
    let no := Z.min (size g) k in
    let m := take (Z.to_nat no) (my_map g) in
    Ok {| my_map := m; tot_value := add_values (tot_value g) (left_order m);
          called := called g |}.

(** [ASSERT_AND_TRUNCATE_MYSELF_TO_ELEMENTS_WITH_GIVEN_VALUE] *)
Definition truncate_percentile (g : GndTruth) (threshold : Double.double)
  (save : Z) : result GndTruth :=
  if negb (Double.leb Double.zero threshold && Double.leb threshold Double.one)
  then Throw invalid_argument
  else
    let* thres :=
      Double.to_signed Tbits (Double.mul threshold (Double.of_Z save)) in
    let m := take (lower_bound (my_map g) thres) (my_map g) in
    Ok {| my_map := m; tot_value := add_values (tot_value g) (left_order m);
          called := called g |}.

Definition truncate (g : GndTruth) (threshold : Double.double)
  (method : HXMethod) (save : Z) : result GndTruth :=
  match method with
  | TopK => truncate_top_k g threshold
  | Percentile => truncate_percentile g threshold save
  end.

(** [void swap(GndTruth &other)] *)
Definition swap (g other : GndTruth) : GndTruth * GndTruth := (other, g).

(** [GndTruth &operator-=(const GndTruth &other)] *)
Definition sub_step (st : BidirMap * Z) (kv : Key * Z) : BidirMap * Z :=
  if left_count st.1 kv.1 then
    let tot := Int.int64 (st.2 - left_at st.1 kv.1) in
    let m :=
      left_update st.1 kv.1 (fun mine => wrapT (Z.abs (wrapT (mine - kv.2)))) in
    (m, Int.int64 (tot + left_at m kv.1))
  else
    (left_update st.1 kv.1 (fun _ => kv.2), Int.int64 (st.2 + kv.2)).

Definition sub_assign (g other : GndTruth) : GndTruth :=
  let st := fold_left sub_step (left_order (my_map other))
              (my_map g, tot_value g) in
  {| my_map := sort_desc st.1; tot_value := st.2; called := called g |}.

(** The body of the loop of [getGroundTruth]. *)
Definition count_step (cnt_method : CntMethod)
  (st : BidirMap * Z * bool * bool) (r : PacketRecord)
  : BidirMap * Z * bool * bool :=
  let '(m, tot, spurious_len, overflow) := st in
  match cnt_method with
  | InLength =>
      let spurious_len :=
        if (length r <=? 0) || (length r >? 1500) then true else spurious_len in
      let m := left_update m (flowkey r) (fun v => wrapT (v + length r)) in
      let tot := Int.int64 (tot + length r) in
      let overflow :=
        if Z.testbit (left_at m (flowkey r)) (Tbits - 1) then true
        else overflow in
      (m, tot, spurious_len, overflow)
  | InPacket =>
      let m := left_update m (flowkey r) (fun v => wrapT (v + 1)) in
      let tot := Int.int64 (tot + 1) in
      let overflow :=
        if Z.testbit (left_at m (flowkey r)) (Tbits - 1) then true
        else overflow in
      (m, tot, spurious_len, overflow)
  end.

Definition report (spurious_len overflow : bool) : list warning :=
  (if spurious_len then [SpuriousLength] else [])
    ++ (if overflow then [CounterOverflow] else []).

(** [void getGroundTruth(begin, end, CntMethod cnt_method)] *)
Definition getGroundTruth (g : GndTruth) (records : list PacketRecord)
  (cnt_method : CntMethod) : result (GndTruth * list warning) :=
  check_called_once g (fun g =>
    let '(m, tot, spurious_len, overflow) :=
      fold_left (count_step cnt_method) records
        (my_map g, tot_value g, false, false) in
    Ok ({| my_map := sort_desc m; tot_value := tot; called := called g |},
        report spurious_len overflow)).

(** The copying loops of [getHeavyHitter(const GndTruth &, ...)]. *)
Definition copy_from (g : GndTruth) (l : BidirMap) : GndTruth :=
  fold_left (fun g kv =>
               {| my_map := push_back (my_map g) kv;
                  tot_value := Int.int64 (tot_value g + kv.2);
                  called := called g |})
    l g.

(** [void getHeavyHitter(const GndTruth &flow_summary, double threshold,
    HXMethod hh_method)].  The loop of the Top-K branch,
    [for (int i = 0; i < no; ++i, ptr++)], counts in an [int] up to the
    [size_t] [no]: with [no] above [INT32_MAX] the increment overflows. *)
Definition getHeavyHitter (g flow_summary : GndTruth)
  (threshold : Double.double) (hh_method : HXMethod)
  : result (GndTruth * list warning) :=
  check_called_once g (fun g =>
    match hh_method with
    | TopK =>
        if Double.ltb threshold Double.one then Throw invalid_argument
        else
          let* k := Double.to_size_t threshold in
          let no := Z.min (size flow_summary) k in
          if Int.INT32_MAX <? no then Throw undefined_behaviour
          else Ok (copy_from g (take (Z.to_nat no) (my_map flow_summary)), [])
    | Percentile =>
        if negb (Double.leb Double.zero threshold
                 && Double.leb threshold Double.one)
        then Throw invalid_argument
        else
          let* thres :=
            Double.to_signed Tbits
              (Double.mul threshold (Double.of_Z (tot_value flow_summary))) in
          let end_ := lower_bound (my_map flow_summary) thres in
          Ok (copy_from g (take end_ (my_map flow_summary)), [])
    end).

(** [void getHeavyHitter(GndTruth &&flow_summary, double threshold,
    HXMethod hh_method)]: returns the instance and what is left of
    [flow_summary]. *)
Definition getHeavyHitter_move (g flow_summary : GndTruth)
  (threshold : Double.double) (hh_method : HXMethod)
  : result (GndTruth * GndTruth * list warning) :=
  let g := set_called g (called g + 1) in
  if called g >? 1 then Ok (g, flow_summary, [CalledAgain (called g)])
  else
    let save := tot_value flow_summary in
    let flow_summary' :=
      {| my_map := my_map g; tot_value := 0; called := called flow_summary |} in
    let g := {| my_map := my_map flow_summary; tot_value := tot_value g;
                called := called g |} in
    let* g' := truncate g threshold hh_method save in
    Ok (g', flow_summary', []).

(** The same function called as [this->getHeavyHitter(std::move( *this ),
    ...)]: [flow_summary] is the instance itself. *)
Definition getHeavyHitter_move_self (g : GndTruth)
  (threshold : Double.double) (hh_method : HXMethod)
  : result (GndTruth * list warning) :=
  check_called_once g (fun g =>
    let save := tot_value g in
    let g := {| my_map := my_map g; tot_value := 0; called := called g |} in
    let* g' := truncate g threshold hh_method save in
    Ok (g', [])).

(** [void getHeavyHitter(begin, end, CntMethod cnt_method, double
    threshold, HXMethod hh_method)] *)
Definition getHeavyHitter_records (g : GndTruth)
  (records : list PacketRecord) (cnt_method : CntMethod)
  (threshold : Double.double) (hh_method : HXMethod)
  : result (GndTruth * list warning) :=
  check_called_once g (fun g =>
    let g := set_called g (called g - 1) in
    let* r1 := getGroundTruth g records cnt_method in
    let g := set_called r1.1 (called r1.1 - 1) in
    let* r2 := getHeavyHitter_move_self g threshold hh_method in
    Ok (r2.1, r1.2 ++ r2.2)).

(** [void getHeavyChanger(const GndTruth &flow_summary_1, const GndTruth
    &flow_summary_2, double threshold, HXMethod hc_method)] *)
Definition getHeavyChanger (g flow_summary_1 flow_summary_2 : GndTruth)
  (threshold : Double.double) (hc_method : HXMethod)
  : result (GndTruth * list warning) :=
  check_called_once g (fun g =>
    let g := {| my_map := my_map flow_summary_1;
                tot_value := tot_value flow_summary_1;
                called := called g |} in
    let g := sub_assign g flow_summary_2 in
    let save := tot_value g in
    let g := {| my_map := my_map g; tot_value := 0; called := called g |} in
    let* g' := truncate g threshold hc_method save in
    Ok (g', [])).

(** [void getHeavyChanger(GndTruth &&flow_summary_1, GndTruth
    &&flow_summary_2, double threshold, HXMethod hc_method)]: returns the
    instance and what is left of [flow_summary_1]. *)
Definition getHeavyChanger_move (g flow_summary_1 flow_summary_2 : GndTruth)
  (threshold : Double.double) (hc_method : HXMethod)
  : result (GndTruth * GndTruth * list warning) :=
  let g := set_called g (called g + 1) in
  if called g >? 1 then Ok (g, flow_summary_1, [CalledAgain (called g)])
  else
    let flow_summary_1' :=
      {| my_map := my_map g; tot_value := 0;
         called := called flow_summary_1 |} in
    let g := {| my_map := my_map flow_summary_1;
                tot_value := tot_value flow_summary_1;
                called := called g |} in
    let g := sub_assign g flow_summary_2 in
    let save := tot_value g in
    let g := {| my_map := my_map g; tot_value := 0; called := called g |} in
    let* g' := truncate g threshold hc_method save in
    Ok (g', flow_summary_1', []).

(** The loops of [getHeavyChanger(begin_1, end_1, begin_2, end_2, ...)]
    over the second range and over the left view. *)
Definition diff_step (cnt_method : CntMethod) (st : BidirMap * Z * bool)
  (r : PacketRecord) : BidirMap * Z * bool :=
  let '(m, tot, spurious_len) := st in
  let size := match cnt_method with InLength => length r | InPacket => 1 end in
  let spurious_len :=
    match cnt_method with
    | InLength =>
        if (length r <=? 0) || (length r >? 1500) then true else spurious_len
    | InPacket => spurious_len
    end in
  (left_update m (flowkey r) (fun v => wrapT (v - size)),
   Int.int64 (tot - size), spurious_len).

Definition flip_step (st : BidirMap * Z) (kv : Key * Z) : BidirMap * Z :=
  if kv.2 <? 0 then
    let m := left_update st.1 kv.1 (fun v => wrapT (- v)) in
    (m, Int.int64 (st.2 + Int.int64 (2 * left_at m kv.1)))
  else st.

(** [void getHeavyChanger(begin_1, end_1, begin_2, end_2, CntMethod
    cnt_method, double threshold, HXMethod hc_method)] *)
Definition getHeavyChanger_records (g : GndTruth)
  (records_1 records_2 : list PacketRecord) (cnt_method : CntMethod)
  (threshold : Double.double) (hc_method : HXMethod)
  : result (GndTruth * list warning) :=
  check_called_once g (fun g =>
    let g := set_called g (called g - 1) in
    let* r1 := getGroundTruth g records_1 cnt_method in
    let g := r1.1 in
    let '(m, tot, spurious_len) :=
      fold_left (diff_step cnt_method) records_2
        (my_map g, tot_value g, false) in
    let st := fold_left flip_step (left_order m) (m, tot) in
    let save := st.2 in
    let g := {| my_map := sort_desc st.1; tot_value := 0;
                called := called g |} in
    let* g' := truncate g threshold hc_method save in
    Ok (g', r1.2 ++ report spurious_len false)).

(** [T min() const] and [T max() const]: the values at the back and at
    the front of the right view; calling them on an empty instance is
    undefined behaviour. *)
Definition min (g : GndTruth) : result Z :=
  match last (my_map g) with
  | Some kv => Ok kv.2
  | None => Throw undefined_behaviour
  end.

Definition max (g : GndTruth) : result Z :=
  match head (my_map g) with
  | Some kv => Ok kv.2
  | None => Throw undefined_behaviour
  end.

(** [size_t count(const FlowKey<key_len> &flowkey) const] *)
Definition count (g : GndTruth) (k : Key) : Z :=
  if left_count (my_map g) k then 1 else 0.

(** [T at(const FlowKey<key_len> &flowkey) const] *)
Definition at_ (g : GndTruth) (k : Key) : result Z :=
  if left_count (my_map g) k then Ok (left_at (my_map g) k)
  else Throw out_of_range.

(** *** [Estimation<key_len, T>]: a [GndTruth] filled by hand *)

Definition Estimation : Type := GndTruth.

Definition set_map (e : Estimation) (m : BidirMap) : Estimation :=
  {| my_map := m; tot_value := tot_value e; called := called e |}.

(** [bool insert(const FlowKey<key_len> &flowkey)] *)
Definition insert (e : Estimation) (k : Key) : bool * Estimation :=
  if left_count (my_map e) k then (false, e)
  else (true, set_map e (left_update (my_map e) k (fun _ => 0))).

(** [bool update(const FlowKey<key_len> &flowkey, T val)] *)
Definition update (e : Estimation) (k : Key) (val : Z) : bool * Estimation :=
  let not_existed := negb (left_count (my_map e) k) in
  (not_existed,
   set_map e (left_update (my_map e) k (fun v => wrapT (v + val)))).

(** [T &operator[](const FlowKey<key_len> &flowkey)]: the value behind
    the reference it returns, and the instance. *)
Definition index (e : Estimation) (k : Key) : Z * Estimation :=
  let e :=
    if negb (left_count (my_map e) k)
    then set_map e (left_update (my_map e) k (fun _ => 0)) else e in
  (left_at (my_map e) k, e).

End GndTruth.

End Data.

(** ** [DataFormat] of [src/common/data.h] and [src/impl/data.cpp] *)

Module DataFormat.

(** A [toml::node], as far as the constructor looks at it: a string, an
    integer ([int64_t]), an array, or anything else. *)
#[warnings="-register-all"] Inductive toml : Type :=
| toml_string (s : string)
| toml_integer (n : Z)
| toml_array (a : list toml)
| toml_other.

(** What the functions of [DataFormat] throw: [std::runtime_error], or
    what the code they call throws. *)
Inductive format_exn : Type :=
| runtime_error
| raised (e : exn).

Inductive outcome (A : Type) : Type :=
| Done (a : A)
| Fail (e : format_exn).
Arguments Done {A} a.
Arguments Fail {A} e.

Definition obind {A B : Type} (r : outcome A) (k : A -> outcome B)
  : outcome B :=
  match r with
  | Done a => k a
  | Fail e => Fail e
  end.

Definition lift {A : Type} (r : result A) : outcome A :=
  match r with
  | Ok a => Done a
  | Throw e => Fail (raised e)
  end.

(** [enum { KEYLEN, TIMESTAMP, LENGTH, ENDALL }]; the arrays
    [offset[ENDALL]] and [length[ENDALL]] are indexed by it. *)
Inductive field : Type := KEYLEN | TIMESTAMP | LENGTH.

Definition field_eqb (f g : field) : bool :=
  match f, g with
  | KEYLEN, KEYLEN | TIMESTAMP, TIMESTAMP | LENGTH, LENGTH => true
  | _, _ => false
  end.

Definition set (a : field -> Z) (f : field) (v : Z) : field -> Z :=
  fun g => if field_eqb g f then v else a g.

Record DataFormat : Type := {
  offset : field -> Z;
  length : field -> Z;
  total : Z
}.

(** [int32_t getRecordLength() const] and [int32_t getKeyLength() const] *)
Definition getRecordLength (fmt : DataFormat) : Z := total fmt.
Definition getKeyLength (fmt : DataFormat) : Z := length fmt KEYLEN.

(** The local variables of the constructor. *)
Record parse_state : Type := {
  off : Z;
  st_offset : field -> Z;
  st_length : field -> Z;
  b_flow : bool;
  b_len : bool;
  b_time : bool
}.

(** [off += len] on [int32_t]. *)
Definition advance (off len : Z) : outcome Z :=
  if Int.INT32_MAX <? off + len then Fail (raised undefined_behaviour)
  else Done (off + len).

(** [offset[f] = off; length[f] = len; off += len;], the flag of the
    field being set by the caller. *)
Definition place (st : parse_state) (f : field) (len : Z)
  (b_flow b_len b_time : bool) : outcome parse_state :=
  obind (advance (off st) len) (fun off' =>
  Done {| off := off';
          st_offset := set (st_offset st) f (off st);
          st_length := set (st_length st) f len;
          b_flow := b_flow; b_len := b_len; b_time := b_time |}).

(** The body of the loop over the two arrays of the specification. *)
Definition parse_step (st : parse_state) (name value : toml)
  : outcome parse_state :=
  match name, value with
  | toml_string str, toml_integer n =>
      let len := Int.int32 n in
      if String.eqb str "flowkey" then
        if b_flow st then Fail runtime_error
        else if (len =? 4) || (len =? 8) || (len =? 13)
        then place st KEYLEN len true (b_len st) (b_time st)
        else Fail runtime_error
      else if String.eqb str "timestamp" then
        if b_time st then Fail runtime_error
        else if (len =? 1) || (len =? 2) || (len =? 4) || (len =? 8)
        then place st TIMESTAMP len (b_flow st) (b_len st) true
        else Fail runtime_error
      else if String.eqb str "length" then
        if b_len st then Fail runtime_error
        else if (len =? 1) || (len =? 2) || (len =? 4) || (len =? 8)
        then place st LENGTH len (b_flow st) true (b_time st)
        else Fail runtime_error
      else if String.eqb str "padding" && (len >? 0) then
        obind (advance (off st) len) (fun off' =>
        Done {| off := off'; st_offset := st_offset st;
                st_length := st_length st; b_flow := b_flow st;
                b_len := b_len st; b_time := b_time st |})
      else Fail runtime_error
  | _, _ => Fail runtime_error
  end.

Fixpoint parse_loop (st : parse_state) (names values : list toml)
  : outcome parse_state :=
  match names, values with
  | name :: names, value :: values =>
      obind (parse_step st name value) (fun st' =>
      parse_loop st' names values)
  | _, _ => Done st
  end.

(** [DataFormat(const toml::array &array)]; the arrays hold fewer than
    [2^31] elements. *)
Definition DataFormat_new (array : list toml) : outcome DataFormat :=
  match array with
  | [toml_array ptr0; toml_array ptr1] =>
      if negb (List.length ptr0 =? List.length ptr1)%nat
      then Fail runtime_error
      else
        obind (parse_loop
                 {| off := 0; st_offset := fun _ => -1;
                    st_length := fun _ => -1;
                    b_flow := false; b_len := false; b_time := false |}
                 ptr0 ptr1) (fun st =>
        if negb (b_flow st) then Fail runtime_error
        else Done {| offset := st_offset st; length := st_length st;
                     total := off st |})
  | _ => Fail runtime_error
  end.

(** The number of bytes that the [switch (len)] of [convert] and of
    [my_memset] selects; their parameter is a [const int8_t len]. *)
Definition switch_len (len : Z) : nat :=
  let len := Int.int8 len in
  if len =? 1 then 1%nat
  else if len =? 2 then 2%nat
  else if len =? 4 then 4%nat
  else 8%nat.

(** [convert(ptr, len)]: the integer of [len] bytes at [ptr], unsigned
    for 1, 2 and 4 bytes, an [int64_t] otherwise.  As for [FlowKey],
    integers are read and written through their object representation,
    least significant byte first. *)
Definition convert (ptr : list Z) (len : Z) : result Z :=
  let n := switch_len len in
  if (List.length ptr <? n)%nat then Throw undefined_behaviour
  else
    let v := Util.of_bytes (map Int.uint8 (take n ptr)) in
    Ok (if (n =? 8)%nat then Int.int64 v else v).

(** [my_memset(ptr, value, len)]: the bytes it stores. *)
Definition my_memset (value len : Z) : list Z :=
  FlowKey.int_bytes (switch_len len) value.

(** A write of the bytes [src] at [byte + pos]; the buffer is [byte]. *)
Definition write_at (byte : list Z) (pos : Z) (src : list Z)
  : result (list Z) :=
  if (pos <? 0) || (Z.of_nat (List.length byte) <? pos + Z.of_nat (List.length src))
  then Throw undefined_behaviour
  else Ok (list_inserts (Z.to_nat pos) src byte).

Section Record.
Context {key_len : nat}.

(** [const int8_t *readAsFormat(Record<key_len> &record, const int8_t
    *byte) const]: the record read, and the bytes from the returned
    pointer on. *)
Definition readAsFormat (fmt : DataFormat)
  (record : Data.PacketRecord (key_len := key_len)) (byte : list Z)
  : outcome (Data.PacketRecord (key_len := key_len) * list Z) :=
  if negb (Z.of_nat key_len =? length fmt KEYLEN) then Fail runtime_error
  else
    obind (if 0 <=? offset fmt KEYLEN
           then lift (FlowKey.copy_bytes (Data.flowkey record) 0
                        (drop (Z.to_nat (offset fmt KEYLEN)) byte)
                        (length fmt KEYLEN))
           else Done (Data.flowkey record)) (fun key =>
    obind (if 0 <=? offset fmt TIMESTAMP
           then lift (convert (drop (Z.to_nat (offset fmt TIMESTAMP)) byte)
                        (length fmt TIMESTAMP))
           else Done (Data.timestamp record)) (fun ts =>
    obind (if 0 <=? offset fmt LENGTH
           then lift (convert (drop (Z.to_nat (offset fmt LENGTH)) byte)
                        (length fmt LENGTH))
           else Done (Data.length record)) (fun ln =>
    if (total fmt <? 0) || (Z.of_nat (List.length byte) <? total fmt)
    then Fail (raised undefined_behaviour)
    else
      Done ({| Data.flowkey := key; Data.timestamp := ts;
               Data.length := ln |},
            drop (Z.to_nat (total fmt)) byte)))).

(** [const int8_t *writeAsFormat(const Record<key_len> &record, int8_t
    *byte) const]: the buffer afterwards. *)
Definition writeAsFormat (fmt : DataFormat)
  (record : Data.PacketRecord (key_len := key_len)) (byte : list Z)
  : outcome (list Z) :=
  if negb (Z.of_nat key_len =? length fmt KEYLEN) then Fail runtime_error
  else if total fmt <? 0 then Fail (raised undefined_behaviour)
  else
    obind (lift (write_at byte 0 (replicate (Z.to_nat (total fmt)) 0)))
      (fun byte =>
    obind (if 0 <=? offset fmt KEYLEN
           then lift (write_at byte (offset fmt KEYLEN)
                        (vec_to_list (Data.flowkey record)))
           else Done byte) (fun byte =>
    obind (if 0 <=? offset fmt TIMESTAMP
           then lift (write_at byte (offset fmt TIMESTAMP)
                        (my_memset (Data.timestamp record)
                           (length fmt TIMESTAMP)))
           else Done byte) (fun byte =>
    if 0 <=? offset fmt LENGTH
    then lift (write_at byte (offset fmt LENGTH)
                 (my_memset (Data.length record) (length fmt LENGTH)))
    else Done byte))).

End Record.

End DataFormat.

(** ** [src/sketch/BloomFilter.h] *)

Module Bloom.

Section BloomFilter.

(** Template parameters of [BloomFilter<key_len, hash_t>]. *)
Context {key_len : nat} {hash_t : Type} `{Hash.HashT hash_t}.

Record BloomFilter : Type := {
  nbits : Z;
  num_hash : Z;
  nbytes : Z;
  arr : list Z;
  hash_fns : list hash_t
}.

Definition set_arr (bf : BloomFilter) (a : list Z) : BloomFilter :=
  {| nbits := nbits bf; num_hash := num_hash bf; nbytes := nbytes bf;
     arr := a; hash_fns := hash_fns bf |}.

(** [BYTE(n)] and [BIT(n)] *)
Definition BYTE (n : Z) : Z := Z.shiftr n 3.
Definition BIT (n : Z) : Z := Z.land n 7.

(** [void setBit(int32_t pos) { arr[BYTE(pos)] |= (1 << BIT(pos)); }] *)
Definition setBit (bf : BloomFilter) (pos : Z) : result BloomFilter :=
  let* b := vec_at (arr bf) (BYTE pos) in
  Ok (set_arr bf
        (<[Z.to_nat (BYTE pos) := Int.uint8 (Z.lor b (Z.shiftl 1 (BIT pos)))]>
           (arr bf))).

(** [bool getBit(int32_t pos) const
      { return (arr[BYTE(pos)] >> BIT(pos)) & 1; }] *)
Definition getBit (bf : BloomFilter) (pos : Z) : result bool :=
  let* b := vec_at (arr bf) (BYTE pos) in
  Ok (negb (Z.land (Z.shiftr b (BIT pos)) 1 =? 0)).

(** [int32_t idx = hash_fns[i](flowkey) % nbits;] *)
Definition index_of (bf : BloomFilter) (i : Z)
  (flowkey : FlowKey.FlowKey key_len) : result Z :=
  let* h := vec_at (hash_fns bf) i in
  let n := Int.uint64 (nbits bf) in
  if n =? 0 then Throw undefined_behaviour
  else Ok (Int.int32 (Hash.hash_flowkey h flowkey mod n)).

(** [BloomFilter(int32_t num_bits, int32_t num_hash_class)]; [new_hash i]
    is the default-constructed instance that ends up in [hash_fns[i]]. *)
Definition BloomFilter_new (num_bits num_hash_class : Z)
  (new_hash : nat -> hash_t) : result BloomFilter :=
  let* nbits := Util.NextPrime num_bits in
  let nbytes := Z.shiftr (Int.int32 (nbits + 7)) 3 in
  if num_hash_class <? 0 then Throw bad_array_new_length
  else if nbytes <? 0 then Throw bad_array_new_length
  else
    Ok {| nbits := nbits; num_hash := num_hash_class; nbytes := nbytes;
          arr := replicate (Z.to_nat nbytes) 0;
          hash_fns := map new_hash (seq 0 (Z.to_nat num_hash_class)) |}.

(** [void insert(const FlowKey<key_len> &flowkey)] *)
Definition insert (bf : BloomFilter) (flowkey : FlowKey.FlowKey key_len)
  : result BloomFilter :=
  for_loop (fun i bf =>
              let* idx := index_of bf i flowkey in
              setBit bf idx)
    (upto (num_hash bf)) bf.

(** [bool lookup(const FlowKey<key_len> &flowkey) const] *)
Fixpoint lookup_loop (bf : BloomFilter) (flowkey : FlowKey.FlowKey key_len)
  (idxs : list nat) : result bool :=
  match idxs with
  | [] => Ok true
  | i :: idxs =>
      let* idx := index_of bf (Z.of_nat i) flowkey in
      let* b := getBit bf idx in
      if negb b then Ok false else lookup_loop bf flowkey idxs
  end.

Definition lookup (bf : BloomFilter) (flowkey : FlowKey.FlowKey key_len)
  : result bool :=
  lookup_loop bf flowkey (upto (num_hash bf)).

(** [void clear()] *)
Definition clear (bf : BloomFilter) : BloomFilter :=
  set_arr bf (replicate (Z.to_nat (nbytes bf)) 0).

(** A sequence of [insert] calls. *)
Fixpoint insert_all (bf : BloomFilter)
  (keys : list (FlowKey.FlowKey key_len)) : result BloomFilter :=
  match keys with
  | [] => Ok bf
  | k :: keys => let* bf' := insert bf k in insert_all bf' keys
  end.

End BloomFilter.

End Bloom.

(** ** [src/sketch/CMSketch.h] *)

Module CMSketch.

Section CMSketch.

(** Template parameters of [CMSketch<key_len, T, hash_t>]: [T] is a
    signed integer type of [Tbits] bits. *)
Context {key_len : nat} {hash_t : Type} `{Hash.HashT hash_t}.
Variable Tbits : Z.

Local Abbreviation wrapT := (Int.wrap_signed Tbits).

(** The counters are one block of [depth * width] elements, and
    [counter[i]] points [i * width] elements into it. *)
Record CMSketch : Type := {
  depth : Z;
  width : Z;
  hash_fns : list hash_t;
  counter : list Z
}.

Definition set_counter (s : CMSketch) (c : list Z) : CMSketch :=
  {| depth := depth s; width := width s; hash_fns := hash_fns s;
     counter := c |}.

(** The place of [counter[i][index]] in the block. *)
Definition cell (s : CMSketch) (i index : Z) : Z := i * width s + index.

(** [int32_t index = hash_fns[i](flowkey) % width;] *)
Definition index_of (s : CMSketch) (i : Z)
  (flowkey : FlowKey.FlowKey key_len) : result Z :=
  let* h := vec_at (hash_fns s) i in
  let n := Int.uint64 (width s) in
  if n =? 0 then Throw undefined_behaviour
  else Ok (Int.int32 (Hash.hash_flowkey h flowkey mod n)).

(** [CMSketch(int32_t depth_, int32_t width_)]; [new_hash i] is the
    default-constructed instance that ends up in [hash_fns[i]].  With a
    depth of 0 the constructor writes [counter[0]] past an empty array,
    and [depth * width] is an [int32_t] product. *)
Definition CMSketch_new (depth_ width_ : Z) (new_hash : nat -> hash_t)
  : result CMSketch :=
  let* width := Util.NextPrime width_ in
  if depth_ <? 0 then Throw bad_array_new_length
  else if depth_ =? 0 then Throw undefined_behaviour
  else if Int.INT32_MAX <? depth_ * width then Throw undefined_behaviour
  else
    Ok {| depth := depth_; width := width;
          hash_fns := map new_hash (seq 0 (Z.to_nat depth_));
          counter := replicate (Z.to_nat (depth_ * width)) 0 |}.

(** [void update(const FlowKey<key_len> &flowkey, T val)] *)
Definition update (s : CMSketch) (flowkey : FlowKey.FlowKey key_len)
  (val : Z) : result CMSketch :=
  for_loop (fun i s =>
              let* index := index_of s i flowkey in
              let* c := vec_at (counter s) (cell s i index) in
              Ok (set_counter s
                    (<[Z.to_nat (cell s i index) := wrapT (c + val)]>
                       (counter s))))
    (upto (depth s)) s.

(** [T query(const FlowKey<key_len> &flowkey) const] *)
Definition query (s : CMSketch) (flowkey : FlowKey.FlowKey key_len)
  : result Z :=
  for_loop (fun i min_val =>
              let* index := index_of s i flowkey in
              let* c := vec_at (counter s) (cell s i index) in
              Ok (Z.min min_val c))
    (upto (depth s)) (2 ^ (Tbits - 1) - 1).

(** [void clear()] *)
Definition clear (s : CMSketch) : CMSketch :=
  set_counter s (replicate (Z.to_nat (depth s * width s)) 0).

(** A sequence of [update] calls. *)
Fixpoint update_all (s : CMSketch)
  (ups : list (FlowKey.FlowKey key_len * Z)) : result CMSketch :=
  match ups with
  | [] => Ok s
  | kv :: ups => let* s' := update s kv.1 kv.2 in update_all s' ups
  end.

End CMSketch.

End CMSketch.

(** ** Vocabulary of the properties

    Invariants, closed forms and example inputs that the statements of
    Part II use. *)

Section BloomInvariant.
Context {key_len : nat} {hash_t : Type} `{Hash.HashT hash_t}.
Implicit Types bf : Bloom.BloomFilter (hash_t := hash_t).
Implicit Types k : FlowKey.FlowKey key_len.

(** What the constructor of a Bloom filter establishes and every
    operation keeps. *)
Record bloom_wf bf : Prop := {
  wf_nbits : 0 < Bloom.nbits bf <= Int.INT32_MAX;
  wf_nbytes : Bloom.nbytes bf = Z.shiftr (Bloom.nbits bf + 7) 3;
  wf_arr : Z.of_nat (length (Bloom.arr bf)) = Bloom.nbytes bf;
  wf_hash : Z.of_nat (length (Bloom.hash_fns bf)) = Bloom.num_hash bf
}.

(** Two filters that differ in their bit array only. *)
Definition same_shape bf bf' : Prop :=
  Bloom.nbits bf' = Bloom.nbits bf
  /\ Bloom.num_hash bf' = Bloom.num_hash bf
  /\ Bloom.nbytes bf' = Bloom.nbytes bf
  /\ Bloom.hash_fns bf' = Bloom.hash_fns bf.

(** Every bit that the hash functions assign to the key [k] is set. *)
Definition all_bits_set bf k : Prop :=
  forall i, 0 <= i < Bloom.num_hash bf ->
    exists idx, Bloom.index_of bf i k = Ok idx
                /\ 0 <= idx < Bloom.nbits bf
                /\ Bloom.getBit bf idx = Ok true.

End BloomInvariant.

(** A filter of 11 bits and 3 hash functions. *)
Definition example_filter : Bloom.BloomFilter :=
  Eval vm_compute in
    match Bloom.BloomFilter_new 10 3
            (fun i => Hash.AwareHash_new 7 (3 * Z.of_nat i)) with
    | Ok bf => bf
    | Throw _ =>
        {| Bloom.nbits := 0; Bloom.num_hash := 0; Bloom.nbytes := 0;
           Bloom.arr := []; Bloom.hash_fns := [] |}
    end.

(** The bits of all counters and their status bits, and the bytes of all
    hashing classes. *)
Definition counter_bits (no_cnt width_cnt : list Z) : Z :=
  foldr Z.add 0 (zip_with (fun m w => m * (w + 1)) no_cnt width_cnt).

Definition hash_bytes_total (sizeof_hash_t : Z) (no_hash : list Z) : Z :=
  foldr Z.add 0 (map (Z.mul sizeof_hash_t) no_hash).

Section HierarchyInvariant.
Context {hash_t : Type} `{Hash.HashT hash_t}.
Variable no_layer : Z.
Variable Tbits : Z.
Implicit Types ch : Hierarchy.CounterHierarchy (hash_t := hash_t).

(** [lazy_update[index]] when read, 0 for a missing entry. *)
Fixpoint co_get (m : Hierarchy.CarryOver) (index : Z) : Z :=
  match m with
  | [] => 0
  | kv :: m' => if index =? kv.1 then kv.2 else co_get m' index
  end.

Definition m0 ch : Z := default 0 (Hierarchy.no_cnt ch !! 0%nat).




End HierarchyInvariant.

(** A solver that is never consulted: with no status bit set, or with one
    layer only, [decode] does not reach [solver.solve]. *)
Definition no_solver (rows cols : Z) (A : list (Z * Z))
  (b : list Double.double) : list Double.double := [].

(** Calls on the hierarchy of [test/test_hierarchy.cpp] that stay within
    the 10 bits of the layer-0 counters. *)
Definition example_calls : list Hierarchy.call :=
  [Hierarchy.UpdateCnt 1 5; Hierarchy.UpdateCnt 1 (-2);
   Hierarchy.UpdateCnt 3 1000; Hierarchy.GetCnt 1; Hierarchy.UpdateCnt 3 20].

(** The hierarchy of [test/test_hierarchy.cpp] as its constructor leaves
    it, and after [example_calls]. *)
Definition example_hierarchy : Hierarchy.CounterHierarchy :=
  {| Hierarchy.no_cnt := [7; 5; 3]; Hierarchy.width_cnt := [10; 10; 10];
     Hierarchy.no_hash := [2; 2];
     Hierarchy.hash_fns := [[Hash.gen_hash; Hash.gen_hash];
                            [Hash.gen_hash; Hash.gen_hash]];
     Hierarchy.cnt_array :=
       [replicate 7 {| Util.counter := 0; Util.bits := 10 |};
        replicate 5 {| Util.counter := 0; Util.bits := 10 |};
        replicate 3 {| Util.counter := 0; Util.bits := 10 |}];
     Hierarchy.status_bits :=
       [replicate 7 false; replicate 5 false; replicate 3 false];
     Hierarchy.original_cnt := replicate 7 0;
     Hierarchy.decoded_cnt := replicate 7 Double.zero;
     Hierarchy.lazy_update := [] |}.

Definition example_after : Hierarchy.CounterHierarchy :=
  Eval vm_compute in
    default example_hierarchy
      (Hierarchy.run_quiet 3 32 no_solver example_calls example_hierarchy).



(** The arguments that pass the validity check of the constructor of a
    hierarchy of [no_layer] layers over a [T] of [Tbits] bits. *)
Definition valid_arguments (no_layer Tbits : Z)
  (no_cnt width_cnt no_hash : list Z) : Prop :=
  1 <= no_layer
  /\ Z.of_nat (length no_cnt) = no_layer
  /\ Z.of_nat (length width_cnt) = no_layer
  /\ Z.of_nat (length no_hash) = no_layer - 1
  /\ Forall (fun m => m <> 0) no_cnt
  /\ Forall (fun w => w <> 0) width_cnt
  /\ Forall (fun h => h <> 0) no_hash
  /\ foldr Z.add 0 width_cnt <= Tbits.

(** [example_after] once counter 3 has been read, and once it has been
    cleared after that read. *)
Definition example_read : Hierarchy.CounterHierarchy :=
  Eval vm_compute in
    match Hierarchy.getCnt 3 32 no_solver example_after 3 with
    | Ok r => r.2
    | Throw _ => example_after
    end.

Definition example_cleared : Hierarchy.CounterHierarchy :=
  Eval vm_compute in
    match Hierarchy.clear 32 example_read with
    | Ok ch => ch
    | Throw _ => example_read
    end.



(** The ten records of [test/test_data.cpp]. *)
Definition test_records : list (Data.PacketRecord (key_len := 4)) :=
  zip_with (fun kl t =>
              {| Data.flowkey := FlowKey.of_ip kl.1; Data.timestamp := t;
                 Data.length := kl.2 |})
    (zip [0x1F1F1; 0x2F2F2; 0x1F1F1; 0x3F3F3; 0x4F4F4;
          0x1F1F1; 0x2F2F2; 0x3F3F3; 0x5F5F5; 0x1F1F1]
         [0x1; 0x2; 0x4; 0x8; 0x10; 0x20; 0x40; 0x80; 0x100; 0x200])
    [0; 1; 2; 3; 4; 5; 6; 7; 8; 9].

Section FlowSummary.

Context {key_len : nat}.

(** The right view is in descending order of value. *)
Definition descending (m : Data.BidirMap (key_len := key_len)) : Prop :=
  StronglySorted (fun x y => y.2 <= x.2) m.

(** The sum of the values, before any wrap-around. *)
Definition sum_values (m : Data.BidirMap (key_len := key_len)) : Z :=
  foldr (fun kv acc => kv.2 + acc) 0 m.

(** A flow summary, as [getGroundTruth] leaves an instance: no flow key
    occurs twice, the flows are in descending order of value, and the
    total is the sum of the values. *)
Record flow_summary (g : Data.GndTruth (key_len := key_len)) : Prop := {
  summary_keys : NoDup (map fst (Data.my_map g));
  summary_sorted : descending (Data.my_map g);
  summary_total : Data.tot_value g = Int.int64 (sum_values (Data.my_map g))
}.

(** An instance that a call has left as it was. *)
Definition unchanged (g g' : Data.GndTruth (key_len := key_len)) : Prop :=
  Data.my_map g' = Data.my_map g /\ Data.tot_value g' = Data.tot_value g.

End FlowSummary.

Section FlowVolume.

Context {key_len : nat}.

(** What a record counts for: its length, or one packet. *)
Definition record_size (cnt_method : Data.CntMethod)
  (r : Data.PacketRecord (key_len := key_len)) : Z :=
  match cnt_method with
  | Data.InLength => Data.length r
  | Data.InPacket => 1
  end.

(** What the records of flow [k], and what all records, add up to, before
    any wrap-around. *)
Definition flow_volume (cnt_method : Data.CntMethod)
  (records : list (Data.PacketRecord (key_len := key_len)))
  (k : FlowKey.FlowKey key_len) : Z :=
  foldr (fun r acc =>
           if FlowKey.eq (Data.flowkey r) k
           then record_size cnt_method r + acc else acc) 0 records.

Definition total_volume (cnt_method : Data.CntMethod)
  (records : list (Data.PacketRecord (key_len := key_len))) : Z :=
  foldr (fun r acc => record_size cnt_method r + acc) 0 records.

(** A length that [getGroundTruth] warns about. *)
Definition spurious_length (r : Data.PacketRecord (key_len := key_len))
  : bool :=
  (Data.length r <=? 0) || (Data.length r >? 1500).

End FlowVolume.

Section CountMin.

Context {key_len : nat} {hash_t : Type} `{Hash.HashT hash_t}.
Implicit Types s : CMSketch.CMSketch (hash_t := hash_t).

(** What the constructor of a Count-Min sketch establishes and [update]
    keeps. *)
Record cm_wf s : Prop := {
  cm_depth : 0 < CMSketch.depth s;
  cm_width : 0 < CMSketch.width s <= Int.INT32_MAX;
  cm_hash : Z.of_nat (length (CMSketch.hash_fns s)) = CMSketch.depth s;
  cm_counter :
    Z.of_nat (length (CMSketch.counter s))
    = CMSketch.depth s * CMSketch.width s
}.

(** The values added for the key [k] by a sequence of updates. *)
Definition key_sum (ups : list (FlowKey.FlowKey key_len * Z))
  (k : FlowKey.FlowKey key_len) : Z :=
  foldr (fun kv acc => if FlowKey.eq kv.1 k then kv.2 + acc else acc) 0 ups.

(** The column of key [k] in row [i], and the counter of a row and a
    column. *)
Definition row_index s (i : Z) (k : FlowKey.FlowKey key_len) : Z :=
  match CMSketch.hash_fns s !! Z.to_nat i with
  | Some h => Hash.hash_flowkey h k mod CMSketch.width s
  | None => 0
  end.

Definition cell_at s (i j : Z) : Z :=
  default 0 (CMSketch.counter s !! Z.to_nat (CMSketch.cell s i j)).

(** Two sketches that differ in their counters only. *)
Definition cm_same s s' : Prop :=
  CMSketch.depth s' = CMSketch.depth s
  /\ CMSketch.width s' = CMSketch.width s
  /\ CMSketch.hash_fns s' = CMSketch.hash_fns s.

(** What a sequence of updates adds to the counter of row [i] and
    column [j]. *)
Definition cell_sum s (ups : list (FlowKey.FlowKey key_len * Z))
  (i j : Z) : Z :=
  foldr (fun kv acc => if j =? row_index s i kv.1 then kv.2 + acc else acc)
    0 ups.

End CountMin.

(** A Count-Min sketch of 2 rows and 5 columns, and three updates. *)
Definition example_cm : CMSketch.CMSketch :=
  Eval vm_compute in
    match CMSketch.CMSketch_new 2 5
            (fun i => Hash.AwareHash_new 7 (3 * Z.of_nat i)) with
    | Ok s => s
    | Throw _ =>
        {| CMSketch.depth := 0; CMSketch.width := 0;
           CMSketch.hash_fns := []; CMSketch.counter := [] |}
    end.

Definition example_updates : list (FlowKey.FlowKey 4 * Z) :=
  [(FlowKey.of_ip 1, 3); (FlowKey.of_ip 2, 4); (FlowKey.of_ip 1, 5)].

(** *** Record formats *)

(** The lengths that the constructor of [DataFormat] accepts for the
    flow key, and for the time stamp and the length. *)
Definition key_length (l : Z) : Prop := l = 4 \/ l = 8 \/ l = 13.
Definition int_length (l : Z) : Prop := l = 1 \/ l = 2 \/ l = 4 \/ l = 8.

(** A field that is absent, or lies within the first [limit] bytes. *)
Definition field_ok (valid : Z -> Prop) (o l limit : Z) : Prop :=
  (o = -1 /\ l = -1) \/ (0 <= o /\ valid l /\ o + l <= limit).

(** Two fields that do not overlap when both are present. *)
Definition apart (o1 l1 o2 l2 : Z) : Prop :=
  0 <= o1 -> 0 <= o2 -> o1 + l1 <= o2 \/ o2 + l2 <= o1.

(** The layout of a format: the flow key is present, every field that
    is present lies within the record, and no two fields overlap. *)
Record layout_ok (fmt : DataFormat.DataFormat) : Prop := {
  lay_total : 0 <= DataFormat.total fmt <= Int.INT32_MAX;
  lay_key :
    0 <= DataFormat.offset fmt DataFormat.KEYLEN
    /\ key_length (DataFormat.length fmt DataFormat.KEYLEN)
    /\ DataFormat.offset fmt DataFormat.KEYLEN
       + DataFormat.length fmt DataFormat.KEYLEN <= DataFormat.total fmt;
  lay_time :
    field_ok int_length (DataFormat.offset fmt DataFormat.TIMESTAMP)
      (DataFormat.length fmt DataFormat.TIMESTAMP) (DataFormat.total fmt);
  lay_len :
    field_ok int_length (DataFormat.offset fmt DataFormat.LENGTH)
      (DataFormat.length fmt DataFormat.LENGTH) (DataFormat.total fmt);
  lay_key_time :
    apart (DataFormat.offset fmt DataFormat.KEYLEN)
      (DataFormat.length fmt DataFormat.KEYLEN)
      (DataFormat.offset fmt DataFormat.TIMESTAMP)
      (DataFormat.length fmt DataFormat.TIMESTAMP);
  lay_key_len :
    apart (DataFormat.offset fmt DataFormat.KEYLEN)
      (DataFormat.length fmt DataFormat.KEYLEN)
      (DataFormat.offset fmt DataFormat.LENGTH)
      (DataFormat.length fmt DataFormat.LENGTH);
  lay_time_len :
    apart (DataFormat.offset fmt DataFormat.TIMESTAMP)
      (DataFormat.length fmt DataFormat.TIMESTAMP)
      (DataFormat.offset fmt DataFormat.LENGTH)
      (DataFormat.length fmt DataFormat.LENGTH)
}.

(** The same of the local variables of the constructor, with the flags
    telling which fields are present. *)
Record state_ok (st : DataFormat.parse_state) : Prop := {
  sok_off : 0 <= DataFormat.off st <= Int.INT32_MAX;
  sok_key :
    field_ok key_length (DataFormat.st_offset st DataFormat.KEYLEN)
      (DataFormat.st_length st DataFormat.KEYLEN) (DataFormat.off st);
  sok_time :
    field_ok int_length (DataFormat.st_offset st DataFormat.TIMESTAMP)
      (DataFormat.st_length st DataFormat.TIMESTAMP) (DataFormat.off st);
  sok_len :
    field_ok int_length (DataFormat.st_offset st DataFormat.LENGTH)
      (DataFormat.st_length st DataFormat.LENGTH) (DataFormat.off st);
  sok_flow :
    DataFormat.b_flow st = true
    <-> 0 <= DataFormat.st_offset st DataFormat.KEYLEN;
  sok_b_time :
    DataFormat.b_time st = true
    <-> 0 <= DataFormat.st_offset st DataFormat.TIMESTAMP;
  sok_b_len :
    DataFormat.b_len st = true
    <-> 0 <= DataFormat.st_offset st DataFormat.LENGTH;
  sok_key_time :
    apart (DataFormat.st_offset st DataFormat.KEYLEN)
      (DataFormat.st_length st DataFormat.KEYLEN)
      (DataFormat.st_offset st DataFormat.TIMESTAMP)
      (DataFormat.st_length st DataFormat.TIMESTAMP);
  sok_key_len :
    apart (DataFormat.st_offset st DataFormat.KEYLEN)
      (DataFormat.st_length st DataFormat.KEYLEN)
      (DataFormat.st_offset st DataFormat.LENGTH)
      (DataFormat.st_length st DataFormat.LENGTH);
  sok_time_len :
    apart (DataFormat.st_offset st DataFormat.TIMESTAMP)
      (DataFormat.st_length st DataFormat.TIMESTAMP)
      (DataFormat.st_offset st DataFormat.LENGTH)
      (DataFormat.st_length st DataFormat.LENGTH)
}.

(** The lengths of a specification, as the constructor reads them. *)
Definition spec_length (value : DataFormat.toml) : Z :=
  match value with
  | DataFormat.toml_integer n => Int.int32 n
  | _ => 0
  end.

(** What a field of [len] bytes gives back of the value written to it. *)
Definition stored (len v : Z) : Z :=
  if len =? 8 then Int.int64 v else v mod 2 ^ (8 * len).

(** A field written when it is present. *)
Definition put (b : list Z) (o : Z) (src : list Z) : list Z :=
  if 0 <=? o then list_inserts (Z.to_nat o) src b else b.

(** The format of [test/test_data.cpp]: a record of 16 bytes. *)
Definition test_format_spec : list DataFormat.toml :=
  [DataFormat.toml_array
     [DataFormat.toml_string "flowkey"; DataFormat.toml_string "length";
      DataFormat.toml_string "padding"; DataFormat.toml_string "timestamp";
      DataFormat.toml_string "padding"];
   DataFormat.toml_array
     [DataFormat.toml_integer 8; DataFormat.toml_integer 4;
      DataFormat.toml_integer 1; DataFormat.toml_integer 2;
      DataFormat.toml_integer 1]].

Definition test_format : DataFormat.DataFormat :=
  {| DataFormat.offset :=
       DataFormat.set
         (DataFormat.set (DataFormat.set (fun _ => -1) DataFormat.KEYLEN 0)
            DataFormat.LENGTH 8)
         DataFormat.TIMESTAMP 13;
     DataFormat.length :=
       DataFormat.set
         (DataFormat.set (DataFormat.set (fun _ => -1) DataFormat.KEYLEN 8)
            DataFormat.LENGTH 4)
         DataFormat.TIMESTAMP 2;
     DataFormat.total := 16 |}.

(** A record to write in [test_format], whose time stamp does not fit
    the two bytes of its field, and a blank record to read into. *)
Definition format_record : Data.PacketRecord (key_len := 8) :=
  {| Data.flowkey := [# 1; 2; 3; 4; -5; 6; 7; 8];
     Data.timestamp := 70000; Data.length := 1500 |}.

Definition blank_record : Data.PacketRecord (key_len := 8) :=
  {| Data.flowkey := FlowKey.zero_key 8; Data.timestamp := 0;
     Data.length := 0 |}.

(** The byte-counting ground truth of [test_records], for [T = int64_t]. *)
Definition test_ground_truth : Data.GndTruth (key_len := 4) :=
  Eval vm_compute in
    match Data.getGroundTruth 64 Data.empty test_records Data.InLength with
    | Ok r => r.1
    | Throw _ => Data.empty
    end.

Section Changes.

Context {key_len : nat}.
Variable Tbits : Z.
Variable left_order :
  Data.BidirMap (key_len := key_len) -> Data.BidirMap (key_len := key_len).

(** [std::abs(mine - other)], stored in a [T]. *)
Definition abs_diff (a b : Z) : Z :=
  Int.wrap_signed Tbits (Z.abs (Int.wrap_signed Tbits (a - b))).

(** The value of a flow after [operator-=], from its values on either
    side. *)
Definition change_of (oa ob : option Z) : option Z :=
  match oa, ob with
  | Some a, Some b => Some (abs_diff a b)
  | Some a, None => Some a
  | None, Some b => Some b
  | None, None => None
  end.

(** All the differences between two flow summaries, in descending
    order: the map of [A -= B]. *)
Definition differences (A B : Data.GndTruth (key_len := key_len))
  : Data.BidirMap (key_len := key_len) :=
  Data.my_map (Data.sub_assign Tbits left_order A B).

(** No flow left out of [kept] carries the value of a flow in it. *)
Definition no_tie (kept all : Data.BidirMap (key_len := key_len)) : Prop :=
  forall kv kv', kv ∈ kept -> kv' ∈ all -> kv' ∉ kept -> kv'.2 < kv.2.

End Changes.

(** The packet-counting ground truth of [test_records], and the two
    heaviest changers between it and the byte-counting one. *)
Definition test_packet_truth : Data.GndTruth (key_len := 4) :=
  Eval vm_compute in
    match Data.getGroundTruth 64 Data.empty test_records Data.InPacket with
    | Ok r => r.1
    | Throw _ => Data.empty
    end.

Definition test_changer : Data.GndTruth (key_len := 4) :=
  Eval vm_compute in
    match Data.getHeavyChanger 64 id Data.empty test_ground_truth
            test_packet_truth (Double.of_Z 2) Data.TopK with
    | Ok r => r.1
    | Throw _ => Data.empty
    end.

(** Two summaries of one flow each, of the same value. *)
Definition tie_A : Data.GndTruth (key_len := 4) :=
  {| Data.my_map := [(FlowKey.of_ip 1, 5)]; Data.tot_value := 5;
     Data.called := 1 |}.

Definition tie_B : Data.GndTruth (key_len := 4) :=
  {| Data.my_map := [(FlowKey.of_ip 2, 5)]; Data.tot_value := 5;
     Data.called := 1 |}.

(** The number of rounds [Util.NextPrime_rounds fuel] runs when none of
    them ends the loop. *)
Fixpoint NextPrime_rounds_count (fuel : positive) : Z :=
  match fuel with
  | xH => 1
  | xO fuel | xI fuel => 2 * NextPrime_rounds_count fuel
  end.

(** A key whose bytes are [int8_t] values. *)
Definition key_valid {key_len} (k : FlowKey.FlowKey key_len) : Prop :=
  Forall (fun b => -128 <= b <= 127) (vec_to_list k).

(** The values of an [int8_t]. *)
Definition int8_values : list Z := map (fun i => Z.of_nat i - 128) (seq 0 256).

Section BloomBits.
Context {key_len : nat} {hash_t : Type} `{Hash.HashT hash_t}.

(** Whether [q] is one of the bit positions the hash functions of the
    filter assign to the key [k]. *)
Definition hits (bf : Bloom.BloomFilter (hash_t := hash_t))
  (k : FlowKey.FlowKey key_len) (q : Z) : bool :=
  existsb (fun i => match Bloom.index_of bf (Z.of_nat i) k with
                    | Ok idx => idx =? q
                    | Throw _ => false
                    end)
    (upto (Bloom.num_hash bf)).

End BloomBits.

(** * Part II: properties *)

(** ** Fixed-width integers *)

Lemma pow2_split bits : 0 < bits -> 2 ^ bits = 2 * 2 ^ (bits - 1).
Proof.
  intros Hb. replace bits with (Z.succ (bits - 1)) at 1 by lia.
  rewrite Z.pow_succ_r by lia. reflexivity.
Qed.

Lemma wrap_signed_small bits x :
  0 < bits -> - 2 ^ (bits - 1) <= x < 2 ^ (bits - 1) ->
  Int.wrap_signed bits x = x.
Proof.
  intros Hb Hx. unfold Int.wrap_signed.
  rewrite Z.mod_small; [lia|]. rewrite (pow2_split bits Hb). lia.
Qed.

Lemma wrap_signed_range bits x :
  0 < bits ->
  - 2 ^ (bits - 1) <= Int.wrap_signed bits x < 2 ^ (bits - 1).
Proof.
  intros Hb. unfold Int.wrap_signed.
  assert (Hpos : 0 < 2 ^ bits) by (apply Z.pow_pos_nonneg; lia).
  pose proof (Z.mod_pos_bound (x + 2 ^ (bits - 1)) (2 ^ bits) Hpos).
  rewrite (pow2_split bits Hb) in *. lia.
Qed.

(** Wrapping is a congruence for addition: the stored value of a sum only
    depends on the stored values of the summands. *)
Lemma wrap_signed_add_l bits x y :
  Int.wrap_signed bits (Int.wrap_signed bits x + y)
  = Int.wrap_signed bits (x + y).
Proof.
  unfold Int.wrap_signed. f_equal.
  replace ((x + 2 ^ (bits - 1)) mod 2 ^ bits - 2 ^ (bits - 1) + y
           + 2 ^ (bits - 1))
    with ((x + 2 ^ (bits - 1)) mod 2 ^ bits + y) by lia.
  rewrite Zplus_mod_idemp_l. f_equal. lia.
Qed.

Lemma wrap_signed_add_r bits x y :
  Int.wrap_signed bits (x + Int.wrap_signed bits y)
  = Int.wrap_signed bits (x + y).
Proof.
  rewrite (Z.add_comm x), wrap_signed_add_l. f_equal. lia.
Qed.

Lemma wrap_signed_idemp bits x :
  Int.wrap_signed bits (Int.wrap_signed bits x) = Int.wrap_signed bits x.
Proof.
  pose proof (wrap_signed_add_l bits x 0) as E.
  rewrite !Z.add_0_r in E. exact E.
Qed.

(** Powers of two around the width [w] of a packed counter held in a type
    of [Tbits] bits. *)
Lemma width_bounds Tbits w :
  0 < w < Tbits - 1 ->
  0 < 2 ^ w /\ 2 * 2 ^ w <= 2 ^ (Tbits - 1)
  /\ 2 ^ (Tbits - 1) = 2 * 2 ^ (Tbits - 2).
Proof.
  intros Hw. split; [apply Z.pow_pos_nonneg; lia|]. split.
  - rewrite (pow2_split (Tbits - 1)) by lia.
    assert (2 ^ w <= 2 ^ (Tbits - 1 - 1)) by (apply Z.pow_le_mono_r; lia).
    lia.
  - rewrite (pow2_split (Tbits - 1)) by lia. do 2 f_equal. lia.
Qed.

(** ** [Util::DynamicIntX] *)

Lemma DynamicIntX_constant Tbits w :
  0 < w < Tbits - 1 -> Int.wrap_signed Tbits (Z.shiftl 1 w) = 2 ^ w.
Proof.
  intros Hw. destruct (width_bounds Tbits w Hw) as (H1 & H2 & H3).
  rewrite Z.shiftl_1_l. apply wrap_signed_small; lia.
Qed.

Lemma DynamicIntX_bound Tbits w :
  0 < w < Tbits - 1 ->
  Int.wrap_signed Tbits (Int.wrap_signed Tbits (Z.shiftl 1 (Tbits - 2)) - 1)
  = 2 ^ (Tbits - 2) - 1.
Proof.
  intros Hw. destruct (width_bounds Tbits w Hw) as (H1 & H2 & H3).
  assert (0 < 2 ^ (Tbits - 2)) by (apply Z.pow_pos_nonneg; lia).
  rewrite Z.shiftl_1_l.
  rewrite (wrap_signed_small _ (2 ^ (Tbits - 2))) by lia.
  apply wrap_signed_small; lia.
Qed.

Lemma DynamicIntX_mask Tbits w x :
  0 < w < Tbits - 1 ->
  Z.land x (Int.wrap_signed Tbits (2 ^ w - 1)) = x mod 2 ^ w.
Proof.
  intros Hw. destruct (width_bounds Tbits w Hw) as (H1 & H2 & H3).
  rewrite wrap_signed_small by lia.
  replace (2 ^ w - 1) with (Z.ones w) by (rewrite Z.ones_equiv; lia).
  apply Z.land_ones. lia.
Qed.

(** The non-negative branch of [operator+], in closed form. *)
Lemma DynamicIntX_add_nonneg Tbits w r D :
  0 < w < Tbits - 1 -> 0 <= r < 2 ^ w -> 0 <= D <= 2 ^ (Tbits - 2) - 1 ->
  Util.add Tbits {| Util.counter := r; Util.bits := w |} D
  = Ok (D / 2 ^ w + (r + D mod 2 ^ w) / 2 ^ w,
        {| Util.counter := (r + D) mod 2 ^ w; Util.bits := w |}).
Proof.
  intros Hw Hr HD. destruct (width_bounds Tbits w Hw) as (H1 & H2 & H3).
  unfold Util.add, Util.wrapT. cbn [Util.counter Util.bits].
  rewrite DynamicIntX_bound with (w := w) by done.
  rewrite DynamicIntX_constant by done.
  rewrite !DynamicIntX_mask by done.
  destruct (Z.leb_spec 0 D); [|lia].
  destruct (Z.ltb_spec (2 ^ (Tbits - 2) - 1) D); [lia|].
  pose proof (Z.mod_pos_bound D (2 ^ w) H1) as Hm.
  assert (Hq : 0 <= D / 2 ^ w <= D).
  { split; [apply Z.div_pos; lia|].
    apply Z.div_le_upper_bound; [lia|]. nia. }
  assert (Hs : 0 <= (r + D mod 2 ^ w) / 2 ^ w <= 1).
  { split; [apply Z.div_pos; lia|].
    apply Z.lt_succ_r. apply Z.div_lt_upper_bound; lia. }
  rewrite (wrap_signed_small Tbits (r + D mod 2 ^ w)) by lia.
  rewrite Z.shiftr_div_pow2 by lia.
  rewrite Z.rem_mod_nonneg, Z.quot_div_nonneg by lia.
  rewrite (wrap_signed_small Tbits) by lia.
  rewrite Zplus_mod_idemp_r. reflexivity.
Qed.

(** The negative branch of [operator+], in closed form. *)
Lemma DynamicIntX_add_neg Tbits w r D :
  0 < w < Tbits - 1 -> 0 <= r < 2 ^ w ->
  - (2 ^ (Tbits - 2) - 1) <= D < 0 ->
  Util.add Tbits {| Util.counter := r; Util.bits := w |} D
  = Ok (- ((- D) / 2 ^ w + 1 - (2 ^ w + r - (- D) mod 2 ^ w) / 2 ^ w),
        {| Util.counter := (2 ^ w + r - (- D) mod 2 ^ w) mod 2 ^ w;
           Util.bits := w |}).
Proof.
  intros Hw Hr HD. destruct (width_bounds Tbits w Hw) as (H1 & H2 & H3).
  unfold Util.add, Util.wrapT. cbn [Util.counter Util.bits].
  rewrite DynamicIntX_bound with (w := w) by done.
  rewrite DynamicIntX_constant by done.
  rewrite (wrap_signed_small Tbits (- D)) by lia.
  rewrite !DynamicIntX_mask by done.
  destruct (Z.leb_spec 0 D); [lia|].
  pose proof (Z.mod_pos_bound (- D) (2 ^ w) H1) as Hm.
  assert (Hq : 0 <= (- D) / 2 ^ w <= - D).
  { split; [apply Z.div_pos; lia|].
    apply Z.div_le_upper_bound; [lia|]. nia. }
  assert (Hs : 0 <= (2 ^ w + r - (- D) mod 2 ^ w) / 2 ^ w <= 1).
  { split; [apply Z.div_pos; lia|].
    apply Z.lt_succ_r. apply Z.div_lt_upper_bound; lia. }
  rewrite (wrap_signed_small Tbits (- (2 ^ (Tbits - 2) - 1))) by lia.
  destruct (Z.ltb_spec D (- (2 ^ (Tbits - 2) - 1))); [lia|].
  rewrite (wrap_signed_small Tbits (2 ^ w + r)) by lia.
  rewrite (wrap_signed_small Tbits (2 ^ w + r - (- D) mod 2 ^ w)) by lia.
  rewrite Z.shiftr_div_pow2 by lia.
  rewrite Z.rem_mod_nonneg, Z.quot_div_nonneg by lia.
  rewrite (wrap_signed_small Tbits (- D / 2 ^ w + 1)) by lia.
  rewrite (wrap_signed_small Tbits
             (- D / 2 ^ w + 1 - (2 ^ w + r - - D mod 2 ^ w) / 2 ^ w)) by lia.
  rewrite (wrap_signed_small Tbits) by lia.
  reflexivity.
Qed.


(** C2.  For a [DynamicIntX<T>] of width [w] holding the residue [r],
    adding a non-negative [D <= 2^(8*sizeof(T)-2) - 1] returns the carry
    [D / 2^w + (r + D mod 2^w) / 2^w] and leaves the residue
    [(r + D) mod 2^w]; and a counter of width 4 that starts at 0 returns 7
    for [add(0x7F)], leaving [0xF], then [0x24] for [add(0x235)], leaving
    [0x4] (here for [T = int32_t] and [T = int64_t]). *)
Theorem DynamicIntX_add_carry_residue Tbits w r D :
  0 < w < Tbits - 1 -> 0 <= r < 2 ^ w -> 0 <= D <= 2 ^ (Tbits - 2) - 1 ->
  Util.add Tbits {| Util.counter := r; Util.bits := w |} D
  = Ok (D / 2 ^ w + (r + D mod 2 ^ w) / 2 ^ w,
        {| Util.counter := (r + D) mod 2 ^ w; Util.bits := w |})
  /\ Forall (fun B =>
       (let* a := Util.DynamicIntX_new B 4 in
        let* r1 := Util.add B a 0x7F in
        let* r2 := Util.add B r1.2 0x235 in
        Ok (Util.getVal a, r1.1, Util.getVal r1.2, r2.1, Util.getVal r2.2))
       = Ok (0, 7, 0xF, 0x24, 0x4)) [32; 64].
Proof.
  intros Hw Hr HD. split.
  - by apply DynamicIntX_add_nonneg.
  - repeat constructor.
Qed.

Lemma DynamicIntX_add_carry_residue_witness :
  Util.add 32 {| Util.counter := 0xF; Util.bits := 4 |} 0x235
  = Ok (0x24, {| Util.counter := 0x4; Util.bits := 4 |}).
Proof.
  exact (proj1 (DynamicIntX_add_carry_residue 32 4 0xF 0x235
                  ltac:(lia) ltac:(lia) ltac:(lia))).
Defined.

(** ** [Util::Mangle] *)

Lemma of_bytes_to_bytes n x :
  Util.of_bytes (Util.to_bytes n x) = x mod 2 ^ (8 * Z.of_nat n).
Proof.
  revert x. induction n as [|n IH]; intros x.
  - cbn. by rewrite Z.mod_1_r.
  - cbn [Util.to_bytes Util.of_bytes]. rewrite IH.
    replace (2 ^ (8 * Z.of_nat (S n))) with (256 * 2 ^ (8 * Z.of_nat n)).
    + rewrite Z.rem_mul_r; [reflexivity|lia|]. apply Z.pow_pos_nonneg; lia.
    + replace (8 * Z.of_nat (S n)) with (8 + 8 * Z.of_nat n) by lia.
      rewrite Z.pow_add_r by lia. reflexivity.
Qed.

(** The loop of [Mangle] swaps every pair of the low half twice: the
    bytes of a 64-bit key come out as they went in. *)
Lemma Mangle_swaps_cancel key :
  fold_left (fun s i => Util.swap s i (Nat.shiftr 8 1 - 1 - i))
    (seq 0 (Nat.shiftr 8 1)) (Util.to_bytes 8 key)
  = Util.to_bytes 8 key.
Proof. reflexivity. Qed.

(** C8 (the code departs from the claim).  For a 64-bit seed, [Mangle]
    multiplies the seed itself by 2083697005 modulo [2^64]: the bytes are
    not reversed.  At the seed 1 the code returns 2083697005, where
    byte-reversing first would give 7854277750134145024. *)
Theorem Mangle_multiplies_unreversed_seed :
  (forall key,
      Util.Mangle 8 key = Int.wrap_unsigned 64 (key * Util.MANGLE_MAGIC))
  /\ Util.Mangle 8 1 = 2083697005
  /\ Util.Mangle_spec 8 1 = 7854277750134145024
  /\ Util.Mangle 8 1 <> Util.Mangle_spec 8 1.
Proof.
  split; [|by vm_compute].
  intros key. unfold Util.Mangle. rewrite Mangle_swaps_cancel.
  rewrite of_bytes_to_bytes. unfold Int.wrap_unsigned.
  change (8 * Z.of_nat 8) with 64.
  rewrite Z.mul_mod_idemp_l by lia. reflexivity.
Qed.

(** ** [FlowKey] *)

Section FlowKeyOrder.
Context {key_len : nat}.
Implicit Types a b : FlowKey.FlowKey key_len.

Lemma eq_loop_spec n i a b :
  FlowKey.eq_loop n i a b = true
  <-> forall j, (i <= j < i + n)%nat -> FlowKey.byte_at a j = FlowKey.byte_at b j.
Proof.
  revert i. induction n as [|n IH]; intros i; cbn [FlowKey.eq_loop].
  - split; [intros _ j Hj; lia|done].
  - destruct (Z.eqb_spec (FlowKey.byte_at a i) (FlowKey.byte_at b i)) as [E|E];
      cbn [negb].
    + rewrite IH. split; intros Hall j Hj.
      * destruct (decide (j = i)) as [->|]; [done|]. apply Hall. lia.
      * apply Hall. lia.
    + split; [done|]. intros Hall. destruct E. apply Hall. lia.
Qed.

(** [operator==] decides equality of keys. *)
Lemma FlowKey_eq_spec a b : FlowKey.eq a b = true <-> a = b.
Proof.
  unfold FlowKey.eq. rewrite eq_loop_spec. split.
  - intros Hall. apply vec_to_list_inj2.
    apply (nth_ext _ _ 0 0).
    + by rewrite !length_vec_to_list.
    + intros j Hj. rewrite length_vec_to_list in Hj. apply Hall. lia.
  - by intros ->.
Qed.

Lemma FlowKey_eq_refl a : FlowKey.eq a a = true.
Proof. by apply FlowKey_eq_spec. Qed.

Lemma lt_loop_spec n i a b :
  FlowKey.lt_loop n i a b = true
  <-> exists k, (i <= k < i + n)%nat
        /\ (forall j, (i <= j < k)%nat ->
                      FlowKey.byte_at a j = FlowKey.byte_at b j)
        /\ FlowKey.byte_at a k < FlowKey.byte_at b k.
Proof.
  revert i. induction n as [|n IH]; intros i; cbn [FlowKey.lt_loop].
  - split; [done|]. intros (k & Hk & _). lia.
  - destruct (Z.ltb_spec (FlowKey.byte_at a i) (FlowKey.byte_at b i)) as [L|L].
    { split; [|done]. intros _. exists i. repeat split; [lia..| |done].
      intros j Hj. lia. }
    destruct (Z.gtb_spec (FlowKey.byte_at a i) (FlowKey.byte_at b i)) as [G|G].
    { split; [done|]. intros (k & Hk & Heq & Hlt).
      destruct (decide (k = i)) as [->|]; [lia|].
      specialize (Heq i ltac:(lia)). lia. }
    rewrite IH. split; intros (k & Hk & Heq & Hlt).
    + exists k. repeat split; [lia..| |done]. intros j Hj.
      destruct (decide (j = i)) as [->|]; [lia|]. apply Heq. lia.
    + destruct (decide (k = i)) as [->|]; [lia|].
      exists k. repeat split; [lia..| |done]. intros j Hj. apply Heq. lia.
Qed.

(** Of [a < b], [a == b] and [b < a], exactly one holds. *)
Lemma lt_loop_trichotomy n i a b :
  exactly_one (FlowKey.lt_loop n i a b) (FlowKey.eq_loop n i a b)
    (FlowKey.lt_loop n i b a).
Proof.
  revert i. induction n as [|n IH]; intros i;
    cbn [FlowKey.lt_loop FlowKey.eq_loop].
  - right; left. done.
  - destruct (Z.lt_total (FlowKey.byte_at a i) (FlowKey.byte_at b i))
      as [L|[E|G]].
    + destruct (Z.ltb_spec (FlowKey.byte_at a i) (FlowKey.byte_at b i)); [|lia].
      destruct (Z.eqb_spec (FlowKey.byte_at a i) (FlowKey.byte_at b i)); [lia|].
      destruct (Z.ltb_spec (FlowKey.byte_at b i) (FlowKey.byte_at a i)); [lia|].
      destruct (Z.gtb_spec (FlowKey.byte_at b i) (FlowKey.byte_at a i)); [|lia].
      left. done.
    + destruct (Z.ltb_spec (FlowKey.byte_at a i) (FlowKey.byte_at b i)); [lia|].
      destruct (Z.gtb_spec (FlowKey.byte_at a i) (FlowKey.byte_at b i)); [lia|].
      destruct (Z.eqb_spec (FlowKey.byte_at a i) (FlowKey.byte_at b i)); [|lia].
      destruct (Z.ltb_spec (FlowKey.byte_at b i) (FlowKey.byte_at a i)); [lia|].
      destruct (Z.gtb_spec (FlowKey.byte_at b i) (FlowKey.byte_at a i)); [lia|].
      cbn [negb]. apply IH.
    + destruct (Z.ltb_spec (FlowKey.byte_at a i) (FlowKey.byte_at b i)); [lia|].
      destruct (Z.gtb_spec (FlowKey.byte_at a i) (FlowKey.byte_at b i)); [|lia].
      destruct (Z.eqb_spec (FlowKey.byte_at a i) (FlowKey.byte_at b i)); [lia|].
      destruct (Z.ltb_spec (FlowKey.byte_at b i) (FlowKey.byte_at a i)); [|lia].
      right; right. done.
Qed.

(** A byte that reads [0x80..0xFF] through [uint8_t] is negative as an
    [int8_t], one that reads [0x00..0x7F] is not. *)
Lemma ubyte_sign a i :
  -128 <= FlowKey.byte_at a i <= 127 ->
  (128 <= FlowKey.ubyte_at a i <= 255 <-> FlowKey.byte_at a i < 0)
  /\ (0 <= FlowKey.ubyte_at a i <= 127 <-> 0 <= FlowKey.byte_at a i).
Proof.
  intros Hr. unfold FlowKey.ubyte_at, Int.uint8, Int.wrap_unsigned.
  change (2 ^ 8) with 256.
  destruct (Z.le_gt_cases 0 (FlowKey.byte_at a i)).
  - rewrite Z.mod_small by lia. lia.
  - rewrite <- (Z.mod_unique (FlowKey.byte_at a i) 256 (-1)
                   (FlowKey.byte_at a i + 256)) by lia.
    lia.
Qed.

(** C10.  [operator<] is the lexicographic order of the keys' bytes read
    as signed 8-bit integers: [a < b] iff at the first position where the
    keys differ the byte of [a], as an [int8_t], is the smaller one.  So a
    key whose first differing byte reads [0x80..0xFF] is smaller than one
    whose byte there reads [0x00..0x7F] (this is not the order of the
    unsigned bytes), and of [a < b], [a == b], [b < a] exactly one
    holds. *)
Theorem FlowKey_lt_signed_lexicographic a b :
  (FlowKey.lt a b = true
   <-> exists i, (i < key_len)%nat
         /\ (forall j, (j < i)%nat -> FlowKey.byte_at a j = FlowKey.byte_at b j)
         /\ FlowKey.byte_at a i < FlowKey.byte_at b i)
  /\ (forall i, (i < key_len)%nat ->
        (forall j, (j < i)%nat -> FlowKey.byte_at a j = FlowKey.byte_at b j) ->
        -128 <= FlowKey.byte_at a i <= 127 ->
        -128 <= FlowKey.byte_at b i <= 127 ->
        0x80 <= FlowKey.ubyte_at a i <= 0xFF ->
        0x00 <= FlowKey.ubyte_at b i <= 0x7F ->
        FlowKey.lt a b = true /\ FlowKey.lt b a = false)
  /\ exactly_one (FlowKey.lt a b) (FlowKey.eq a b) (FlowKey.lt b a).
Proof.
  assert (Hspec : forall a b,
    FlowKey.lt a b = true
    <-> exists i, (i < key_len)%nat
         /\ (forall j, (j < i)%nat -> FlowKey.byte_at a j = FlowKey.byte_at b j)
         /\ FlowKey.byte_at a i < FlowKey.byte_at b i).
  { clear a b. intros a b. unfold FlowKey.lt. rewrite lt_loop_spec.
    split; intros (k & Hk & Heq & Hlt); exists k.
    - split; [lia|]. split; [|done]. intros j Hj. apply Heq. lia.
    - split; [lia|]. split; [|done]. intros j Hj. apply Heq. lia. }
  split; [apply Hspec|]. split; [|apply lt_loop_trichotomy].
  intros i Hi Heq Ha Hb Hua Hub.
  assert (Hlt : FlowKey.lt a b = true).
  { apply Hspec. exists i. repeat split; [done..|].
    apply (ubyte_sign a i) in Ha as [Ha _]. apply (ubyte_sign b i) in Hb as [_ Hb].
    apply Ha in Hua. apply Hb in Hub. lia. }
  split; [done|].
  pose proof (lt_loop_trichotomy key_len 0 a b) as Htri.
  fold (FlowKey.lt a b) (FlowKey.lt b a) (FlowKey.eq a b) in Htri.
  rewrite Hlt in Htri. destruct Htri as [(_ & _ & ?)|[(? & _)|(? & _)]]; done.
Qed.

End FlowKeyOrder.

(** The order at work on two one-tuple keys: [0x80] sorts before [0x7F]. *)
Example FlowKey_lt_example :
  FlowKey.lt (FlowKey.of_ip 0x80) (FlowKey.of_ip 0x7F) = true
  /\ FlowKey.lt (FlowKey.of_ip 0x7F) (FlowKey.of_ip 0x80) = false.
Proof. by vm_compute. Qed.

(** ** Vectors and loops *)

Lemma vec_at_Ok {A} (l : list A) i a :
  vec_at l i = Ok a <-> 0 <= i /\ l !! Z.to_nat i = Some a.
Proof.
  unfold vec_at. destruct (Z.ltb_spec i 0).
  - split; [done|]. lia.
  - destruct (l !! Z.to_nat i); split; try done.
    + intros [= ->]. done.
    + intros [_ [= ->]]. done.
    + intros [_ ?]. done.
Qed.

Lemma vec_at_in_range {A} (l : list A) i :
  0 <= i < Z.of_nat (length l) -> exists a, vec_at l i = Ok a.
Proof.
  intros Hi. destruct (lookup_lt_is_Some_2 l (Z.to_nat i)) as [a Ha]; [lia|].
  exists a. apply vec_at_Ok. split; [lia|done].
Qed.

Lemma vec_at_insert {A} (l : list A) i a :
  0 <= i < Z.of_nat (length l) -> vec_at (<[Z.to_nat i := a]> l) i = Ok a.
Proof.
  intros Hi. apply vec_at_Ok. split; [lia|].
  apply list_lookup_insert_eq. lia.
Qed.

Lemma vec_at_insert_ne {A} (l : list A) i j a :
  0 <= i -> 0 <= j -> i <> j ->
  vec_at (<[Z.to_nat i := a]> l) j = vec_at l j.
Proof.
  intros Hi Hj Hne. unfold vec_at.
  rewrite list_lookup_insert_ne by lia. done.
Qed.

(** ** [BloomFilter] *)

Section BloomFacts.
Context {key_len : nat} {hash_t : Type} `{Hash.HashT hash_t}.
Implicit Types bf : Bloom.BloomFilter (hash_t := hash_t).
Implicit Types k : FlowKey.FlowKey key_len.
Implicit Types keys : list (FlowKey.FlowKey key_len).

Lemma BYTE_BIT_range pos :
  0 <= pos -> 0 <= Bloom.BYTE pos /\ 0 <= Bloom.BIT pos < 8
              /\ pos = 8 * Bloom.BYTE pos + Bloom.BIT pos.
Proof.
  intros Hp. unfold Bloom.BYTE, Bloom.BIT.
  rewrite Z.shiftr_div_pow2 by lia.
  change 7 with (Z.ones 3). rewrite Z.land_ones by lia.
  change (2 ^ 3) with 8.
  pose proof (Z.mod_pos_bound pos 8 ltac:(lia)).
  pose proof (Z.div_mod pos 8 ltac:(lia)).
  assert (0 <= pos / 8) by (apply Z.div_pos; lia). lia.
Qed.

Lemma BYTE_in_array bf pos :
  bloom_wf bf -> 0 <= pos < Bloom.nbits bf ->
  0 <= Bloom.BYTE pos < Z.of_nat (length (Bloom.arr bf)).
Proof.
  intros Hwf Hp. rewrite (wf_arr _ Hwf), (wf_nbytes _ Hwf).
  destruct (BYTE_BIT_range pos) as (H1 & H2 & H3); [lia|].
  rewrite Z.shiftr_div_pow2 by lia. change (2 ^ 3) with 8.
  split; [done|].
  assert (Bloom.BYTE pos + 1 <= (Bloom.nbits bf + 7) / 8)
    by (apply Z.div_le_lower_bound; lia).
  lia.
Qed.

Lemma shifted_bit b j :
  0 <= j -> negb (Z.land (Z.shiftr b j) 1 =? 0) = Z.testbit b j.
Proof.
  intros Hj. change 1 with (Z.ones 1) at 1. rewrite Z.land_ones by lia.
  change (2 ^ 1) with 2. rewrite <- Z.bit0_mod, Z.shiftr_spec by lia.
  rewrite Z.add_0_l. by destruct (Z.testbit b j).
Qed.

Lemma set_bit_in_byte b i j :
  0 <= i < 8 -> 0 <= j < 8 ->
  Z.testbit (Int.uint8 (Z.lor b (Z.shiftl 1 i))) j
  = Z.testbit b j || (i =? j).
Proof.
  intros Hi Hj. unfold Int.uint8, Int.wrap_unsigned.
  rewrite Z.mod_pow2_bits_low by lia.
  rewrite Z.lor_spec, Z.shiftl_1_l, Z.pow2_bits_eqb by lia. done.
Qed.

(** The index a key has under the [i]-th hash function lies in the bit
    array, and depends on the shape of the filter only. *)
Lemma index_of_range bf i k :
  bloom_wf bf -> 0 <= i < Bloom.num_hash bf ->
  exists idx, Bloom.index_of bf i k = Ok idx /\ 0 <= idx < Bloom.nbits bf.
Proof.
  intros Hwf Hi. unfold Bloom.index_of.
  destruct (vec_at_in_range (Bloom.hash_fns bf) i) as [h ->].
  { rewrite (wf_hash _ Hwf). lia. }
  cbn [rbind]. pose proof (wf_nbits _ Hwf) as Hn. unfold Int.INT32_MAX in Hn.
  unfold Int.uint64, Int.wrap_unsigned. rewrite (Z.mod_small (Bloom.nbits bf)) by lia.
  destruct (Z.eqb_spec (Bloom.nbits bf) 0); [lia|].
  pose proof (Z.mod_pos_bound (Hash.hash_flowkey h k) (Bloom.nbits bf)
                ltac:(lia)) as Hm.
  eexists. split; [reflexivity|].
  unfold Int.int32. rewrite wrap_signed_small; [done|lia|].
  change (2 ^ (32 - 1)) with 2147483648. lia.
Qed.

Lemma index_of_same_shape bf bf' i k :
  same_shape bf bf' -> Bloom.index_of bf' i k = Bloom.index_of bf i k.
Proof.
  intros (Hn & _ & _ & Hh). unfold Bloom.index_of. by rewrite Hn, Hh.
Qed.

(** Setting a bit keeps the filter well-formed, sets that bit and clears
    none. *)
Lemma setBit_spec bf pos :
  bloom_wf bf -> 0 <= pos < Bloom.nbits bf ->
  exists bf', Bloom.setBit bf pos = Ok bf'
    /\ bloom_wf bf' /\ same_shape bf bf'
    /\ Bloom.getBit bf' pos = Ok true
    /\ (forall q, 0 <= q < Bloom.nbits bf ->
          Bloom.getBit bf q = Ok true -> Bloom.getBit bf' q = Ok true).
Proof.
  intros Hwf Hp. pose proof (BYTE_in_array bf pos Hwf Hp) as Hbyte.
  destruct (BYTE_BIT_range pos) as (_ & Hbit & _); [lia|].
  unfold Bloom.setBit.
  destruct (vec_at_in_range (Bloom.arr bf) (Bloom.BYTE pos) Hbyte) as [b Hb].
  rewrite Hb. cbn [rbind]. eexists. split; [reflexivity|].
  split; [|split; [done|split]].
  - destruct Hwf. constructor; cbn; try done. by rewrite length_insert.
  - unfold Bloom.getBit. cbn [Bloom.arr Bloom.set_arr].
    rewrite vec_at_insert by done. cbn [rbind].
    rewrite shifted_bit, set_bit_in_byte by lia.
    rewrite Z.eqb_refl. by rewrite orb_true_r.
  - intros q Hq. unfold Bloom.getBit. cbn [Bloom.arr Bloom.set_arr].
    destruct (BYTE_BIT_range q) as (Hq1 & Hq2 & _); [lia|].
    destruct (decide (Bloom.BYTE pos = Bloom.BYTE q)) as [E|E].
    + rewrite <- E, Hb, vec_at_insert by done. cbn [rbind].
      rewrite !shifted_bit, set_bit_in_byte by lia.
      intros [= ->]. done.
    + rewrite vec_at_insert_ne by lia. done.
Qed.

(** The loop of [insert], over any of the hash functions' positions. *)
Lemma insert_loop_spec bf k idxs :
  bloom_wf bf ->
  (forall i, i ∈ idxs -> 0 <= Z.of_nat i < Bloom.num_hash bf) ->
  exists bf',
    for_loop (fun i bf => let* idx := Bloom.index_of bf i k in Bloom.setBit bf idx)
      idxs bf = Ok bf'
    /\ bloom_wf bf' /\ same_shape bf bf'
    /\ (forall q, 0 <= q < Bloom.nbits bf ->
          Bloom.getBit bf q = Ok true -> Bloom.getBit bf' q = Ok true)
    /\ (forall i, i ∈ idxs ->
          exists idx, Bloom.index_of bf (Z.of_nat i) k = Ok idx
                      /\ Bloom.getBit bf' idx = Ok true).
Proof.
  revert bf. induction idxs as [|i idxs IH]; intros bf Hwf Hidx.
  - exists bf. cbn. split; [done|]. split; [done|].
    split; [by repeat split|]. split; [done|].
    intros i Hi. by inversion Hi.
  - cbn [for_loop].
    destruct (index_of_range bf (Z.of_nat i) k Hwf) as (idx & Hidx_eq & Hr).
    { apply Hidx. left. }
    rewrite Hidx_eq. cbn [rbind].
    destruct (setBit_spec bf idx Hwf Hr) as (bf1 & -> & Hwf1 & Hs1 & Hset & Hmono).
    cbn [rbind].
    destruct (IH bf1 Hwf1) as (bf' & -> & Hwf' & Hs' & Hmono' & Hall).
    { intros j Hj. destruct Hs1 as (_ & -> & _). apply Hidx. by right. }
    exists bf'. split; [done|]. split; [done|].
    assert (Hn1 : Bloom.nbits bf1 = Bloom.nbits bf) by apply Hs1.
    split; [|split].
    + destruct Hs1 as (? & ? & ? & ?), Hs' as (? & ? & ? & ?).
      repeat split; congruence.
    + intros q Hq Hb. apply Hmono'; [lia|]. by apply Hmono.
    + intros j Hj. apply elem_of_cons in Hj as [->|Hj].
      * exists idx. split; [done|]. apply Hmono'; [lia|done].
      * destruct (Hall j Hj) as (idx' & Hi' & Hb').
        exists idx'. split; [|done]. by rewrite <- (index_of_same_shape bf bf1).
Qed.

Lemma insert_spec bf k :
  bloom_wf bf ->
  exists bf', Bloom.insert bf k = Ok bf'
    /\ bloom_wf bf' /\ same_shape bf bf'
    /\ (forall q, 0 <= q < Bloom.nbits bf ->
          Bloom.getBit bf q = Ok true -> Bloom.getBit bf' q = Ok true)
    /\ (forall i, 0 <= i < Bloom.num_hash bf ->
          exists idx, Bloom.index_of bf i k = Ok idx
                      /\ Bloom.getBit bf' idx = Ok true).
Proof.
  intros Hwf. unfold Bloom.insert.
  destruct (insert_loop_spec bf k (upto (Bloom.num_hash bf)) Hwf)
    as (bf' & Hrun & Hwf' & Hs & Hmono & Hall).
  { intros i Hi. apply elem_of_seq in Hi. lia. }
  exists bf'. split; [done|]. split; [done|]. split; [done|]. split; [done|].
  intros i Hi. destruct (Hall (Z.to_nat i)) as (idx & Hidx & Hb).
  { apply elem_of_seq. lia. }
  exists idx. rewrite Z2Nat.id in Hidx by lia. done.
Qed.

(** A key all of whose bits are set is looked up successfully. *)
Lemma lookup_loop_true bf k idxs :
  (forall i, i ∈ idxs ->
     exists idx, Bloom.index_of bf (Z.of_nat i) k = Ok idx
                 /\ Bloom.getBit bf idx = Ok true) ->
  Bloom.lookup_loop bf k idxs = Ok true.
Proof.
  induction idxs as [|i idxs IH]; intros Hall; cbn [Bloom.lookup_loop].
  - done.
  - destruct (Hall i) as (idx & -> & Hb); [left|].
    cbn [rbind]. rewrite Hb. cbn [rbind negb].
    apply IH. intros j Hj. apply Hall. by right.
Qed.

Lemma lookup_all_bits_set bf k :
  all_bits_set bf k -> Bloom.lookup bf k = Ok true.
Proof.
  intros Hall. apply lookup_loop_true. intros i Hi.
  apply elem_of_seq in Hi.
  destruct (Hall (Z.of_nat i)) as (idx & ? & _ & ?); [lia|]. by exists idx.
Qed.

(** Further insertions keep a key's bits set. *)
Lemma insert_all_keeps bf keys k :
  bloom_wf bf -> all_bits_set bf k ->
  exists bf', Bloom.insert_all bf keys = Ok bf'
              /\ bloom_wf bf' /\ all_bits_set bf' k.
Proof.
  revert bf. induction keys as [|k0 keys IH]; intros bf Hwf Hset.
  - by exists bf.
  - cbn [Bloom.insert_all].
    destruct (insert_spec bf k0 Hwf) as (bf1 & -> & Hwf1 & Hs & Hmono & _).
    cbn [rbind]. apply IH; [done|].
    intros i Hi. destruct Hs as (Hn & Hh & _ & Hf).
    destruct (Hset i) as (idx & Hidx & Hr & Hb); [lia|].
    exists idx. split; [|split].
    + unfold Bloom.index_of in *. by rewrite Hn, Hf.
    + lia.
    + by apply Hmono.
Qed.

(** C5.  A Bloom filter has no false negatives: after any sequence of
    [insert] calls on a filter (with no [clear] in between), [lookup]
    returns [true] for every key that was inserted in the sequence. *)
Theorem BloomFilter_no_false_negative bf keys k :
  bloom_wf bf -> k ∈ keys ->
  exists bf', Bloom.insert_all bf keys = Ok bf' /\ Bloom.lookup bf' k = Ok true.
Proof.
  revert bf. induction keys as [|k0 keys IH]; intros bf Hwf Hin.
  - by inversion Hin.
  - cbn [Bloom.insert_all].
    destruct (insert_spec bf k0 Hwf) as (bf1 & -> & Hwf1 & Hs & Hmono & Hall).
    cbn [rbind]. apply elem_of_cons in Hin as [->|Hin].
    + destruct (insert_all_keeps bf1 keys k0 Hwf1) as (bf' & -> & _ & Hset).
      * intros i Hi. destruct Hs as (Hn & Hh & _ & Hf).
        destruct (Hall i) as (idx & Hidx & Hb); [lia|].
        destruct (index_of_range bf i k0 Hwf) as (idx' & Hidx' & Hr); [lia|].
        assert (idx' = idx) as -> by congruence.
        exists idx. split; [|split; [lia|done]].
        unfold Bloom.index_of in *. by rewrite Hn, Hf.
      * exists bf'. split; [done|]. by apply lookup_all_bits_set.
    + by apply IH.
Qed.

(** The constructor builds a well-formed filter, and [clear] keeps it
    so. *)
Lemma NextPrime_rounds_range fuel n :
  n <= Int.INT32_MAX ->
  match Util.NextPrime_rounds fuel n with
  | inl (Ok r) => 0 < r <= Int.INT32_MAX
  | inl (Throw _) => True
  | inr n' => n' <= Int.INT32_MAX
  end.
Proof.
  revert n. induction fuel as [fuel IH|fuel IH|]; intros n Hn;
    cbn [Util.NextPrime_rounds].
  - pose proof (IH n Hn) as IHn.
    destruct (Util.NextPrime_rounds fuel n) as [[r'|e]|n']; [done..|].
    by apply IH.
  - pose proof (IH n Hn) as IHn.
    destruct (Util.NextPrime_rounds fuel n) as [[r'|e]|n']; [done..|].
    by apply IH.
  - unfold Util.NextPrime_round, Util.IsPrime.
    destruct (Z.leb_spec n 0); [done|].
    destruct (Z.land n 1 =? 0).
    + destruct (n =? 2); [lia|].
      destruct (Z.eqb_spec n Int.INT32_MAX); [done|lia].
    + destruct (Util.IsPrime_loop _ n 3); [lia|].
      destruct (Z.eqb_spec n Int.INT32_MAX); [done|lia].
Qed.

Lemma BloomFilter_new_wf num_bits num_hash_class new_hash bf :
  num_bits <= Int.INT32_MAX ->
  Bloom.BloomFilter_new num_bits num_hash_class new_hash = Ok bf ->
  bloom_wf bf.
Proof.
  intros Hn. unfold Bloom.BloomFilter_new, Util.NextPrime.
  pose proof (NextPrime_rounds_range (2 ^ 31)%positive num_bits Hn) as Hr.
  destruct (Util.NextPrime_rounds _ num_bits) as [[p|e]|n']; [|done..].
  cbn [rbind]. unfold Int.INT32_MAX in Hr.
  destruct (Z.ltb_spec num_hash_class 0); [done|].
  destruct (Z.ltb_spec (Z.shiftr (Int.int32 (p + 7)) 3) 0) as [|Hb]; [done|].
  intros [= <-].
  assert (Hw : Int.int32 (p + 7) = p + 7).
  { destruct (Z.le_gt_cases (p + 7) 2147483647) as [|Hbig].
    - apply wrap_signed_small; [lia|]. change (2 ^ (32 - 1)) with 2147483648. lia.
    - exfalso. revert Hb. unfold Int.int32, Int.wrap_signed.
      change (2 ^ (32 - 1)) with 2147483648. change (2 ^ 32) with 4294967296.
      rewrite <- (Z.mod_unique (p + 7 + 2147483648) 4294967296 1 (p + 7 - 2147483648))
        by lia.
      rewrite Z.shiftr_div_pow2 by lia. change (2 ^ 3) with 8.
      assert ((p + 7 - 2147483648 - 2147483648) / 8 < 0)
        by (apply Z.div_lt_upper_bound; lia).
      lia. }
  rewrite Hw in *.
  constructor; cbn.
  - unfold Int.INT32_MAX. lia.
  - done.
  - rewrite length_replicate. lia.
  - rewrite length_map, length_seq. lia.
Qed.


End BloomFacts.

(** The theorem at work: a filter of 11 bits and 3 hash functions, two
    keys inserted, the second one looked up. *)
Lemma BloomFilter_no_false_negative_witness :
  exists bf',
    Bloom.insert_all example_filter [FlowKey.of_ip 5; FlowKey.of_ip 77] = Ok bf'
    /\ Bloom.lookup bf' (FlowKey.of_ip 77) = Ok true.
Proof.
  apply (BloomFilter_no_false_negative example_filter
           [FlowKey.of_ip 5; FlowKey.of_ip 77] (FlowKey.of_ip 77)).
  - apply (BloomFilter_new_wf 10 3
             (fun i => Hash.AwareHash_new 7 (3 * Z.of_nat i))).
    + by vm_compute.
    + by vm_compute.
  - apply list_elem_of_further, list_elem_of_here.
Defined.

(** ** [CounterHierarchy::size] *)

Lemma counter_bits_nonneg no_cnt width_cnt :
  Forall (fun m => 0 <= m) no_cnt -> Forall (fun w => 0 <= w) width_cnt ->
  0 <= counter_bits no_cnt width_cnt.
Proof.
  intros Hm. revert width_cnt. induction Hm as [|m no_cnt Hm0 Hm IH];
    intros width_cnt Hw; [done|].
  destruct Hw as [|w width_cnt Hw0 Hw]; [done|].
  unfold counter_bits in *. cbn. specialize (IH _ Hw). nia.
Qed.

Lemma hash_bytes_total_nonneg sz no_hash :
  0 <= sz -> Forall (fun h => 0 <= h) no_hash ->
  0 <= hash_bytes_total sz no_hash.
Proof.
  intros Hsz Hh. induction Hh as [|h no_hash Hh0 Hh IH]; [done|].
  unfold hash_bytes_total in *. cbn. nia.
Qed.

Lemma size_t_small x : 0 <= x < 2 ^ 64 -> Int.size_t x = x.
Proof. intros Hx. unfold Int.size_t, Int.wrap_unsigned. by apply Z.mod_small. Qed.

Lemma size_bits_loop no_cnt width_cnt n s acc :
  Forall (fun m => 0 <= m) no_cnt -> Forall (fun w => 0 <= w) width_cnt ->
  (s + n <= length no_cnt)%nat -> (s + n <= length width_cnt)%nat ->
  0 <= acc ->
  acc + counter_bits (take n (drop s no_cnt)) (take n (drop s width_cnt)) < 2 ^ 64 ->
  for_loop (fun i tot =>
              let* m := vec_at no_cnt i in
              let* w := vec_at width_cnt i in
              let tot := Int.size_t (tot + Int.size_t (m * w)) in
              Ok (Int.size_t (tot + m)))
    (seq s n) acc
  = Ok (acc + counter_bits (take n (drop s no_cnt)) (take n (drop s width_cnt))).
Proof.
  intros Hm Hw. revert s acc. induction n as [|n IH]; intros s acc Hs1 Hs2 Hacc Hfit.
  - cbn [seq for_loop take]. unfold counter_bits. cbn [zip_with foldr].
    by rewrite Z.add_0_r.
  - cbn [seq for_loop].
    destruct (lookup_lt_is_Some_2 no_cnt s) as [m Hms]; [lia|].
    destruct (lookup_lt_is_Some_2 width_cnt s) as [w Hws]; [lia|].
    rewrite (drop_S _ _ _ Hms), (drop_S _ _ _ Hws) in *.
    assert (Hm0 : 0 <= m) by (eapply Forall_lookup_1 in Hm; eauto).
    assert (Hw0 : 0 <= w) by (eapply Forall_lookup_1 in Hw; eauto).
    assert (Hrest : 0 <= counter_bits (take n (drop (S s) no_cnt))
                            (take n (drop (S s) width_cnt))).
    { apply counter_bits_nonneg; by apply Forall_take, Forall_drop. }
    cbn [take] in *. unfold counter_bits in Hfit |- *. cbn [zip_with foldr] in *.
    fold (counter_bits (take n (drop (S s) no_cnt)) (take n (drop (S s) width_cnt))) in *.
    assert (E1 : vec_at no_cnt (Z.of_nat s) = Ok m).
    { apply vec_at_Ok. rewrite Nat2Z.id. split; [lia|done]. }
    assert (E2 : vec_at width_cnt (Z.of_nat s) = Ok w).
    { apply vec_at_Ok. rewrite Nat2Z.id. split; [lia|done]. }
    rewrite E1, E2. cbn [rbind].
    assert (0 <= m * w) by nia.
    assert (m * (w + 1) = m * w + m) as Emw by ring.
    rewrite Emw in *.
    rewrite (size_t_small (m * w)) by lia.
    rewrite (size_t_small (acc + m * w)) by lia.
    rewrite (size_t_small (acc + m * w + m)) by lia.
    rewrite IH by lia. f_equal. lia.
Qed.

Lemma size_hash_loop sz no_hash n s acc :
  0 <= sz -> Forall (fun h => 0 <= h) no_hash ->
  (s + n <= length no_hash)%nat ->
  0 <= acc ->
  acc + hash_bytes_total sz (take n (drop s no_hash)) < 2 ^ 64 ->
  for_loop (fun i tot =>
              let* h := vec_at no_hash i in
              Ok (Int.size_t (tot + Int.size_t (sz * h))))
    (seq s n) acc
  = Ok (acc + hash_bytes_total sz (take n (drop s no_hash))).
Proof.
  intros Hsz Hh. revert s acc. induction n as [|n IH]; intros s acc Hs Hacc Hfit.
  - cbn [seq for_loop take]. unfold hash_bytes_total. cbn [map foldr].
    by rewrite Z.add_0_r.
  - cbn [seq for_loop].
    destruct (lookup_lt_is_Some_2 no_hash s) as [h Hhs]; [lia|].
    rewrite (drop_S _ _ _ Hhs) in *.
    assert (Hh0 : 0 <= h) by (eapply Forall_lookup_1 in Hh; eauto).
    assert (Hrest : 0 <= hash_bytes_total sz (take n (drop (S s) no_hash))).
    { apply hash_bytes_total_nonneg; [done|]. by apply Forall_take, Forall_drop. }
    cbn [take] in *. unfold hash_bytes_total in Hfit |- *. cbn [map foldr] in *.
    fold (hash_bytes_total sz (take n (drop (S s) no_hash))) in *.
    assert (E : vec_at no_hash (Z.of_nat s) = Ok h).
    { apply vec_at_Ok. rewrite Nat2Z.id. split; [lia|done]. }
    rewrite E. cbn [rbind].
    assert (0 <= sz * h) by nia.
    rewrite (size_t_small (sz * h)) by lia.
    rewrite (size_t_small (acc + sz * h)) by lia.
    rewrite IH by lia. f_equal. lia.
Qed.

Section HierarchyFacts.
Context {hash_t : Type} `{Hash.HashT hash_t}.
Variable no_layer : Z.
Variable Tbits : Z.
Implicit Types ch : Hierarchy.CounterHierarchy (hash_t := hash_t).

(** What a successful construction tells about the parameters and the
    fields. *)
Lemma new_counters_inv no_cnt width_cnt cnts :
  length no_cnt = length width_cnt ->
  Hierarchy.new_counters Tbits no_cnt width_cnt = Ok cnts ->
  cnts = zip_with (fun m w =>
                     replicate (Z.to_nat m) {| Util.counter := 0; Util.bits := w |})
           no_cnt width_cnt
  /\ Forall (fun w => w <> 0 /\ w < Int.size_t (Tbits - 1)) width_cnt.
Proof.
  revert width_cnt cnts. induction no_cnt as [|m no_cnt IH];
    intros [|w width_cnt] cnts Hlen; try done; cbn [Hierarchy.new_counters].
  - intros [= <-]. done.
  - unfold Util.DynamicIntX_new.
    destruct (Z.eqb_spec w 0); [done|].
    destruct (Z.leb_spec (Int.size_t (Tbits - 1)) w); [done|].
    cbn [orb rbind].
    destruct (Hierarchy.new_counters Tbits no_cnt width_cnt) as [rest|] eqn:E;
      [|done].
    cbn [rbind]. intros [= <-].
    destruct (IH width_cnt rest) as [-> Hall]; [by injection Hlen|done|].
    split; [done|]. constructor; [lia|done].
Qed.

Lemma CounterHierarchy_new_inv no_cnt width_cnt no_hash new_hash ch :
  Hierarchy.CounterHierarchy_new no_layer Tbits no_cnt width_cnt no_hash new_hash
  = Ok ch ->
  1 <= no_layer
  /\ Z.of_nat (length no_cnt) = no_layer
  /\ Z.of_nat (length width_cnt) = no_layer
  /\ Z.of_nat (length no_hash) = no_layer - 1
  /\ Forall (fun m => m <> 0) no_cnt
  /\ Forall (fun w => w <> 0 /\ w < Int.size_t (Tbits - 1)) width_cnt
  /\ ch = {| Hierarchy.no_cnt := no_cnt; Hierarchy.width_cnt := width_cnt;
             Hierarchy.no_hash := no_hash;
             Hierarchy.hash_fns :=
               imap (fun layer n => map (new_hash layer) (seq 0 (Z.to_nat n)))
                 no_hash;
             Hierarchy.cnt_array :=
               zip_with (fun m w =>
                           replicate (Z.to_nat m)
                             {| Util.counter := 0; Util.bits := w |})
                 no_cnt width_cnt;
             Hierarchy.status_bits :=
               map (fun m => replicate (Z.to_nat m) false) no_cnt;
             Hierarchy.original_cnt := replicate (Z.to_nat (nth 0 no_cnt 0)) 0;
             Hierarchy.decoded_cnt :=
               replicate (Z.to_nat (nth 0 no_cnt 0)) Double.zero;
             Hierarchy.lazy_update := [] |}.
Proof.
  unfold Hierarchy.CounterHierarchy_new.
  destruct (Z.ltb_spec no_layer 1); [done|].
  destruct (Z.eqb_spec (Z.of_nat (length no_cnt)) no_layer); [|done].
  destruct (Z.eqb_spec (Z.of_nat (length width_cnt)) no_layer); [|done].
  destruct (Z.eqb_spec (Z.of_nat (length no_hash)) (no_layer - 1)); [|done].
  cbn [negb].
  destruct (existsb (Z.eqb 0) no_cnt) eqn:E0; [done|].
  destruct (existsb (Z.eqb 0) width_cnt); [done|].
  destruct (existsb (Z.eqb 0) no_hash); [done|].
  destruct (Hierarchy.check_widths Tbits width_cnt); [|done].
  cbn [rbind].
  destruct (Hierarchy.new_counters Tbits no_cnt width_cnt) as [cnts|] eqn:E;
    [|done].
  cbn [rbind]. intros [= <-].
  apply new_counters_inv in E as [-> Hw]; [|lia].
  repeat split; try done.
  apply Forall_forall. intros m Hm Hz. subst m.
  apply not_true_iff_false in E0. apply E0.
  apply existsb_exists. exists 0. split; [|done]. by apply list_elem_of_In.
Qed.

(** C7 (amended).  [size()] is the sum over the layers of
    [m_i * (w_i + 1)] bits, rounded DOWN to whole bytes, plus the sum of
    [h_i * sizeof(hash_t)] bytes, whenever these sums fit [size_t]. *)
Theorem CounterHierarchy_size_rounds_down sizeof_hash_t
  no_cnt width_cnt no_hash new_hash ch :
  Hierarchy.CounterHierarchy_new no_layer Tbits no_cnt width_cnt no_hash new_hash
  = Ok ch ->
  Forall (fun m => 0 <= m) no_cnt ->
  Forall (fun w => 0 <= w) width_cnt ->
  Forall (fun h => 0 <= h) no_hash ->
  0 <= sizeof_hash_t ->
  counter_bits no_cnt width_cnt < 2 ^ 64 ->
  counter_bits no_cnt width_cnt / 8 + hash_bytes_total sizeof_hash_t no_hash
  < 2 ^ 64 ->
  Hierarchy.size no_layer sizeof_hash_t ch
  = Ok (counter_bits no_cnt width_cnt / 8
        + hash_bytes_total sizeof_hash_t no_hash).
Proof.
  intros Hnew Hm Hw Hh Hsz Hbits Hfit.
  apply CounterHierarchy_new_inv in Hnew
    as (Hn & Hl1 & Hl2 & Hl3 & _ & _ & ->).
  unfold Hierarchy.size, upto.
  cbn [Hierarchy.no_cnt Hierarchy.width_cnt Hierarchy.no_hash].
  pose proof (counter_bits_nonneg no_cnt width_cnt Hm Hw) as Hb0.
  rewrite size_bits_loop; try done; try lia;
    rewrite ?drop_0, ?take_ge by lia; try lia.
  cbn [rbind]. rewrite Z.add_0_l, Z.shiftr_div_pow2 by lia.
  change (2 ^ 3) with 8.
  assert (0 <= counter_bits no_cnt width_cnt / 8) by (apply Z.div_pos; lia).
  rewrite size_hash_loop; try done; try lia;
    rewrite ?drop_0, ?take_ge by lia; try lia.
  done.
Qed.

End HierarchyFacts.

(** The hierarchy of [test/test_hierarchy.cpp]: 165 bits of counters and
    status bits, 4 hashing classes (of 24 bytes each, as [AwareHash]). *)
Lemma CounterHierarchy_size_rounds_down_witness :
  Hierarchy.size 3 24
    {| Hierarchy.no_cnt := [7; 5; 3]; Hierarchy.width_cnt := [10; 10; 10];
       Hierarchy.no_hash := [2; 2];
       Hierarchy.hash_fns := [[Hash.gen_hash; Hash.gen_hash];
                              [Hash.gen_hash; Hash.gen_hash]];
       Hierarchy.cnt_array :=
         [replicate 7 {| Util.counter := 0; Util.bits := 10 |};
          replicate 5 {| Util.counter := 0; Util.bits := 10 |};
          replicate 3 {| Util.counter := 0; Util.bits := 10 |}];
       Hierarchy.status_bits :=
         [replicate 7 false; replicate 5 false; replicate 3 false];
       Hierarchy.original_cnt := replicate 7 0;
       Hierarchy.decoded_cnt := replicate 7 Double.zero;
       Hierarchy.lazy_update := [] |}
  = Ok (165 / 8 + 96).
Proof.
  apply (CounterHierarchy_size_rounds_down 3 32 24 [7; 5; 3] [10; 10; 10] [2; 2]
           (fun _ _ => Hash.gen_hash)).
  - reflexivity.
  - repeat constructor; lia.
  - repeat constructor; lia.
  - repeat constructor; lia.
  - lia.
  - by vm_compute.
  - by vm_compute.
Defined.

(** Rounded up, the 165 bits of that hierarchy would make 21 bytes and
    a size of 117; [size()] returns 116. *)
Lemma CounterHierarchy_size_rounds_up_counterexample :
  exists ch,
    Hierarchy.CounterHierarchy_new 3 32 [7; 5; 3] [10; 10; 10] [2; 2]
      (fun _ _ => Hash.gen_hash) = Ok ch
    /\ Hierarchy.size 3 24 ch = Ok 116
    /\ (counter_bits [7; 5; 3] [10; 10; 10] + 7) / 8
        + hash_bytes_total 24 [2; 2] = 117.
Proof. eexists. split; [reflexivity|]. by vm_compute. Qed.

(** ** Binary64: integers below [2^53] convert exactly *)

Lemma digits2_pos_size m : digits2_pos m = Pos.size m.
Proof. induction m as [m IH|m IH|]; cbn; by rewrite ?IH. Qed.

Lemma digits2_pos_log2 m : Z.pos (digits2_pos m) = Z.log2 (Z.pos m) + 1.
Proof.
  rewrite digits2_pos_size. destruct m as [m|m|]; cbn [Z.log2 Pos.size]; lia.
Qed.

Lemma iter_xO_digits m p :
  Z.pos (digits2_pos (Pos.iter xO m p)) = Z.pos (digits2_pos m) + Z.pos p.
Proof.
  induction p as [|p IH] using Pos.peano_ind.
  - cbn. lia.
  - rewrite Pos.iter_succ. cbn [digits2_pos]. lia.
Qed.

Lemma iter_xO_value m p : Z.pos (Pos.iter xO m p) = Z.pos m * 2 ^ Z.pos p.
Proof.
  induction p as [|p IH] using Pos.peano_ind.
  - cbn. lia.
  - rewrite Pos.iter_succ, Pos2Z.inj_xO, IH, Pos2Z.inj_succ.
    rewrite Z.pow_succ_r by lia. lia.
Qed.

(** A mantissa of 53 digits with an exponent in range is already
    rounded. *)
Lemma binary_round_aux_canonical s m e :
  Z.pos (digits2_pos m) = 53 -> -1074 <= e <= 971 ->
  binary_round_aux Double.prec Double.emax s (Z.pos m) e loc_Exact
  = S754_finite s m e.
Proof.
  intros Hd He. unfold binary_round_aux, shr_fexp, Zdigits2, fexp, emin.
  unfold Double.prec, Double.emax. rewrite Hd.
  replace (Z.max (53 + e - 53) (3 - 1024 - 53) - e) with 0 by lia.
  cbn [shr shr_record_of_loc loc_of_shr_record shr_m round_nearest_even].
  rewrite Hd.
  replace (Z.max (53 + e - 53) (3 - 1024 - 53) - e) with 0 by lia.
  cbn [shr shr_m].
  destruct (Z.leb_spec e (1024 - 53)); [done|lia].
Qed.

Lemma of_Z_pos_exact m :
  Z.pos m < 2 ^ 53 ->
  exists m' e, Double.of_Z (Z.pos m) = S754_finite false m' e
               /\ e <= 0 /\ Z.pos m' = Z.pos m * 2 ^ (- e).
Proof.
  intros Hm. unfold Double.of_Z, binary_normalize, binary_round.
  assert (Hd : 1 <= Z.pos (digits2_pos m) <= 53).
  { rewrite digits2_pos_log2.
    pose proof (Z.log2_nonneg (Z.pos m)).
    assert (Z.log2 (Z.pos m) < 53) by (apply Z.log2_lt_pow2; lia). lia. }
  unfold fexp at 1, emin, Double.prec, Double.emax, shl_align.
  replace (Z.max (Z.pos (digits2_pos m) + 0 - 53) (3 - 1024 - 53) - 0)
    with (Z.pos (digits2_pos m) - 53) by lia.
  replace (Z.max (Z.pos (digits2_pos m) + 0 - 53) (3 - 1024 - 53))
    with (Z.pos (digits2_pos m) - 53) by lia.
  destruct (Z.pos (digits2_pos m) - 53) as [|p|p] eqn:E; [|lia|].
  - exists m, 0. split; [|split; [lia|cbn; lia]].
    apply (binary_round_aux_canonical false m 0); lia.
  - exists (Pos.iter xO m p), (Z.neg p). split; [|split; [lia|]].
    + apply (binary_round_aux_canonical false); [|lia].
      rewrite iter_xO_digits. lia.
    + rewrite iter_xO_value. done.
Qed.

(** [static_cast<T>(static_cast<double>(z)) == z] for [0 <= z < 2^53]. *)
Lemma trunc_of_Z z : 0 <= z < 2 ^ 53 -> Double.trunc (Double.of_Z z) = Some z.
Proof.
  intros Hz. destruct z as [|m|m]; [done| |lia].
  destruct (of_Z_pos_exact m) as (m' & e & -> & He & Hm'); [lia|].
  cbn [Double.trunc]. destruct (Z.leb_spec 0 e).
  - replace e with 0 in * by lia. cbn in Hm'. f_equal. lia.
  - rewrite Hm', Z.div_mul; [done|]. apply Z.pow_nonzero; lia.
Qed.

Lemma to_signed_of_Z bits z :
  0 <= z < 2 ^ 53 -> z < 2 ^ (bits - 1) ->
  Double.to_signed bits (Double.of_Z z) = Ok z.
Proof.
  intros Hz Hb. unfold Double.to_signed, Double.to_int.
  rewrite trunc_of_Z by done.
  destruct (Z.leb_spec (- 2 ^ (bits - 1)) z); [|lia].
  destruct (Z.leb_spec z (2 ^ (bits - 1) - 1)); [done|lia].
Qed.

(** ** [CounterHierarchy]: reads without carry return the shadow value *)

Section HierarchyQuiet.
Context {hash_t : Type} `{Hash.HashT hash_t}.
Variable no_layer : Z.
Variable Tbits : Z.
Variable lscg_solve :
  Z -> Z -> list (Z * Z) -> list Double.double -> list Double.double.
Implicit Types ch : Hierarchy.CounterHierarchy (hash_t := hash_t).

Lemma co_get_below (m : Hierarchy.CarryOver) index :
  Forall (fun k => index < k) (map fst m) -> co_get m index = 0.
Proof.
  induction m as [|[k v] m IH]; [done|]. cbn. intros Hall.
  apply Forall_cons in Hall as [Hk Hall].
  destruct (Z.eqb_spec index k); [lia|]. by apply IH.
Qed.

Lemma co_get_add (m : Hierarchy.CarryOver) k v j :
  StronglySorted Z.lt (map fst m) ->
  co_get (Hierarchy.co_add Tbits m k v) j
  = if j =? k then Util.wrapT Tbits (co_get m k + v) else co_get m j.
Proof.
  induction m as [|[k' v'] m IH]; intros Hs.
  - cbn. destruct (Z.eqb_spec j k); done.
  - cbn [Hierarchy.co_add]. apply StronglySorted_inv in Hs as [Hs Hk'].
    cbn [map fst] in *.
    destruct (Z.ltb_spec k k').
    { cbn [co_get fst snd]. destruct (Z.eqb_spec k k'); [lia|].
      rewrite (co_get_below m k).
      - destruct (Z.eqb_spec j k); [done|]. done.
      - eapply Forall_impl; [exact Hk'|]. cbn. intros; lia. }
    destruct (Z.eqb_spec k k') as [->|].
    { cbn [co_get fst snd]. rewrite Z.eqb_refl.
      destruct (Z.eqb_spec j k'); done. }
    cbn [co_get fst snd]. rewrite IH by done.
    destruct (Z.eqb_spec k k'); [lia|].
    destruct (Z.eqb_spec j k'), (Z.eqb_spec j k); try done. lia.
Qed.

Lemma co_add_keys (m : Hierarchy.CarryOver) k v (P : Z -> Prop) :
  P k -> Forall P (map fst m) -> Forall P (map fst (Hierarchy.co_add Tbits m k v)).
Proof.
  intros Hk. induction m as [|[k' v'] m IH]; intros Hall.
  - cbn. by constructor.
  - cbn [Hierarchy.co_add]. apply Forall_cons in Hall as [Hk' Hall].
    destruct (k <? k'); [by repeat constructor|].
    destruct (k =? k'); [by constructor|].
    cbn. constructor; [done|]. by apply IH.
Qed.

Lemma co_add_sorted (m : Hierarchy.CarryOver) k v :
  StronglySorted Z.lt (map fst m) ->
  StronglySorted Z.lt (map fst (Hierarchy.co_add Tbits m k v)).
Proof.
  induction m as [|[k' v'] m IH]; intros Hs.
  - cbn. repeat constructor.
  - cbn [Hierarchy.co_add]. pose proof Hs as Hs0.
    apply StronglySorted_inv in Hs as [Hs Hk']. cbn [map fst] in *.
    destruct (Z.ltb_spec k k').
    { cbn. constructor; [done|]. constructor; [done|].
      eapply Forall_impl; [exact Hk'|]. cbn. intros; lia. }
    destruct (Z.eqb_spec k k') as [->|]; [done|].
    cbn. constructor; [by apply IH|].
    apply co_add_keys; [lia|done].
Qed.



(** Closes [Ok a = vec_at l i] from a lookup in the context. *)
Ltac vec_at_found :=
  symmetry; apply vec_at_Ok; rewrite ?Nat2Z.id; split; [lia|done].




Lemma vec_at_head {A} (x : A) l : vec_at (x :: l) 0 = Ok x.
Proof. reflexivity. Qed.
















Lemma updateCnt_original ch index val ch' j :
  Hierarchy.updateCnt Tbits ch index val = Ok ch' ->
  0 <= j ->
  Hierarchy.getOriginalCnt ch' j
  = (let* o := Hierarchy.getOriginalCnt ch j in
     Ok (if index =? j then Util.wrapT Tbits (o + val) else o)).
Proof.
  unfold Hierarchy.updateCnt, Hierarchy.getOriginalCnt.
  destruct (vec_at (Hierarchy.no_cnt ch) 0) as [m|]; [|done]. cbn [rbind].
  destruct (m <=? index); [done|].
  destruct (vec_at (Hierarchy.original_cnt ch) index) as [o|] eqn:Eo; [|done].
  cbn [rbind]. intros [= <-] Hj. cbn [Hierarchy.original_cnt].
  apply vec_at_Ok in Eo as [Hi Eo].
  destruct (Z.eqb_spec index j) as [->|Hne].
  - rewrite vec_at_insert by (split; [lia|apply lookup_lt_Some in Eo; lia]).
    replace (vec_at (Hierarchy.original_cnt ch) j) with (Ok (A := Z) o)
      by vec_at_found.
    done.
  - rewrite vec_at_insert_ne by lia.
    by destruct (vec_at (Hierarchy.original_cnt ch) j).
Qed.






End HierarchyQuiet.


(** ** Ground truths *)

Section GndTruthFacts.

Context {key_len : nat}.
Variable Tbits : Z.
Variable left_order :
  Data.BidirMap (key_len := key_len) -> Data.BidirMap (key_len := key_len).

Implicit Types g : Data.GndTruth (key_len := key_len).
Implicit Types m l : Data.BidirMap (key_len := key_len).

(** C6.  Once an instance has had one getXXX call ([called >= 1]), every
    further getXXX call -- [getGroundTruth], the overloads of
    [getHeavyHitter], the overloads of [getHeavyChanger] -- returns
    normally, logs the warning of [CHECK_CALLED_ONCE] and leaves the map
    and the total of the instance (and a moved-from argument) as they
    were. *)
Theorem getXXX_called_again_unchanged g :
  1 <= Data.called g ->
  (forall records cnt_method,
      exists g', Data.getGroundTruth Tbits g records cnt_method
                 = Ok (g', [Data.CalledAgain (Data.called g + 1)])
                 /\ unchanged g g')
  /\ (forall flow_summary threshold hh_method,
         exists g', Data.getHeavyHitter Tbits g flow_summary threshold hh_method
                    = Ok (g', [Data.CalledAgain (Data.called g + 1)])
                    /\ unchanged g g')
  /\ (forall flow_summary threshold hh_method,
         exists g', Data.getHeavyHitter_move Tbits left_order g flow_summary
                      threshold hh_method
                    = Ok (g', flow_summary,
                          [Data.CalledAgain (Data.called g + 1)])
                    /\ unchanged g g')
  /\ (forall threshold hh_method,
         exists g', Data.getHeavyHitter_move_self Tbits left_order g
                      threshold hh_method
                    = Ok (g', [Data.CalledAgain (Data.called g + 1)])
                    /\ unchanged g g')
  /\ (forall records cnt_method threshold hh_method,
         exists g', Data.getHeavyHitter_records Tbits left_order g records
                      cnt_method threshold hh_method
                    = Ok (g', [Data.CalledAgain (Data.called g + 1)])
                    /\ unchanged g g')
  /\ (forall flow_summary_1 flow_summary_2 threshold hc_method,
         exists g', Data.getHeavyChanger Tbits left_order g flow_summary_1
                      flow_summary_2 threshold hc_method
                    = Ok (g', [Data.CalledAgain (Data.called g + 1)])
                    /\ unchanged g g')
  /\ (forall flow_summary_1 flow_summary_2 threshold hc_method,
         exists g', Data.getHeavyChanger_move Tbits left_order g
                      flow_summary_1 flow_summary_2 threshold hc_method
                    = Ok (g', flow_summary_1,
                          [Data.CalledAgain (Data.called g + 1)])
                    /\ unchanged g g')
  /\ (forall records_1 records_2 cnt_method threshold hc_method,
         exists g', Data.getHeavyChanger_records Tbits left_order g records_1
                      records_2 cnt_method threshold hc_method
                    = Ok (g', [Data.CalledAgain (Data.called g + 1)])
                    /\ unchanged g g').
Proof.
  intros Hcalled.
  assert (Hgt : (Data.called g + 1 >? 1) = true) by lia.
  repeat split; intros;
    exists (Data.set_called g (Data.called g + 1));
    unfold Data.getGroundTruth, Data.getHeavyHitter, Data.getHeavyHitter_move,
      Data.getHeavyHitter_move_self, Data.getHeavyHitter_records,
      Data.getHeavyChanger, Data.getHeavyChanger_move,
      Data.getHeavyChanger_records, Data.check_called_once;
    cbn [Data.called Data.set_called]; rewrite Hgt; done.
Qed.

(** The first call is counted: an instance that was never called is
    called once after [getGroundTruth]. *)
Lemma getGroundTruth_called g records cnt_method r :
  Data.called g = 0 ->
  Data.getGroundTruth Tbits g records cnt_method = Ok r ->
  Data.called r.1 = 1.
Proof.
  intros H0. unfold Data.getGroundTruth, Data.check_called_once.
  cbn [Data.called Data.set_called]. rewrite H0. cbn.
  destruct (fold_left _ _ _) as [[[m tot] sp] ov]. by intros [= <-].
Qed.

(** *** Membership by key *)

Lemma left_count_spec m (k : FlowKey.FlowKey key_len) :
  Data.left_count m k = true <-> k ∈ map fst m.
Proof.
  unfold Data.left_count. induction m as [|kv m IH]; cbn.
  - split; [done|]. by intros ?%elem_of_nil.
  - rewrite orb_true_iff, IH, FlowKey_eq_spec, elem_of_cons.
    split; intros [->|?]; auto.
Qed.

Lemma left_count_false m (k : FlowKey.FlowKey key_len) :
  Data.left_count m k = false <-> k ∉ map fst m.
Proof.
  rewrite <- left_count_spec. by destruct (Data.left_count m k).
Qed.

Lemma copy_from_fresh g l :
  NoDup (map fst (Data.my_map g ++ l)) ->
  Data.my_map (Data.copy_from g l) = Data.my_map g ++ l
  /\ Data.called (Data.copy_from g l) = Data.called g.
Proof.
  unfold Data.copy_from. revert g. induction l as [|kv l IH]; intros g Hnd; cbn.
  - by rewrite app_nil_r.
  - rewrite map_app in Hnd. cbn in Hnd.
    set (g1 := {| Data.my_map := Data.push_back (Data.my_map g) kv |}).
    assert (Hpush : Data.my_map g1 = Data.my_map g ++ [kv]).
    { subst g1. cbn. unfold Data.push_back.
      apply NoDup_app in Hnd as (_ & Hdis & _).
      destruct (Data.left_count (Data.my_map g) kv.1) eqn:E; [|done].
      apply left_count_spec in E. exfalso. apply (Hdis _ E). left. }
    destruct (IH g1) as [Hm Hc].
    { rewrite Hpush, <- app_assoc, map_app. exact Hnd. }
    rewrite Hm, Hc, Hpush, <- app_assoc. done.
Qed.

(** C4.  For a flow summary of [F] flows and a threshold that is not
    below 1, whose integer part [K] is a value of [size_t], with
    [min(K, F)] within the [int] that counts the flows copied:
    [getHeavyHitter] with [TopK] fills a fresh instance with the first
    [min(K, F)] flows of the summary, and every value it keeps is at least
    the value of every flow it leaves out.  These are the thresholds on
    which the code does what its documentation says; the conversion
    [static_cast<size_t>(threshold)] of a larger one is undefined. *)
Theorem getHeavyHitter_TopK_keeps_largest g fs threshold K :
  Data.my_map g = [] ->
  Data.called g = 0 ->
  flow_summary fs ->
  Double.ltb threshold Double.one = false ->
  Double.to_size_t threshold = Ok K ->
  Z.min K (Data.size fs) <= Int.INT32_MAX ->
  exists r,
    Data.getHeavyHitter Tbits g fs threshold Data.TopK = Ok (r, [])
    /\ Data.size r = Z.min K (Data.size fs)
    /\ Data.my_map r
       = take (Z.to_nat (Z.min K (Data.size fs))) (Data.my_map fs)
    /\ (forall kv kv',
           kv ∈ Data.my_map r ->
           kv' ∈ Data.my_map fs -> kv' ∉ Data.my_map r ->
           kv'.2 <= kv.2).
Proof.
  intros Hempty Hcalled [Hkeys Hsorted _] Hge HK Hint.
  assert (HK0 : 0 <= K).
  { unfold Double.to_size_t, Double.to_int in HK.
    destruct (Double.trunc threshold) as [z|]; [|done].
    destruct (Z.leb_spec 0 z); [|done]. cbn in HK.
    destruct (z <=? 2 ^ 64 - 1); [|done]. injection HK as <-. done. }
  unfold Data.getHeavyHitter, Data.check_called_once.
  cbn [Data.called Data.set_called]. rewrite Hcalled. change (0 + 1) with 1.
  change (1 >? 1) with false. cbn. rewrite Hge, HK. cbn [rbind].
  destruct (Z.ltb_spec Int.INT32_MAX (Z.min (Data.size fs) K)); [lia|].
  set (n := Z.to_nat (Z.min (Data.size fs) K)).
  set (g1 := Data.set_called g 1).
  destruct (copy_from_fresh g1 (take n (Data.my_map fs))) as [Hm _].
  { cbn. rewrite Hempty. cbn. rewrite <- (take_drop n (Data.my_map fs)) in Hkeys.
    rewrite map_app in Hkeys. by apply NoDup_app in Hkeys as (? & _). }
  eexists. split; [reflexivity|].
  cbn in Hm. rewrite Hempty in Hm. cbn in Hm.
  replace (Z.to_nat (Z.min K (Data.size fs))) with n by (subst n; f_equal; lia).
  split; [|split].
  - unfold Data.size. fold g1. rewrite Hm, length_take. subst n.
    unfold Data.size. lia.
  - exact Hm.
  - fold g1. rewrite Hm. intros kv kv' Hin Hfs Hout.
    rewrite <- (take_drop n (Data.my_map fs)) in Hfs, Hsorted.
    apply elem_of_app in Hfs as [?|Hfs]; [done|].
    apply (StronglySorted_app_1_elem_of _ _ _ kv kv' Hsorted Hin Hfs).
Qed.

End GndTruthFacts.

(** The summary of the ten test records, and the two heaviest flows. *)
Lemma getHeavyHitter_TopK_keeps_largest_witness :
  exists r,
    Data.getHeavyHitter 64 Data.empty test_ground_truth (Double.of_Z 2)
      Data.TopK = Ok (r, [])
    /\ Data.size r = Z.min 2 (Data.size test_ground_truth)
    /\ Data.my_map r
       = take (Z.to_nat (Z.min 2 (Data.size test_ground_truth)))
           (Data.my_map test_ground_truth)
    /\ (forall kv kv',
           kv ∈ Data.my_map r ->
           kv' ∈ Data.my_map test_ground_truth -> kv' ∉ Data.my_map r ->
           kv'.2 <= kv.2).
Proof.
  apply (getHeavyHitter_TopK_keeps_largest 64 Data.empty test_ground_truth
           (Double.of_Z 2) 2).
  - reflexivity.
  - reflexivity.
  - split.
    + apply (bool_decide_unpack _). by vm_compute.
    + vm_compute. repeat (constructor; [|repeat constructor; by vm_compute]).
      constructor.
    + by vm_compute.
  - by vm_compute.
  - by vm_compute.
  - by vm_compute.
Defined.

(** A threshold of [2^64] is not below 1, so it is one of the
    thresholds that the documentation of [getHeavyHitter] allows, and
    the five flows of the summary should all be kept.  Its conversion to
    [size_t] is undefined behaviour in C++, which is what the embedding
    reports; a build in which the conversion yields 0 returns an empty
    result. *)
Lemma getHeavyHitter_TopK_huge_threshold_counterexample :
  Double.leb Double.one (Double.of_Z (2 ^ 64)) = true
  /\ Data.getHeavyHitter 64 Data.empty test_ground_truth
       (Double.of_Z (2 ^ 64)) Data.TopK
     = Throw undefined_behaviour.
Proof. by vm_compute. Qed.

Lemma getXXX_called_again_unchanged_witness :
  exists g',
    Data.getHeavyHitter 64 test_ground_truth test_ground_truth
      (Double.of_Z 2) Data.TopK
    = Ok (g', [Data.CalledAgain 2])
    /\ unchanged test_ground_truth g'.
Proof.
  destruct (getXXX_called_again_unchanged 64 id test_ground_truth)
    as (_ & Hhh & _).
  - by vm_compute.
  - apply Hhh.
Defined.

(** C9 (amended).  The byte-counting ground truth of the ten test records
    has total 1023, and its right view begins with flow key [0x1F1F1]
    carrying 549 = 1 + 4 + 32 + 512. *)
Theorem getGroundTruth_test_records :
  exists g,
    Data.getGroundTruth 64 Data.empty test_records Data.InLength = Ok (g, [])
    /\ Data.totalValue g = 1023
    /\ head (Data.my_map g) = Some (FlowKey.of_ip 0x1F1F1, 549)
    /\ Data.my_map g
       = [(FlowKey.of_ip 0x1F1F1, 549); (FlowKey.of_ip 0x5F5F5, 256);
          (FlowKey.of_ip 0x3F3F3, 136); (FlowKey.of_ip 0x2F2F2, 66);
          (FlowKey.of_ip 0x4F4F4, 16)].
Proof. eexists. split; [by vm_compute|]. by vm_compute. Qed.

(** The value that begins the right view is not 545. *)
Lemma getGroundTruth_test_records_counterexample :
  ~ exists g w,
      Data.getGroundTruth 64 Data.empty test_records Data.InLength = Ok (g, w)
      /\ Data.totalValue g = 1023
      /\ head (Data.my_map g) = Some (FlowKey.of_ip 0x1F1F1, 545).
Proof.
  intros (g & w & Hg & _ & Hhd). vm_compute in Hg.
  injection Hg as <- <-. vm_compute in Hhd. discriminate.
Qed.
(** ** Heavy changers *)

Section ChangerFacts.

Context {key_len : nat}.
Variable Tbits : Z.
Variable left_order :
  Data.BidirMap (key_len := key_len) -> Data.BidirMap (key_len := key_len).

Implicit Types g A B : Data.GndTruth (key_len := key_len).
Implicit Types m l : list (FlowKey.FlowKey key_len * Z).
Implicit Types k : FlowKey.FlowKey key_len.

Local Abbreviation to_map :=
  (list_to_map (M := gmap (FlowKey.FlowKey key_len) Z)).

(** *** The stable sort *)

Lemma sort_insert_perm x l : Data.sort_insert x l ≡ₚ x :: l.
Proof.
  induction l as [|y l IH]; cbn; [done|].
  destruct (y.2 <=? x.2); [done|]. rewrite IH. apply Permutation_swap.
Qed.

Lemma sort_desc_perm l : Data.sort_desc l ≡ₚ l.
Proof.
  induction l as [|x l IH]; cbn; [done|]. by rewrite sort_insert_perm, IH.
Qed.

Lemma sort_insert_sorted x l :
  descending l -> descending (Data.sort_insert x l).
Proof.
  unfold descending. induction l as [|y l IH]; cbn; intros Hs.
  - repeat constructor.
  - apply StronglySorted_inv in Hs as [Hs Hall].
    destruct (Z.leb_spec y.2 x.2).
    + constructor; [by constructor|]. constructor; [done|].
      eapply Forall_impl; [exact Hall|]. cbn. lia.
    + constructor; [by apply IH|].
      rewrite sort_insert_perm. constructor; [lia|done].
Qed.

Lemma sort_desc_sorted l : descending (Data.sort_desc l).
Proof.
  induction l as [|x l IH]; cbn; [constructor|]. by apply sort_insert_sorted.
Qed.

(** *** Totals *)

Lemma sum_values_perm l1 l2 : l1 ≡ₚ l2 -> sum_values l1 = sum_values l2.
Proof. unfold sum_values. induction 1; cbn; lia. Qed.

Lemma sum_values_snd l1 l2 :
  map snd l1 = map snd l2 -> sum_values l1 = sum_values l2.
Proof.
  unfold sum_values.
  revert l2. induction l1 as [|x l1 IH]; intros [|y l2]; cbn; try done.
  intros [= Hxy Hl]. rewrite Hxy, (IH l2 Hl). done.
Qed.

Lemma add_values_spec t l :
  Int.int64 t = t -> Data.add_values t l = Int.int64 (t + sum_values l).
Proof.
  unfold Data.add_values, sum_values.
  revert t. induction l as [|kv l IH]; intros t Ht; cbn.
  - by rewrite Z.add_0_r.
  - rewrite IH by apply wrap_signed_idemp.
    unfold Int.int64. rewrite wrap_signed_add_l. f_equal. lia.
Qed.

(** *** The left view as a finite map *)

Lemma left_at_map m k : Data.left_at m k = default 0 (to_map m !! k).
Proof.
  induction m as [|[k1 v1] m IH]; cbn; [done|].
  destruct (FlowKey.eq k1 k) eqn:E.
  - apply FlowKey_eq_spec in E as ->. by rewrite lookup_insert_eq.
  - rewrite lookup_insert_ne; [done|]. intros ->.
    by rewrite FlowKey_eq_refl in E.
Qed.

Lemma left_count_map m k :
  Data.left_count m k = true <-> is_Some (to_map m !! k).
Proof.
  rewrite left_count_spec. split.
  - intros Hin. destruct (to_map m !! k) eqn:E; [done|].
    by apply not_elem_of_list_to_map in E.
  - intros [v Hv] . destruct (decide (k ∈ map fst m)) as [|Hn]; [done|].
    apply (not_elem_of_list_to_map (M := gmap _)) in Hn. congruence.
Qed.

Lemma left_update_map m k f :
  to_map (Data.left_update m k f)
  = <[k := f (Data.left_at m k)]> (to_map m).
Proof.
  induction m as [|[k1 v1] m IH]; cbn; [done|].
  destruct (FlowKey.eq k1 k) eqn:E; cbn.
  - apply FlowKey_eq_spec in E as ->. by rewrite insert_insert_eq.
  - rewrite IH. apply insert_insert_ne. intros ->.
    by rewrite FlowKey_eq_refl in E.
Qed.

Lemma left_update_keys m k f :
  map fst (Data.left_update m k f)
  = if Data.left_count m k then map fst m else map fst m ++ [k].
Proof.
  unfold Data.left_count. induction m as [|[k1 v1] m IH]; cbn; [done|].
  destruct (FlowKey.eq k1 k) eqn:E; cbn; [done|].
  rewrite IH. by destruct (existsb _ m).
Qed.

Lemma left_update_NoDup m k f :
  NoDup (map fst m) -> NoDup (map fst (Data.left_update m k f)).
Proof.
  intros Hnd. rewrite left_update_keys.
  destruct (Data.left_count m k) eqn:E; [done|].
  apply left_count_false in E. apply NoDup_app. split; [done|]. split.
  - intros x Hx ->%list_elem_of_singleton. done.
  - apply NoDup_singleton.
Qed.

Lemma left_update_sum m k f :
  sum_values (Data.left_update m k f)
  = sum_values m - Data.left_at m k + f (Data.left_at m k).
Proof.
  unfold sum_values. induction m as [|[k1 v1] m IH]; cbn; [lia|].
  destruct (FlowKey.eq k1 k); cbn; lia.
Qed.

(** *** [getGroundTruth] builds a flow summary

    For [T = int64_t] the total and the counters wrap alike, so the total
    is the sum of the values whatever the records. *)

Lemma count_step_inv cnt_method (st : Data.BidirMap * Z * bool * bool)
  (r : Data.PacketRecord (key_len := key_len)) :
  NoDup (map fst st.1.1.1) ->
  st.1.1.2 = Int.int64 (sum_values st.1.1.1) ->
  let st' := Data.count_step 64 cnt_method st r in
  NoDup (map fst st'.1.1.1)
  /\ st'.1.1.2 = Int.int64 (sum_values st'.1.1.1).
Proof.
  destruct st as [[[m tot] sp] ov]. cbn [fst snd]. intros Hnd Htot.
  assert (Hstep : forall len,
             Int.int64 (tot + len)
             = Int.int64 (sum_values
                            (Data.left_update m (Data.flowkey r)
                               (fun v => Int.wrap_signed 64 (v + len))))).
  { intros len. rewrite left_update_sum, Htot. unfold Int.int64.
    rewrite wrap_signed_add_l.
    set (a := Data.left_at m (Data.flowkey r)).
    rewrite wrap_signed_add_r. f_equal. lia. }
  destruct cnt_method; cbn [Data.count_step fst snd];
    (split; [by apply left_update_NoDup|apply Hstep]).
Qed.

Lemma getGroundTruth_flow_summary
  (records : list (Data.PacketRecord (key_len := key_len))) cnt_method g w :
  Data.getGroundTruth 64 Data.empty records cnt_method = Ok (g, w) ->
  flow_summary g /\ Data.called g = 1.
Proof.
  unfold Data.getGroundTruth, Data.check_called_once. cbn.
  assert (Hfold : forall (st : Data.BidirMap * Z * bool * bool),
             NoDup (map fst st.1.1.1) ->
             st.1.1.2 = Int.int64 (sum_values st.1.1.1) ->
             let st' := fold_left (Data.count_step 64 cnt_method) records st in
             NoDup (map fst st'.1.1.1)
             /\ st'.1.1.2 = Int.int64 (sum_values st'.1.1.1)).
  { induction records as [|r records IH]; intros st Hnd Htot; cbn; [done|].
    destruct (count_step_inv cnt_method st r Hnd Htot) as [Hnd1 Htot1].
    by apply IH. }
  destruct (Hfold ([], 0, false, false)) as [Hnd Htot];
    [apply NoDup_nil_2|done|].
  destruct (fold_left _ records _) as [[[m tot] sp] ov]. cbn [fst snd] in *.
  intros [= <- <-]. split; [|done].
  split; cbn [Data.my_map Data.tot_value].
  - by rewrite sort_desc_perm.
  - apply sort_desc_sorted.
  - by rewrite (sum_values_perm _ _ (sort_desc_perm m)).
Qed.

(** *** [operator-=] *)

Lemma sub_step_spec (st : Data.BidirMap * Z) (kv : FlowKey.FlowKey key_len * Z) :
  NoDup (map fst st.1) ->
  st.2 = Int.int64 (sum_values st.1) ->
  let st' := Data.sub_step Tbits st kv in
  NoDup (map fst st'.1)
  /\ st'.2 = Int.int64 (sum_values st'.1)
  /\ to_map st'.1
     = <[kv.1 := match to_map st.1 !! kv.1 with
                 | Some a => abs_diff Tbits a kv.2
                 | None => kv.2
                 end]> (to_map st.1).
Proof.
  destruct st as [m t], kv as [k b]. cbn [fst snd]. intros Hnd Ht.
  unfold Data.sub_step. cbn [fst snd].
  destruct (Data.left_count m k) eqn:E; cbn [fst snd].
  - split; [by apply left_update_NoDup|].
    apply left_count_map in E as [a Ha].
    rewrite left_update_sum, !left_at_map, !left_update_map, !left_at_map, Ha.
    rewrite lookup_insert_eq. cbn [default]. unfold id. split; [|done].
    fold (abs_diff Tbits a b). set (d := abs_diff Tbits a b).
    rewrite Ht. unfold Int.int64. rewrite wrap_signed_add_l.
    replace (Int.wrap_signed 64 (sum_values m) - a + d)
      with (Int.wrap_signed 64 (sum_values m) + (d - a)) by lia.
    rewrite wrap_signed_add_l. f_equal. lia.
  - split; [by apply left_update_NoDup|].
    rewrite left_update_sum, left_update_map, ?left_at_map.
    assert (Hn : to_map m !! k = None).
    { destruct (to_map m !! k) eqn:E'; [|done].
      assert (Data.left_count m k = true) by (apply left_count_map; eauto).
      congruence. }
    rewrite Hn. cbn [default]. split; [|done].
    rewrite Ht. unfold Int.int64. rewrite wrap_signed_add_l. f_equal. lia.
Qed.

Lemma sub_fold_spec l m t :
  NoDup (map fst l) ->
  NoDup (map fst m) ->
  t = Int.int64 (sum_values m) ->
  let st := fold_left (Data.sub_step Tbits) l (m, t) in
  NoDup (map fst st.1)
  /\ st.2 = Int.int64 (sum_values st.1)
  /\ forall k, to_map st.1 !! k
               = change_of Tbits (to_map m !! k) (to_map l !! k).
Proof.
  revert m t. induction l as [|[k0 b0] l IH]; intros m t Hl Hm Ht; cbn.
  - split; [done|]. split; [done|]. intros k. rewrite lookup_empty.
    by destruct (to_map m !! k).
  - apply NoDup_cons in Hl as [Hk0 Hl].
    destruct (sub_step_spec (m, t) (k0, b0) Hm Ht) as (Hnd1 & Ht1 & Hmap1).
    destruct (Data.sub_step Tbits (m, t) (k0, b0)) as [m1 t1] eqn:E1.
    cbn [fst snd] in *.
    destruct (IH m1 t1 Hl Hnd1 Ht1) as (Hnd & Htot & Hmap).
    split; [done|]. split; [done|]. intros k. rewrite Hmap, Hmap1.
    destruct (decide (k0 = k)) as [<-|Hne].
    + rewrite !lookup_insert_eq.
      apply (not_elem_of_list_to_map (M := gmap _)) in Hk0. rewrite Hk0.
      by destruct (to_map m !! k0).
    + by rewrite !lookup_insert_ne.
Qed.

Lemma abs_diff_comm a b : abs_diff Tbits a b = abs_diff Tbits b a.
Proof.
  unfold abs_diff. f_equal.
  destruct (Z.le_gt_cases Tbits 0) as [Hle|Hlt].
  - unfold Int.wrap_signed.
    assert (2 ^ (Tbits - 1) = 0) as -> by (apply Z.pow_neg_r; lia).
    assert (Tbits = 0 \/ Tbits < 0) as [->|Hneg] by lia.
    + cbn. rewrite !Z.mod_1_r. done.
    + rewrite (Z.pow_neg_r 2 Tbits) by lia. rewrite !Z.mod_0_r. lia.
  - unfold Int.wrap_signed.
    assert (Hp : 2 ^ Tbits = 2 * 2 ^ (Tbits - 1)).
    { rewrite <- Z.pow_succ_r by lia. f_equal. lia. }
    assert (0 < 2 ^ (Tbits - 1)) by (apply Z.pow_pos_nonneg; lia).
    set (h := 2 ^ (Tbits - 1)) in *. rewrite Hp.
    pose proof (Z.mod_pos_bound (a - b + h) (2 * h) ltac:(lia)).
    pose proof (Z.mod_pos_bound (b - a + h) (2 * h) ltac:(lia)).
    pose proof (Z.div_mod (a - b + h) (2 * h) ltac:(lia)).
    pose proof (Z.div_mod (b - a + h) (2 * h) ltac:(lia)).
    set (q1 := (a - b + h) / (2 * h)) in *.
    set (q2 := (b - a + h) / (2 * h)) in *.
    set (r1 := (a - b + h) mod (2 * h)) in *.
    set (r2 := (b - a + h) mod (2 * h)) in *.
    assert (r1 + r2 = 2 * h * (1 - q1 - q2)) by lia.
    assert (1 - q1 - q2 = 0 \/ 1 - q1 - q2 = 1) as [Hq|Hq] by nia.
    + rewrite Hq in *. assert (r1 = 0 /\ r2 = 0) as [-> ->] by lia. done.
    + lia.
Qed.

Lemma change_of_comm oa ob : change_of Tbits oa ob = change_of Tbits ob oa.
Proof. destruct oa, ob; cbn; try done. by rewrite abs_diff_comm. Qed.

Lemma sub_assign_spec g B :
  (forall l, left_order l ≡ₚ l) ->
  NoDup (map fst (Data.my_map g)) ->
  Data.tot_value g = Int.int64 (sum_values (Data.my_map g)) ->
  NoDup (map fst (Data.my_map B)) ->
  let D := Data.sub_assign Tbits left_order g B in
  NoDup (map fst (Data.my_map D))
  /\ descending (Data.my_map D)
  /\ Data.tot_value D = Int.int64 (sum_values (Data.my_map D))
  /\ forall k, to_map (Data.my_map D) !! k
               = change_of Tbits (to_map (Data.my_map g) !! k)
                   (to_map (Data.my_map B) !! k).
Proof.
  intros Hperm Hg Htot HB. unfold Data.sub_assign. cbn [Data.my_map Data.tot_value].
  assert (HB' : NoDup (map fst (left_order (Data.my_map B)))).
  { by rewrite Hperm. }
  destruct (sub_fold_spec (left_order (Data.my_map B)) (Data.my_map g)
              (Data.tot_value g) HB' Hg Htot) as (Hnd & Hsum & Hmap).
  set (st := fold_left _ _ _) in *.
  split; [by rewrite sort_desc_perm|].
  split; [apply sort_desc_sorted|].
  split; [by rewrite (sum_values_perm _ _ (sort_desc_perm _))|].
  intros k.
  rewrite (list_to_map_proper (Data.sort_desc st.1) st.1);
    [|by rewrite sort_desc_perm|apply sort_desc_perm].
  rewrite Hmap. f_equal. f_equal. by apply list_to_map_proper.
Qed.

(** The two differences [A -= B] and [B -= A] hold the same flows with
    the same values. *)
Lemma sub_assign_sym gA gB :
  (forall l, left_order l ≡ₚ l) ->
  flow_summary gA -> flow_summary gB ->
  Data.my_map (Data.sub_assign Tbits left_order gB gA)
  ≡ₚ Data.my_map (Data.sub_assign Tbits left_order gA gB).
Proof.
  intros Hperm [HA _ HtA] [HB _ HtB].
  destruct (sub_assign_spec gA gB Hperm HA HtA HB) as (Hnd1 & _ & _ & Hmap1).
  destruct (sub_assign_spec gB gA Hperm HB HtB HA) as (Hnd2 & _ & _ & Hmap2).
  apply (list_to_map_inj (M := gmap _)); [done..|].
  apply map_eq. intros k. by rewrite Hmap1, Hmap2, change_of_comm.
Qed.

(** *** The two cuts *)

Lemma descending_values l :
  descending l -> StronglySorted (fun a b => b <= a) (map snd l).
Proof. apply StronglySorted_fmap. done. Qed.

Lemma descending_values_eq l1 l2 :
  descending l1 -> descending l2 -> l1 ≡ₚ l2 -> map snd l1 = map snd l2.
Proof.
  intros H1 H2 Hperm.
  apply (StronglySorted_unique_strong (fun a b : Z => b <= a)).
  - intros. lia.
  - by apply descending_values.
  - by apply descending_values.
  - by apply fmap_Permutation.
Qed.

Lemma descending_take (n : nat) l : descending l -> descending (take n l).
Proof.
  unfold descending. intros Hs. rewrite <- (take_drop n l) in Hs.
  by apply StronglySorted_app_1_l in Hs.
Qed.

Lemma lower_bound_filter l thres :
  descending l ->
  take (Data.lower_bound l thres) l = filter (fun kv => thres < kv.2) l.
Proof.
  unfold descending. induction l as [|kv l IH]; intros Hs; [done|].
  cbn [Data.lower_bound].
  apply StronglySorted_inv in Hs as [Hs Hall].
  destruct (Z.gtb_spec kv.2 thres) as [Hgt|Hle]; cbn [take].
  - rewrite filter_cons_True by lia. by rewrite IH.
  - rewrite filter_cons_False by lia. symmetry.
    clear IH Hs. induction l as [|y l IHl]; [done|].
    apply Forall_cons in Hall as [Hy Hall].
    rewrite filter_cons_False by lia. by apply IHl.
Qed.

Lemma take_perm_no_tie (n : nat) l1 l2 :
  NoDup l1 -> NoDup l2 -> l1 ≡ₚ l2 -> map snd l1 = map snd l2 ->
  no_tie (take n l1) l1 ->
  take n l2 ≡ₚ take n l1.
Proof.
  intros Hnd1 Hnd2 Hperm Hval Htie.
  assert (Hsame : forall i x y, l1 !! i = Some x -> l2 !! i = Some y -> x.2 = y.2).
  { intros i x y Hx Hy.
    assert ((snd <$> l1) !! i = Some x.2) as E1
      by (by rewrite list_lookup_fmap, Hx).
    assert ((snd <$> l2) !! i = Some y.2) as E2
      by (by rewrite list_lookup_fmap, Hy).
    change (snd <$> l1) with (map snd l1) in E1.
    change (snd <$> l2) with (map snd l2) in E2.
    rewrite Hval in E1. congruence. }
  assert (Hlen : length l1 = length l2) by by apply Permutation_length.
  apply NoDup_Permutation.
  - apply (sublist_NoDup _ l2); [done|apply sublist_take].
  - apply (sublist_NoDup _ l1); [done|apply sublist_take].
  - intros x. split.
    + intros (i & Hx & Hi)%elem_of_take.
      destruct (decide (x ∈ take n l1)) as [|Hout]; [done|]. exfalso.
      destruct (lookup_lt_is_Some_2 l1 i) as [y Hy].
      { rewrite Hlen. by eapply lookup_lt_Some. }
      assert (y ∈ take n l1) by (apply elem_of_take; eauto).
      assert (x ∈ l1).
      { rewrite Hperm. by eapply list_elem_of_lookup_2. }
      pose proof (Htie y x ltac:(done) ltac:(done) Hout).
      pose proof (Hsame i y x Hy Hx). lia.
    + intros (i & Hx & Hi)%elem_of_take.
      destruct (decide (x ∈ take n l2)) as [|Hout]; [done|]. exfalso.
      assert (x ∈ l2) as (j & Hj)%list_elem_of_lookup.
      { rewrite <- Hperm. by eapply list_elem_of_lookup_2. }
      assert (n <= j)%nat.
      { destruct (decide (n <= j)%nat); [done|]. exfalso. apply Hout.
        apply elem_of_take. exists j. split; [done|lia]. }
      destruct (lookup_lt_is_Some_2 l1 j) as [y Hy].
      { rewrite Hlen. by eapply lookup_lt_Some. }
      assert (y ∉ take n l1).
      { intros (i' & Hy' & Hi')%elem_of_take.
        pose proof (NoDup_lookup _ _ _ _ Hnd1 Hy Hy'). lia. }
      assert (y ∈ l1) by (by eapply list_elem_of_lookup_2).
      assert (x ∈ take n l1) by (apply elem_of_take; eauto).
      pose proof (Htie x y ltac:(done) ltac:(done) ltac:(done)).
      pose proof (Hsame j y x Hy Hj). lia.
Qed.

(** What either cut keeps of two maps that hold the same flows. *)
Lemma truncate_sym (g1 g2 : Data.GndTruth (key_len := key_len))
  threshold hc_method save r1 :
  (forall l, left_order l ≡ₚ l) ->
  NoDup (map fst (Data.my_map g1)) -> NoDup (map fst (Data.my_map g2)) ->
  descending (Data.my_map g1) -> descending (Data.my_map g2) ->
  Data.my_map g2 ≡ₚ Data.my_map g1 ->
  Data.tot_value g1 = 0 -> Data.tot_value g2 = 0 ->
  Data.truncate Tbits left_order g1 threshold hc_method save = Ok r1 ->
  exists r2,
    Data.truncate Tbits left_order g2 threshold hc_method save = Ok r2
    /\ Data.tot_value r2 = Data.tot_value r1
    /\ map snd (Data.my_map r2) = map snd (Data.my_map r1)
    /\ (hc_method = Data.Percentile
        \/ no_tie (Data.my_map r1) (Data.my_map g1) ->
        Data.my_map r2 ≡ₚ Data.my_map r1).
Proof.
  intros Hperm Hnd1 Hnd2 Hs1 Hs2 Hp Ht1 Ht2.
  pose proof (descending_values_eq _ _ Hs2 Hs1 Hp) as Hval.
  assert (Hlen : length (Data.my_map g2) = length (Data.my_map g1))
    by by apply Permutation_length.
  assert (Htot : forall m1 m2,
             map snd m2 = map snd m1 ->
             Data.add_values 0 (left_order m2)
             = Data.add_values 0 (left_order m1)).
  { intros m1 m2 Hm. rewrite !add_values_spec by done.
    rewrite (sum_values_perm _ _ (Hperm m1)), (sum_values_perm _ _ (Hperm m2)).
    by rewrite (sum_values_snd _ _ Hm). }
  destruct hc_method; cbn [Data.truncate].
  - unfold Data.truncate_top_k.
    destruct (Double.ltb threshold Double.one); [done|].
    destruct (Double.to_size_t threshold) as [k|]; [|done].
    cbn [rbind]. intros [= <-]. cbn [Data.my_map Data.tot_value].
    eexists. split; [reflexivity|]. cbn [Data.my_map Data.tot_value].
    unfold Data.size. rewrite Hlen, Ht1, Ht2.
    set (n := Z.to_nat _).
    assert (Hvn : map snd (take n (Data.my_map g2))
                  = map snd (take n (Data.my_map g1))).
    { change (snd <$> take n (Data.my_map g2)
              = snd <$> take n (Data.my_map g1)).
      rewrite !fmap_take. f_equal. exact Hval. }
    split; [by apply Htot|]. split; [done|].
    intros [?|Htie]; [done|].
    apply take_perm_no_tie; [by eapply NoDup_fmap_1..|done|done|done].
  - unfold Data.truncate_percentile.
    destruct (negb _); [done|].
    destruct (Double.to_signed Tbits _) as [thres|]; [|done].
    cbn [rbind]. intros [= <-]. cbn [Data.my_map Data.tot_value].
    eexists. split; [reflexivity|]. cbn [Data.my_map Data.tot_value].
    rewrite Ht1, Ht2, !lower_bound_filter by done.
    assert (Hf : filter (fun kv => thres < kv.2) (Data.my_map g2)
                 ≡ₚ filter (fun kv => thres < kv.2) (Data.my_map g1)).
    { by apply filter_Permutation. }
    assert (Hvf : map snd (filter (fun kv => thres < kv.2) (Data.my_map g2))
                  = map snd (filter (fun kv => thres < kv.2) (Data.my_map g1))).
    { apply descending_values_eq; [| |done];
        rewrite <- lower_bound_filter by done; by apply descending_take. }
    split; [by apply Htot|]. split; [done|]. done.
Qed.

(** C3 (amended).  When [getHeavyChanger(A, B, ...)] returns, so does
    [getHeavyChanger(B, A, ...)], with the same total value and the same
    values in the same order.  With [Percentile], and with [TopK] when no
    flow left out carries the value of a flow kept, the two results hold
    the same (key, value) pairs. *)
Theorem getHeavyChanger_symmetric_up_to_ties g1 g2 A B threshold hc_method r1 :
  (forall l, left_order l ≡ₚ l) ->
  Data.called g1 = 0 -> Data.called g2 = 0 ->
  flow_summary A -> flow_summary B ->
  Data.getHeavyChanger Tbits left_order g1 A B threshold hc_method
  = Ok (r1, []) ->
  exists r2,
    Data.getHeavyChanger Tbits left_order g2 B A threshold hc_method
    = Ok (r2, [])
    /\ Data.tot_value r2 = Data.tot_value r1
    /\ map snd (Data.my_map r2) = map snd (Data.my_map r1)
    /\ (hc_method = Data.Percentile
        \/ no_tie (Data.my_map r1) (differences Tbits left_order A B) ->
        Data.my_map r2 ≡ₚ Data.my_map r1).
Proof.
  intros Hperm Hc1 Hc2 HA HB.
  pose proof (sub_assign_sym A B Hperm HA HB) as Hsym.
  destruct HA as [HkA _ HtA], HB as [HkB _ HtB].
  unfold Data.getHeavyChanger, Data.check_called_once.
  cbn [Data.called Data.set_called]. rewrite Hc1, Hc2.
  change (0 + 1 >? 1) with false. cbv iota.
  set (a1 := {| Data.my_map := Data.my_map A |}).
  set (b1 := {| Data.my_map := Data.my_map B |}).
  destruct (sub_assign_spec a1 B Hperm HkA HtA HkB) as (Hnd1 & Hs1 & Ht1 & _).
  destruct (sub_assign_spec b1 A Hperm HkB HtB HkA) as (Hnd2 & Hs2 & Ht2 & _).
  change (Data.my_map (Data.sub_assign Tbits left_order a1 B))
    with (Data.my_map (Data.sub_assign Tbits left_order A B)) in *.
  change (Data.my_map (Data.sub_assign Tbits left_order b1 A))
    with (Data.my_map (Data.sub_assign Tbits left_order B A)) in *.
  assert (Hsave : Data.tot_value (Data.sub_assign Tbits left_order b1 A)
                  = Data.tot_value (Data.sub_assign Tbits left_order a1 B)).
  { rewrite Ht1, Ht2. f_equal. by apply sum_values_perm. }
  rewrite Hsave.
  intros Hcall.
  match type of Hcall with
  | context [Data.truncate _ _ ?d _ _ ?s] =>
      set (d1 := d) in *; set (save := s) in *
  end.
  match goal with
  | |- context [Data.truncate _ _ ?d _ _ _] => set (d2 := d)
  end.
  destruct (Data.truncate Tbits left_order d1 threshold hc_method save)
    as [t1|] eqn:E1; [|done].
  cbn [rbind] in Hcall. injection Hcall as <-.
  destruct (truncate_sym d1 d2 threshold hc_method save t1 Hperm)
    as (t2 & E2 & Htot & Hval & Hpairs); try done.
  rewrite E2. cbn [rbind]. exists t2. done.
Qed.

End ChangerFacts.

Lemma getHeavyChanger_symmetric_up_to_ties_witness :
  exists r2,
    Data.getHeavyChanger 64 id Data.empty test_packet_truth test_ground_truth
      (Double.of_Z 2) Data.TopK
    = Ok (r2, [])
    /\ Data.tot_value r2 = Data.tot_value test_changer
    /\ map snd (Data.my_map r2) = map snd (Data.my_map test_changer)
    /\ (Data.TopK = Data.Percentile
        \/ no_tie (Data.my_map test_changer)
             (differences 64 id test_ground_truth test_packet_truth) ->
        Data.my_map r2 ≡ₚ Data.my_map test_changer).
Proof.
  apply (getHeavyChanger_symmetric_up_to_ties 64 id Data.empty Data.empty
           test_ground_truth test_packet_truth (Double.of_Z 2) Data.TopK
           test_changer).
  - intros l. reflexivity.
  - reflexivity.
  - reflexivity.
  - split.
    + apply (bool_decide_unpack _). by vm_compute.
    + vm_compute. repeat (constructor; [|repeat constructor; by vm_compute]).
      constructor.
    + by vm_compute.
  - split.
    + apply (bool_decide_unpack _). by vm_compute.
    + vm_compute. repeat (constructor; [|repeat constructor; by vm_compute]).
      constructor.
    + by vm_compute.
  - by vm_compute.
Defined.

(** Two flows that changed by the same amount: with [TopK] and a
    threshold of 1, each call keeps the flow of its first argument.  (A
    map of one flow has one enumeration order.) *)
Lemma getHeavyChanger_tie_counterexample :
  flow_summary tie_A /\ flow_summary tie_B
  /\ exists r1 r2,
      Data.getHeavyChanger 64 id Data.empty tie_A tie_B (Double.of_Z 1)
        Data.TopK = Ok (r1, [])
      /\ Data.getHeavyChanger 64 id Data.empty tie_B tie_A (Double.of_Z 1)
           Data.TopK = Ok (r2, [])
      /\ Data.my_map r1 = [(FlowKey.of_ip 1, 5)]
      /\ Data.my_map r2 = [(FlowKey.of_ip 2, 5)]
      /\ (FlowKey.of_ip 1, 5) ∈ Data.my_map r1
      /\ (FlowKey.of_ip 1, 5) ∉ Data.my_map r2.
Proof.
  split; [|split].
  - split; [apply NoDup_singleton|repeat constructor|by vm_compute].
  - split; [apply NoDup_singleton|repeat constructor|by vm_compute].
  - exists {| Data.my_map := [(FlowKey.of_ip 1, 5)]; Data.tot_value := 5;
              Data.called := 1 |},
           {| Data.my_map := [(FlowKey.of_ip 2, 5)]; Data.tot_value := 5;
              Data.called := 1 |}.
    split; [by vm_compute|]. split; [by vm_compute|].
    split; [done|]. split; [done|]. cbn [Data.my_map].
    split; [apply list_elem_of_singleton; done|].
    apply (bool_decide_unpack _). by vm_compute.
Qed.

(** * Further properties

    ** [Util]: packed counters and primes *)

(** X1.  [DynamicIntX::operator+] keeps the books: for a counter of width
    [w] holding [c] and any [val] within [-(2^(n-2) - 1), 2^(n-2) - 1]
    ([n] the width of [T]), it returns the overflow [floor((c + val) / 2^w)]
    and leaves [(c + val) mod 2^w], so that
    [overflow * 2^w + residue = c + val] for either sign of [val]; for
    every other [val] of [T] it throws [overflow_error]. *)
Theorem DynamicIntX_add_conserves Tbits c val :
  0 < Util.bits c < Tbits - 1 ->
  0 <= Util.counter c < 2 ^ Util.bits c ->
  - 2 ^ (Tbits - 1) <= val < 2 ^ (Tbits - 1) ->
  (- (2 ^ (Tbits - 2) - 1) <= val <= 2 ^ (Tbits - 2) - 1 ->
   Util.add Tbits c val
   = Ok ((Util.counter c + val) / 2 ^ Util.bits c,
         {| Util.counter := (Util.counter c + val) mod 2 ^ Util.bits c;
            Util.bits := Util.bits c |}))
  /\ (val < - (2 ^ (Tbits - 2) - 1) \/ 2 ^ (Tbits - 2) - 1 < val ->
      Util.add Tbits c val = Throw overflow_error).
Proof.
  destruct c as [r w]. cbn [Util.bits Util.counter]. intros Hw Hr Hval.
  destruct (width_bounds Tbits w Hw) as (Hp & H2 & H3).
  split.
  - intros Hb. destruct (Z.le_gt_cases 0 val) as [Hpos|Hneg].
    + rewrite DynamicIntX_add_nonneg by lia. f_equal. f_equal.
      pose proof (Z.div_mod val (2 ^ w) ltac:(lia)) as Ev.
      pose proof (Z.div_mod (r + val mod 2 ^ w) (2 ^ w) ltac:(lia)) as Es.
      pose proof (Z.mod_pos_bound (r + val mod 2 ^ w) (2 ^ w) Hp) as Hs.
      apply (Z.div_unique_pos _ _ _ ((r + val mod 2 ^ w) mod 2 ^ w)); lia.
    + rewrite DynamicIntX_add_neg by lia.
      pose proof (Z.div_mod (- val) (2 ^ w) ltac:(lia)) as Ev.
      pose proof (Z.mod_pos_bound (- val) (2 ^ w) Hp) as Hm.
      set (q := - val / 2 ^ w) in *. set (m := - val mod 2 ^ w) in *.
      pose proof (Z.div_mod (2 ^ w + r - m) (2 ^ w) ltac:(lia)) as Es.
      pose proof (Z.mod_pos_bound (2 ^ w + r - m) (2 ^ w) Hp) as Hs.
      set (t := (2 ^ w + r - m) / 2 ^ w) in *.
      set (u := (2 ^ w + r - m) mod 2 ^ w) in *.
      f_equal. f_equal.
      * apply (Z.div_unique_pos _ _ _ u); lia.
      * f_equal. apply (Z.mod_unique_pos _ _ (- (q + 1 - t))); lia.
  - intros Hout. unfold Util.add, Util.wrapT. cbn [Util.bits Util.counter].
    rewrite (DynamicIntX_bound Tbits w Hw).
    assert (Hnb : Int.wrap_signed Tbits (- (2 ^ (Tbits - 2) - 1))
                  = - (2 ^ (Tbits - 2) - 1)).
    { apply wrap_signed_small; lia. }
    rewrite Hnb.
    destruct (Z.leb_spec 0 val).
    + destruct (Z.ltb_spec (2 ^ (Tbits - 2) - 1) val); [done|lia].
    + destruct (Z.ltb_spec val (- (2 ^ (Tbits - 2) - 1))); [done|lia].
Qed.

Lemma DynamicIntX_add_conserves_witness :
  Util.add 32 {| Util.counter := 3; Util.bits := 4 |} (-40)
  = Ok (-3, {| Util.counter := 11; Util.bits := 4 |}).
Proof.
  exact (proj1 (DynamicIntX_add_conserves 32
                  {| Util.counter := 3; Util.bits := 4 |} (-40)
                  ltac:(simpl; lia) ltac:(simpl; lia) ltac:(lia))
           ltac:(lia)).
Defined.

(** *** [IsPrime] *)

Lemma land_1_even n : (Z.land n 1 =? 0) = Z.even n.
Proof.
  change 1 with (Z.ones 1). rewrite Z.land_ones by lia.
  change (2 ^ 1) with 2. symmetry. apply Zdiv.Zeven_mod.
Qed.

Lemma rem_divide n i : 0 <= n -> 0 < i -> (Z.rem n i =? 0) = true <-> (i | n).
Proof.
  intros Hn Hi. rewrite Z.rem_mod_nonneg by lia.
  rewrite Z.eqb_eq. apply Z.mod_divide. lia.
Qed.

Lemma IsPrime_loop_spec fuel n i :
  1 <= n -> 3 <= i -> Z.sqrt n - i + 1 <= Z.of_nat fuel ->
  Util.IsPrime_loop fuel n i = true
  <-> n <> 1 /\ forall k, 0 <= k -> (i + 2 * k) * (i + 2 * k) <= n ->
                          ~ (i + 2 * k | n).
Proof.
  revert i. induction fuel as [|fuel IH]; intros i Hn Hi Hfuel.
  - cbn. destruct (Z.leb_spec (i * i) n) as [Hle|Hgt].
    + exfalso. assert (i <= Z.sqrt n) by (apply Z.sqrt_le_square; lia). lia.
    + rewrite negb_true_iff, Z.eqb_neq. split; [|tauto].
      intros Hn1. split; [done|]. intros k Hk Hsq. nia.
  - cbn [Util.IsPrime_loop]. destruct (Z.leb_spec (i * i) n) as [Hle|Hgt].
    + destruct (Z.rem n i =? 0) eqn:E.
      * apply rem_divide in E; [|lia..]. split; [done|].
        intros [_ Hall]. exfalso. apply (Hall 0); [lia|lia|].
        by rewrite Z.add_0_r.
      * assert (Hnd : ~ (i | n)).
        { intros Hd. apply rem_divide in Hd; [|lia..]. congruence. }
        rewrite IH by lia. split; intros [Hn1 Hall]; (split; [done|]).
        -- intros k Hk Hsq. destruct (Z.eq_dec k 0) as [->|Hk0].
           ++ by rewrite Z.add_0_r.
           ++ replace (i + 2 * k) with (i + 2 + 2 * (k - 1)) in * by lia.
              apply Hall; [lia|done].
        -- intros k Hk Hsq.
           replace (i + 2 + 2 * k) with (i + 2 * (k + 1)) in * by lia.
           apply Hall; [lia|done].
    + rewrite negb_true_iff, Z.eqb_neq. split; [|tauto].
      intros Hn1. split; [done|]. intros k Hk Hsq. nia.
Qed.

(** An odd number above 1 is prime when no odd number from 3 up to its
    square root divides it. *)
Lemma odd_prime_trial n :
  1 < n -> Z.odd n = true ->
  Z.prime n <-> forall k, 0 <= k -> (3 + 2 * k) * (3 + 2 * k) <= n ->
                          ~ (3 + 2 * k | n).
Proof.
  intros Hn Hodd. split.
  - intros [_ Hp] k Hk Hsq. apply Hp. nia.
  - intros Hall. split; [done|]. intros d Hd [e He].
    assert (Hde : 1 < e < n) by nia.
    assert (Hodd_de : Z.odd e = true /\ Z.odd d = true).
    { rewrite He, Z.odd_mul in Hodd. by apply andb_true_iff in Hodd. }
    destruct Hodd_de as [Hoe Hod].
    assert (Hsmall : forall a b, 1 < a -> a <= b -> n = a * b ->
                                 Z.odd a = true -> False).
    { intros a b Ha Hab Hn' Hoa.
      apply Z.odd_spec in Hoa as [j Hj].
      apply (Hall (j - 1)); [lia|nia|].
      replace (3 + 2 * (j - 1)) with a by lia. exists b. lia. }
    destruct (Z.le_gt_cases d e).
    + apply (Hsmall d e); [lia|lia|lia|done].
    + apply (Hsmall e d); [lia|lia|lia|done].
Qed.

Lemma IsPrime_decides_primality_aux n :
  (n <= 0 -> Util.IsPrime n = Throw invalid_argument)
  /\ (0 < n ->
      exists b, Util.IsPrime n = Ok b /\ (b = true <-> Z.prime n)).
Proof.
  unfold Util.IsPrime. split.
  - intros Hn. by destruct (Z.leb_spec n 0); [|lia].
  - intros Hn. destruct (Z.leb_spec n 0); [lia|].
    rewrite land_1_even. destruct (Z.even n) eqn:Heven.
    + eexists. split; [reflexivity|]. rewrite Z.eqb_eq. split.
      * intros ->. apply Z.prime_2.
      * intros [_ Hp]. apply Z.even_spec in Heven as [j Hj].
        destruct (Z.eq_dec n 2) as [|Hn2]; [done|]. exfalso.
        apply (Hp 2); [lia|]. exists j. lia.
    + assert (Hodd : Z.odd n = true) by (by rewrite <- Z.negb_even, Heven).
      eexists. split; [reflexivity|].
      rewrite IsPrime_loop_spec; [|lia|lia|].
      2:{ rewrite Z2Nat.id by apply Z.sqrt_nonneg. lia. }
      destruct (Z.eq_dec n 1) as [->|Hn1].
      * split; [tauto|]. intros Hp. by apply Z.not_prime_1 in Hp.
      * rewrite odd_prime_trial by (done || lia). tauto.
Qed.

(** X2.  [IsPrime] rejects a non-positive argument with
    [invalid_argument] and decides primality of every positive one. *)
Theorem IsPrime_decides_primality n :
  (n <= 0 -> Util.IsPrime n = Throw invalid_argument)
  /\ (0 < n ->
      exists b, Util.IsPrime n = Ok b /\ (b = true <-> Z.prime n)).
Proof. apply IsPrime_decides_primality_aux. Qed.

(** *** [NextPrime] *)

Lemma NextPrime_round_stops n r fuel :
  Util.NextPrime_round n = inl r -> Util.NextPrime_rounds fuel n = inl r.
Proof.
  intros Hr. induction fuel as [fuel IH|fuel IH|];
    cbn [Util.NextPrime_rounds]; [by rewrite IH..|done].
Qed.

Lemma NextPrime_rounds_pos fuel : 0 < NextPrime_rounds_count fuel.
Proof. induction fuel; cbn [NextPrime_rounds_count]; lia. Qed.

(** With [p] the first number from [n] on that [IsPrime] accepts, the
    rounds stop at [p] when they reach it and go on otherwise. *)
Lemma NextPrime_rounds_spec n p fuel m :
  0 < n -> p <= Int.INT32_MAX ->
  (forall k, n <= k < p -> Util.IsPrime k = Ok false) ->
  Util.IsPrime p = Ok true ->
  n <= m <= p ->
  Util.NextPrime_rounds fuel m
  = if p - m <? NextPrime_rounds_count fuel then inl (Ok p)
    else inr (m + NextPrime_rounds_count fuel).
Proof.
  intros Hn Hp Hcomp Hprime. revert m.
  assert (Hdouble : forall fuel,
             (forall m, n <= m <= p ->
                Util.NextPrime_rounds fuel m
                = if p - m <? NextPrime_rounds_count fuel then inl (Ok p)
                  else inr (m + NextPrime_rounds_count fuel)) ->
             forall m, n <= m <= p ->
               match Util.NextPrime_rounds fuel m with
               | inl r => inl r
               | inr n' => Util.NextPrime_rounds fuel n'
               end
               = if p - m <? 2 * NextPrime_rounds_count fuel then inl (Ok p)
                 else inr (m + 2 * NextPrime_rounds_count fuel)).
  { clear fuel. intros fuel IH m Hm. rewrite (IH m Hm).
    pose proof (NextPrime_rounds_pos fuel) as Hc.
    set (c := NextPrime_rounds_count fuel) in *.
    destruct (Z.ltb_spec (p - m) c).
    - destruct (Z.ltb_spec (p - m) (2 * c)); [done|lia].
    - rewrite IH by lia.
      destruct (Z.ltb_spec (p - (m + c)) c);
        destruct (Z.ltb_spec (p - m) (2 * c)); try lia; [done|].
      f_equal. lia. }
  induction fuel as [fuel IH|fuel IH|]; intros m Hm;
    cbn [Util.NextPrime_rounds NextPrime_rounds_count].
  - by apply Hdouble.
  - by apply Hdouble.
  - unfold Util.NextPrime_round. destruct (Z.ltb_spec (p - m) 1).
    + assert (m = p) as -> by lia. by rewrite Hprime.
    + rewrite Hcomp by lia.
      destruct (Z.eqb_spec m Int.INT32_MAX); [lia|done].
Qed.

Lemma IsPrime_INT32_MAX : Z.prime Int.INT32_MAX.
Proof.
  destruct (proj2 (IsPrime_decides_primality_aux Int.INT32_MAX) ltac:(done))
    as (b & Hb & Hp).
  apply Hp. vm_compute in Hb. congruence.
Qed.

(** From any positive [int32_t] on there is a first prime, and it is an
    [int32_t]. *)
Lemma first_prime_from n :
  0 < n <= Int.INT32_MAX ->
  exists p, n <= p <= Int.INT32_MAX /\ Z.prime p
            /\ forall k, n <= k < p -> ~ Z.prime k.
Proof.
  intros Hn.
  remember (Z.to_nat (Int.INT32_MAX - n)) as d eqn:Hd.
  revert n Hn Hd. induction d as [|d IH]; intros n Hn Hd.
  - assert (n = Int.INT32_MAX) as -> by lia.
    exists Int.INT32_MAX. split; [lia|]. split; [apply IsPrime_INT32_MAX|lia].
  - destruct (proj2 (IsPrime_decides_primality_aux n) ltac:(lia))
      as ([|] & _ & Hb).
    + exists n. split; [lia|]. split; [by apply Hb|lia].
    + assert (Hnp : ~ Z.prime n) by (intros Hp; by apply Hb in Hp).
      destruct (IH (n + 1)) as (p & Hr & Hp & Hleast); [lia|lia|].
      exists p. split; [lia|]. split; [done|].
      intros k Hk. destruct (Z.eq_dec k n) as [->|]; [done|].
      apply Hleast. lia.
Qed.

Lemma NextPrime_spec n :
  (n <= 0 -> Util.NextPrime n = Throw invalid_argument)
  /\ (0 < n <= Int.INT32_MAX ->
      exists p, Util.NextPrime n = Ok p
                /\ n <= p <= Int.INT32_MAX /\ Z.prime p
                /\ forall k, n <= k < p -> ~ Z.prime k).
Proof.
  unfold Util.NextPrime. split.
  - intros Hn.
    rewrite (NextPrime_round_stops n (Throw invalid_argument)); [done|].
    unfold Util.NextPrime_round.
    by rewrite (proj1 (IsPrime_decides_primality_aux n) Hn).
  - intros Hn. destruct (first_prime_from n Hn) as (p & Hr & Hp & Hleast).
    exists p. split; [|done].
    rewrite (NextPrime_rounds_spec n p); [|lia|lia| | |lia].
    + change (NextPrime_rounds_count (2 ^ 31)) with 2147483648.
      unfold Int.INT32_MAX in *.
      by destruct (Z.ltb_spec (p - n) 2147483648); [|lia].
    + intros k Hk.
      destruct (proj2 (IsPrime_decides_primality_aux k) ltac:(lia))
        as (b & -> & Hb).
      destruct b; [|done]. exfalso. apply (Hleast k Hk). by apply Hb.
    + destruct (proj2 (IsPrime_decides_primality_aux p) ltac:(lia))
        as (b & -> & Hb).
      f_equal. by apply Hb.
Qed.

(** X3.  [NextPrime(n)] throws [invalid_argument] for [n <= 0]; for a
    positive [int32_t] it returns the least prime [p >= n], and [p] is an
    [int32_t] itself (the loop never runs past [INT32_MAX], which is
    prime). *)
Theorem NextPrime_least_prime n :
  (n <= 0 -> Util.NextPrime n = Throw invalid_argument)
  /\ (0 < n <= Int.INT32_MAX ->
      exists p, Util.NextPrime n = Ok p
                /\ n <= p <= Int.INT32_MAX /\ Z.prime p
                /\ forall k, n <= k < p -> ~ Z.prime k).
Proof. apply NextPrime_spec. Qed.

Lemma NextPrime_least_prime_witness :
  exists p, Util.NextPrime 8 = Ok p
            /\ 8 <= p <= Int.INT32_MAX /\ Z.prime p
            /\ forall k, 8 <= k < p -> ~ Z.prime k.
Proof.
  apply (proj2 (NextPrime_least_prime 8)). unfold Int.INT32_MAX. lia.
Defined.

(** *** Byte order *)

Lemma to_bytes_length n x : length (Util.to_bytes n x) = n.
Proof. revert x. induction n as [|n IH]; intros x; cbn; [done|]. by rewrite IH. Qed.

Lemma to_bytes_range n x : Forall (fun y => 0 <= y < 256) (Util.to_bytes n x).
Proof.
  revert x. induction n as [|n IH]; intros x; cbn; constructor; [|done].
  apply Z.mod_pos_bound. lia.
Qed.

Lemma of_bytes_range l :
  Forall (fun y => 0 <= y < 256) l ->
  0 <= Util.of_bytes l < 2 ^ (8 * Z.of_nat (length l)).
Proof.
  induction 1 as [|y l Hy _ IH]; [cbn; lia|].
  cbn [Util.of_bytes length].
  replace (2 ^ (8 * Z.of_nat (S (length l))))
    with (256 * 2 ^ (8 * Z.of_nat (length l))).
  - lia.
  - replace (8 * Z.of_nat (S (length l))) with (8 + 8 * Z.of_nat (length l))
      by lia.
    rewrite Z.pow_add_r by lia. done.
Qed.

Lemma to_bytes_of_bytes l :
  Forall (fun y => 0 <= y < 256) l ->
  Util.to_bytes (length l) (Util.of_bytes l) = l.
Proof.
  induction 1 as [|y l Hy _ IH]; [done|].
  cbn [Util.of_bytes length Util.to_bytes]. f_equal.
  - symmetry. apply (Z.mod_unique_pos _ _ (Util.of_bytes l)); lia.
  - assert (E : (y + 256 * Util.of_bytes l) / 256 = Util.of_bytes l).
    { symmetry. apply (Z.div_unique_pos _ _ _ y); lia. }
    by rewrite E.
Qed.

Lemma lor_shiftl_add a x n :
  0 <= n -> 0 <= x < 2 ^ n -> Z.lor x (Z.shiftl a n) = x + a * 2 ^ n.
Proof.
  intros Hn Hx. rewrite <- Z.shiftl_mul_pow2 by done.
  symmetry. apply Z.add_nocarry_lor. apply Z.bits_inj'. intros i Hi.
  rewrite Z.land_spec, Z.bits_0.
  destruct (Z.lt_ge_cases i n).
  - by rewrite Z.shiftl_spec_low, andb_false_r.
  - rewrite <- (Z.mod_small x (2 ^ n)) by done.
    by rewrite Z.mod_pow2_bits_high.
Qed.

Lemma Net2Host16_value v :
  0 <= v < 2 ^ 16 -> Util.Net2Host16 v = v mod 256 * 256 + v / 256.
Proof.
  intros Hv. unfold Util.Net2Host16.
  change Util.Endianness with false. cbv iota.
  rewrite Z.shiftr_div_pow2 by lia. change (2 ^ 8) with 256.
  rewrite lor_shiftl_add; [|lia|change (2 ^ 8) with 256; Z.div_mod_to_equations; lia].
  unfold Int.wrap_unsigned. change (2 ^ 8) with 256. change (2 ^ 16) with 65536 in *.
  Z.div_mod_to_equations. lia.
Qed.

(** X11.  On a little-endian host [Net2Host16] swaps the two bytes of its
    argument and [Net2Host32] reverses the four bytes of its argument;
    each is its own inverse. *)
Theorem Net2Host_reverses_bytes v :
  (0 <= v < 2 ^ 16 ->
   Util.Net2Host16 v = Util.of_bytes (rev (Util.to_bytes 2 v))
   /\ Util.Net2Host16 (Util.Net2Host16 v) = v)
  /\ (0 <= v < 2 ^ 32 ->
      Util.Net2Host32 v = Util.of_bytes (rev (Util.to_bytes 4 v))
      /\ Util.Net2Host32 (Util.Net2Host32 v) = v).
Proof.
  assert (H16 : forall v, 0 <= v < 2 ^ 16 ->
                          0 <= Util.Net2Host16 v < 2 ^ 16).
  { intros x Hx. rewrite Net2Host16_value by done.
    change (2 ^ 16) with 65536 in *. Z.div_mod_to_equations. lia. }
  assert (H32 : forall v, 0 <= v < 2 ^ 32 ->
             Util.Net2Host32 v
             = v / 16777216 + 256 * (v / 65536 mod 256)
               + 65536 * (v / 256 mod 256) + 16777216 * (v mod 256)).
  { intros x Hx. unfold Util.Net2Host32.
    change Util.Endianness with false. cbv iota.
    rewrite Z.shiftr_div_pow2 by lia. unfold Int.wrap_unsigned at 2 3.
    change (2 ^ 16) with 65536 in *. change (2 ^ 32) with 4294967296 in *.
    assert (Hlo : 0 <= x mod 65536 < 65536) by (apply Z.mod_pos_bound; lia).
    assert (Hhi : 0 <= x / 65536 < 65536) by (Z.div_mod_to_equations; lia).
    rewrite (Z.mod_small (x / 65536)) by lia.
    pose proof (H16 (x mod 65536) Hlo) as Rlo.
    pose proof (H16 (x / 65536) Hhi) as Rhi.
    change (2 ^ 16) with 65536 in *.
    rewrite Z.shiftl_mul_pow2 by lia. change (2 ^ 16) with 65536.
    unfold Int.wrap_unsigned. change (2 ^ 32) with 4294967296.
    rewrite (Z.mod_small (Util.Net2Host16 (x mod 65536) * 65536)) by lia.
    rewrite Z.lor_comm.
    rewrite <- (Z.shiftl_mul_pow2 _ 16) by lia.
    rewrite lor_shiftl_add by (change (2 ^ 16) with 65536; lia).
    change (2 ^ 16) with 65536.
    rewrite !Net2Host16_value by (change (2 ^ 16) with 65536; lia).
    Z.div_mod_to_equations. lia. }
  assert (Hinv : forall n x, 0 <= x < 2 ^ (8 * Z.of_nat n) ->
             Util.of_bytes
               (rev (Util.to_bytes n
                       (Util.of_bytes (rev (Util.to_bytes n x))))) = x).
  { intros n x Hx.
    pose proof (to_bytes_of_bytes (rev (Util.to_bytes n x))) as E.
    rewrite length_rev, to_bytes_length in E.
    rewrite E by (apply Forall_rev, to_bytes_range).
    rewrite rev_involutive, of_bytes_to_bytes. by apply Z.mod_small. }
  split.
  - intros Hv.
    assert (Hrev : forall x, 0 <= x < 2 ^ 16 ->
               Util.Net2Host16 x = Util.of_bytes (rev (Util.to_bytes 2 x))).
    { intros x Hx. rewrite Net2Host16_value by done.
      cbn [Util.to_bytes rev app Util.of_bytes].
      assert (0 <= x / 256 < 256).
      { change (2 ^ 16) with (256 * 256) in Hx.
        split; [apply Z.div_pos; lia|apply Z.div_lt_upper_bound; lia]. }
      rewrite (Z.mod_small (x / 256)) by done. lia. }
    split; [by apply Hrev|].
    rewrite (Hrev _ (H16 v Hv)), Hrev by done. by apply (Hinv 2%nat).
  - intros Hv.
    assert (Hrev : forall x, 0 <= x < 2 ^ 32 ->
               Util.Net2Host32 x = Util.of_bytes (rev (Util.to_bytes 4 x))).
    { intros x Hx. rewrite H32 by done.
      cbn [Util.to_bytes rev app Util.of_bytes].
      rewrite !Z.div_div by lia.
      change (256 * 256 * 256) with 16777216. change (256 * 256) with 65536.
      assert (0 <= x / 16777216 < 256).
      { change (2 ^ 32) with (16777216 * 256) in Hx.
        split; [apply Z.div_pos; lia|apply Z.div_lt_upper_bound; lia]. }
      rewrite (Z.mod_small (x / 16777216)) by done. lia. }
    split; [by apply Hrev|].
    assert (Hr : 0 <= Util.Net2Host32 v < 2 ^ 32).
    { rewrite Hrev by done.
      pose proof (of_bytes_range (rev (Util.to_bytes 4 v))) as Hb.
      rewrite length_rev, to_bytes_length in Hb.
      apply Hb, Forall_rev, to_bytes_range. }
    rewrite (Hrev _ Hr), Hrev by done. by apply (Hinv 4%nat).
Qed.

(** ** [FlowKey]: comparison, bytes and bits *)

Section FlowKeyMore.

Context {key_len : nat}.
Implicit Types a b c k : FlowKey.FlowKey key_len.

Lemma lt_first_difference a b :
  FlowKey.lt a b = true
  <-> exists i, (i < key_len)%nat
        /\ (forall j, (j < i)%nat -> FlowKey.byte_at a j = FlowKey.byte_at b j)
        /\ FlowKey.byte_at a i < FlowKey.byte_at b i.
Proof.
  unfold FlowKey.lt. rewrite lt_loop_spec.
  split; intros (i & Hi & Heq & Hlt); exists i.
  - split; [lia|]. split; [|done]. intros j Hj. apply Heq. lia.
  - split; [lia|]. split; [|done]. intros j Hj. apply Heq. lia.
Qed.

(** X4.  [operator==] returns [true] exactly when the two keys hold the
    same bytes; so it is reflexive and symmetric, and keys it calls equal
    can replace one another. *)
Theorem FlowKey_eq_decides_equality a b :
  (FlowKey.eq a b = true <-> a = b)
  /\ FlowKey.eq a a = true
  /\ FlowKey.eq a b = FlowKey.eq b a.
Proof.
  split; [apply FlowKey_eq_spec|]. split; [apply FlowKey_eq_refl|].
  destruct (FlowKey.eq a b) eqn:E1, (FlowKey.eq b a) eqn:E2; try done.
  - apply FlowKey_eq_spec in E1 as ->. by rewrite FlowKey_eq_refl in E2.
  - apply FlowKey_eq_spec in E2 as ->. by rewrite FlowKey_eq_refl in E1.
Qed.

(** X5.  [operator<] is a strict order: no key is below itself, two keys
    are never below one another, and it is transitive. *)
Theorem FlowKey_lt_strict_order a b c :
  FlowKey.lt a a = false
  /\ (FlowKey.lt a b = true -> FlowKey.lt b a = false)
  /\ (FlowKey.lt a b = true -> FlowKey.lt b c = true ->
      FlowKey.lt a c = true).
Proof.
  assert (Hirr : forall a, FlowKey.lt a a = false).
  { intros x. destruct (FlowKey.lt x x) eqn:E; [|done].
    apply lt_first_difference in E as (i & _ & _ & Hlt). lia. }
  assert (Htrans : forall a b c,
             FlowKey.lt a b = true -> FlowKey.lt b c = true ->
             FlowKey.lt a c = true).
  { clear a b c. intros a b c.
    rewrite !lt_first_difference.
    intros (i & Hi & Hei & Hli) (j & Hj & Hej & Hlj).
    destruct (lt_eq_lt_dec i j) as [[Hij|<-]|Hij].
    - exists i. split; [done|]. split.
      + intros l Hl. rewrite Hei by done. apply Hej. lia.
      + rewrite <- (Hej i) by done. done.
    - exists i. split; [done|]. split.
      + intros l Hl. rewrite Hei by done. by apply Hej.
      + lia.
    - exists j. split; [done|]. split.
      + intros l Hl. rewrite Hei by lia. by apply Hej.
      + rewrite (Hei j) by done. done. }
  split; [apply Hirr|]. split; [|apply Htrans].
  intros Hab. destruct (FlowKey.lt b a) eqn:Hba; [|done].
  pose proof (Htrans a b a Hab Hba) as Haa. by rewrite Hirr in Haa.
Qed.

(** *** Bytes *)

Lemma vec_imap_to_list {A} {n} (f : nat -> A -> A) i (v : vec A n) :
  vec_to_list (FlowKey.vec_imap f i v)
  = imap (fun j x => f (i + j)%nat x) (vec_to_list v).
Proof.
  revert i. induction v as [|x n v IH]; intros i; cbn; [done|].
  rewrite Nat.add_0_r, IH. f_equal. apply imap_ext. intros j y _. cbn.
  f_equal. lia.
Qed.

Lemma byte_at_lookup k (j : nat) :
  FlowKey.byte_at k j = default 0 (vec_to_list k !! j).
Proof. unfold FlowKey.byte_at. by rewrite nth_lookup. Qed.

Lemma byte_at_out k (j : nat) : (key_len <= j)%nat -> FlowKey.byte_at k j = 0.
Proof.
  intros Hj. rewrite byte_at_lookup, lookup_ge_None_2; [done|].
  by rewrite length_vec_to_list.
Qed.

Lemma byte_at_write k pos src (j : nat) :
  FlowKey.byte_at (FlowKey.write_bytes k pos src) j
  = if (j <? key_len)%nat && (pos <=? Z.of_nat j)
       && (Z.of_nat j <? pos + Z.of_nat (length src))
    then nth (Z.to_nat (Z.of_nat j - pos)) src 0
    else FlowKey.byte_at k j.
Proof.
  destruct (Nat.ltb_spec j key_len) as [Hj|Hj]; cbn [andb].
  - rewrite !byte_at_lookup. unfold FlowKey.write_bytes.
    rewrite vec_imap_to_list, list_lookup_imap.
    destruct (lookup_lt_is_Some_2 (vec_to_list k) j) as [x Hx].
    { by rewrite length_vec_to_list. }
    rewrite Hx. cbn. by destruct (_ && _).
  - by rewrite !byte_at_out.
Qed.

Lemma write_bytes_valid k pos src :
  key_valid k -> Forall (fun x => -128 <= x <= 127) src ->
  key_valid (FlowKey.write_bytes k pos src).
Proof.
  unfold key_valid, FlowKey.write_bytes. intros Hk Hsrc.
  rewrite vec_imap_to_list. apply Forall_lookup. intros j x.
  rewrite list_lookup_imap. destruct (vec_to_list k !! j) as [y|] eqn:Hy; [|done].
  cbn. intros [= <-]. destruct (_ && _) eqn:E.
  - rewrite nth_lookup.
    destruct (src !! _) as [z|] eqn:Es; cbn;
      [exact (Forall_lookup_1 _ _ _ _ Hsrc Es)|lia].
  - exact (Forall_lookup_1 _ _ _ _ Hk Hy).
Qed.

Lemma read_bytes_length k pos len :
  length (FlowKey.read_bytes k pos len) = len.
Proof. unfold FlowKey.read_bytes. by rewrite length_map, length_seq. Qed.

Lemma read_bytes_nth k pos len (i : nat) :
  (i < len)%nat ->
  nth i (FlowKey.read_bytes k pos len) 0 = FlowKey.byte_at k (pos + i).
Proof.
  intros Hi. unfold FlowKey.read_bytes.
  rewrite nth_lookup, list_lookup_fmap, lookup_seq_lt by done. done.
Qed.

(** Reading back what was written, and reading beside it. *)
Lemma read_write_same k (pos : nat) src :
  (pos + length src <= key_len)%nat ->
  FlowKey.read_bytes (FlowKey.write_bytes k (Z.of_nat pos) src) pos (length src)
  = src.
Proof.
  intros Hfit. apply (nth_ext _ _ 0 0).
  - apply read_bytes_length.
  - intros i Hi. rewrite read_bytes_length in Hi.
    rewrite read_bytes_nth, byte_at_write by done.
    destruct (Nat.ltb_spec (pos + i) key_len); [|lia].
    destruct (Z.leb_spec (Z.of_nat pos) (Z.of_nat (pos + i))); [|lia].
    destruct (Z.ltb_spec (Z.of_nat (pos + i))
                (Z.of_nat pos + Z.of_nat (length src))); [|lia].
    cbn. f_equal. lia.
Qed.

Lemma read_write_other k pos src (pos' len : nat) :
  Z.of_nat pos' + Z.of_nat len <= pos
  \/ pos + Z.of_nat (length src) <= Z.of_nat pos' ->
  FlowKey.read_bytes (FlowKey.write_bytes k pos src) pos' len
  = FlowKey.read_bytes k pos' len.
Proof.
  intros Hdis. unfold FlowKey.read_bytes. apply map_ext_in.
  intros i Hi%in_seq. rewrite byte_at_write.
  destruct (Z.leb_spec pos (Z.of_nat (pos' + i)));
    destruct (Z.ltb_spec (Z.of_nat (pos' + i)) (pos + Z.of_nat (length src)));
    rewrite ?andb_false_r; try done; lia.
Qed.

(** *** Integers in a key *)



Lemma uint8_int8 x : 0 <= x < 256 -> Int.uint8 (Int.int8 x) = x.
Proof.
  intros Hx. unfold Int.uint8, Int.int8, Int.wrap_unsigned, Int.wrap_signed.
  change (2 ^ (8 - 1)) with 128. change (2 ^ 8) with 256.
  destruct (Z.lt_ge_cases x 128).
  - rewrite (Z.mod_small (x + 128)) by lia.
    replace (x + 128 - 128) with x by lia. by apply Z.mod_small.
  - rewrite <- (Z.mod_unique_pos (x + 128) 256 1 (x - 128)) by lia.
    rewrite <- (Z.mod_unique_pos (x - 128 - 128) 256 (-1) x) by lia. done.
Qed.

Lemma int_bytes_length n v : length (FlowKey.int_bytes n v) = n.
Proof. unfold FlowKey.int_bytes. by rewrite length_map, to_bytes_length. Qed.

Lemma int_bytes_valid n v :
  Forall (fun x => -128 <= x <= 127) (FlowKey.int_bytes n v).
Proof.
  unfold FlowKey.int_bytes. apply Forall_fmap, Forall_forall. intros x _. cbn.
  pose proof (wrap_signed_range 8 x ltac:(lia)) as Hr.
  change (2 ^ (8 - 1)) with 128 in Hr. unfold Int.int8. lia.
Qed.

Lemma wrap_signed_unsigned bits x :
  0 < bits ->
  Int.wrap_signed bits (Int.wrap_unsigned bits x) = Int.wrap_signed bits x.
Proof.
  intros Hb. unfold Int.wrap_signed, Int.wrap_unsigned. f_equal.
  rewrite Z.add_mod_idemp_l; [done|]. apply Z.pow_nonzero; lia.
Qed.

(** An integer written into a key is read back, as far as its type
    holds it. *)
Lemma read_int_write k (pos n : nat) v :
  (0 < n)%nat -> (pos + n <= key_len)%nat ->
  FlowKey.read_int
    (FlowKey.write_bytes k (Z.of_nat pos) (FlowKey.int_bytes n v)) pos n
  = Int.wrap_signed (8 * Z.of_nat n) v.
Proof.
  intros Hn Hfit. unfold FlowKey.read_int.
  pose proof (read_write_same k pos (FlowKey.int_bytes n v)) as Hrw.
  rewrite int_bytes_length in Hrw. rewrite Hrw by done.
  unfold FlowKey.int_bytes.
  assert (Hmap : forall l, Forall (fun y => 0 <= y < 256) l ->
                           map Int.uint8 (map Int.int8 l) = l).
  { induction 1 as [|y l Hy _ IH]; cbn; [done|]. by rewrite uint8_int8, IH. }
  rewrite Hmap by apply to_bytes_range.
  rewrite of_bytes_to_bytes.
  fold (Int.wrap_unsigned (8 * Z.of_nat n)
          (Int.wrap_unsigned (8 * Z.of_nat n) v)).
  rewrite !wrap_signed_unsigned by lia. done.
Qed.

Lemma read_int_other k pos src (pos' n : nat) :
  Z.of_nat pos' + Z.of_nat n <= pos
  \/ pos + Z.of_nat (length src) <= Z.of_nat pos' ->
  FlowKey.read_int (FlowKey.write_bytes k pos src) pos' n
  = FlowKey.read_int k pos' n.
Proof. intros Hdis. unfold FlowKey.read_int. by rewrite read_write_other. Qed.

End FlowKeyMore.

(** X6.  The constructors and the getters of a five-tuple key are
    inverse to each other: a key built from [srcip], [dstip], [srcport],
    [dstport] and [protocol] gives them back, field by field.  Built with
    any length but 13 the constructor throws [FlowKeyMismtach] (an
    [invalid_argument]), and so do the port and protocol getters on a key
    of any other length. *)
Theorem FlowKey_5tuple_round_trip srcip dstip srcport dstport protocol :
  (- 2 ^ 31 <= srcip < 2 ^ 31 -> - 2 ^ 31 <= dstip < 2 ^ 31 ->
   - 2 ^ 15 <= srcport < 2 ^ 15 -> - 2 ^ 15 <= dstport < 2 ^ 15 ->
   - 2 ^ 7 <= protocol < 2 ^ 7 ->
   exists k : FlowKey.FlowKey 13,
     FlowKey.new_5tuple 13 srcip dstip srcport dstport protocol = Ok k
     /\ key_valid k
     /\ FlowKey.getSrcIp k = Ok srcip /\ FlowKey.getDstIp k = Ok dstip
     /\ FlowKey.getSrcPort k = Ok srcport
     /\ FlowKey.getDstPort k = Ok dstport
     /\ FlowKey.getProtocol k = Ok protocol)
  /\ (forall key_len, key_len <> 13%nat ->
        FlowKey.new_5tuple key_len srcip dstip srcport dstport protocol
        = Throw invalid_argument
        /\ forall k : FlowKey.FlowKey key_len,
             FlowKey.getSrcPort k = Throw invalid_argument
             /\ FlowKey.getDstPort k = Throw invalid_argument
             /\ FlowKey.getProtocol k = Throw invalid_argument).
Proof.
  split.
  - intros H1 H2 H3 H4 H5. eexists. split; [reflexivity|].
    split.
    { repeat apply write_bytes_valid; try apply int_bytes_valid.
      unfold key_valid. cbn. repeat constructor; lia. }
    unfold FlowKey.getSrcIp, FlowKey.getDstIp, FlowKey.getSrcPort,
      FlowKey.getDstPort, FlowKey.getProtocol. cbn [Nat.eqb negb andb].
    repeat split; f_equal.
    + rewrite !read_int_other by (rewrite int_bytes_length; lia).
      rewrite (read_int_write _ 0 4) by lia.
      apply wrap_signed_small; [lia|]. change (8 * Z.of_nat 4 - 1) with 31. lia.
    + rewrite !read_int_other by (rewrite int_bytes_length; lia).
      rewrite (read_int_write _ 4 4) by lia.
      apply wrap_signed_small; [lia|]. change (8 * Z.of_nat 4 - 1) with 31. lia.
    + rewrite !read_int_other by (rewrite int_bytes_length; lia).
      rewrite (read_int_write _ 8 2) by lia.
      apply wrap_signed_small; [lia|]. change (8 * Z.of_nat 2 - 1) with 15. lia.
    + rewrite !read_int_other by (rewrite int_bytes_length; lia).
      rewrite (read_int_write _ 10 2) by lia.
      apply wrap_signed_small; [lia|]. change (8 * Z.of_nat 2 - 1) with 15. lia.
    + rewrite (read_int_write _ 12 1) by lia.
      apply wrap_signed_small; [lia|]. change (8 * Z.of_nat 1 - 1) with 7. lia.
  - intros key_len Hne.
    unfold FlowKey.new_5tuple, FlowKey.getSrcPort, FlowKey.getDstPort,
      FlowKey.getProtocol.
    destruct (Nat.eqb_spec key_len 13); [done|]. done.
Qed.

(** X7.  A key built from one or from two IP addresses gives them back
    ([FlowKey(int32_t)] builds the key of [FlowKey.of_ip]); the
    constructors and [getIp], [getSrcIp], [getDstIp] throw
    [FlowKeyMismtach] on a key of another length. *)
Theorem FlowKey_ip_round_trip ipaddr srcip dstip :
  (- 2 ^ 31 <= ipaddr < 2 ^ 31 ->
   FlowKey.new_ip 4 ipaddr = Ok (FlowKey.of_ip ipaddr)
   /\ FlowKey.getIp (FlowKey.of_ip ipaddr) = Ok ipaddr)
  /\ (- 2 ^ 31 <= srcip < 2 ^ 31 -> - 2 ^ 31 <= dstip < 2 ^ 31 ->
      exists k : FlowKey.FlowKey 8,
        FlowKey.new_ips 8 srcip dstip = Ok k
        /\ FlowKey.getSrcIp k = Ok srcip /\ FlowKey.getDstIp k = Ok dstip)
  /\ (forall key_len,
        (key_len <> 4%nat ->
         FlowKey.new_ip key_len ipaddr = Throw invalid_argument
         /\ forall k : FlowKey.FlowKey key_len,
              FlowKey.getIp k = Throw invalid_argument)
        /\ (key_len <> 8%nat ->
            FlowKey.new_ips key_len srcip dstip = Throw invalid_argument)
        /\ (key_len <> 8%nat -> key_len <> 13%nat ->
            forall k : FlowKey.FlowKey key_len,
              FlowKey.getSrcIp k = Throw invalid_argument
              /\ FlowKey.getDstIp k = Throw invalid_argument)).
Proof.
  split; [|split].
  - intros Hip.
    assert (Hnew : FlowKey.new_ip 4 ipaddr = Ok (FlowKey.of_ip ipaddr))
      by reflexivity.
    split; [done|]. unfold FlowKey.getIp. cbn [Nat.eqb negb]. f_equal.
    change (FlowKey.of_ip ipaddr)
      with (FlowKey.write_bytes (FlowKey.zero_key 4) (Z.of_nat 0)
              (FlowKey.int_bytes 4 ipaddr)).
    rewrite (read_int_write _ 0 4) by lia.
    apply wrap_signed_small; [lia|]. change (8 * Z.of_nat 4 - 1) with 31. lia.
  - intros H1 H2. eexists. split; [reflexivity|].
    unfold FlowKey.getSrcIp, FlowKey.getDstIp. cbn [Nat.eqb negb andb].
    split; f_equal.
    + rewrite !read_int_other by (rewrite int_bytes_length; lia).
      rewrite (read_int_write _ 0 4) by lia.
      apply wrap_signed_small; [lia|]. change (8 * Z.of_nat 4 - 1) with 31. lia.
    + rewrite (read_int_write _ 4 4) by lia.
      apply wrap_signed_small; [lia|]. change (8 * Z.of_nat 4 - 1) with 31. lia.
  - intros key_len. unfold FlowKey.new_ip, FlowKey.new_ips, FlowKey.getIp,
      FlowKey.getSrcIp, FlowKey.getDstIp.
    split; [|split].
    + intros Hne. by destruct (Nat.eqb_spec key_len 4).
    + intros Hne. by destruct (Nat.eqb_spec key_len 8).
    + intros Hne8 Hne13.
      by destruct (Nat.eqb_spec key_len 8), (Nat.eqb_spec key_len 13).
Qed.

Section FlowKeyCopy.

Context {key_len other_len : nat}.


End FlowKeyCopy.


(** *** Bits and bytes of [int8_t] *)

Lemma int8_values_spec x : -128 <= x <= 127 -> In x int8_values.
Proof.
  intros Hx. unfold int8_values. apply in_map_iff.
  exists (Z.to_nat (x + 128)). split; [lia|]. apply in_seq. lia.
Qed.

Lemma int8_forall (P : Z -> bool) :
  forallb P int8_values = true -> forall x, -128 <= x <= 127 -> P x = true.
Proof.
  intros Hall x Hx. rewrite forallb_forall in Hall.
  by apply Hall, int8_values_spec.
Qed.

Lemma bit_forall (P : Z -> bool) :
  forallb P [0; 1; 2; 3; 4; 5; 6; 7] = true ->
  forall i, 0 <= i < 8 -> P i = true.
Proof.
  intros Hall i Hi. rewrite forallb_forall in Hall. apply Hall.
  cbn. lia.
Qed.

Lemma int8_range x : -128 <= Int.int8 x <= 127.
Proof.
  pose proof (wrap_signed_range 8 x ltac:(lia)) as Hr.
  change (2 ^ (8 - 1)) with 128 in Hr. unfold Int.int8. lia.
Qed.

Lemma xor_byte_facts x y :
  -128 <= x <= 127 -> -128 <= y <= 127 ->
  Int.int8 (Z.lxor (Int.int8 (Z.lxor x y)) y) = x
  /\ Int.int8 (Z.lxor x x) = 0
  /\ Int.int8 (Z.lxor x y) = Int.int8 (Z.lxor y x).
Proof.
  intros Hx Hy.
  assert (Hall : forallb (fun x =>
                   forallb (fun y =>
                     (Int.int8 (Z.lxor (Int.int8 (Z.lxor x y)) y) =? x)
                     && (Int.int8 (Z.lxor x x) =? 0))
                     int8_values) int8_values = true) by (by vm_compute).
  pose proof (int8_forall _ Hall x Hx) as Hx'. cbn beta in Hx'.
  pose proof (int8_forall _ Hx' y Hy) as Hxy. cbn beta in Hxy.
  apply andb_true_iff in Hxy as [H1 H2].
  split; [lia|]. split; [lia|]. by rewrite Z.lxor_comm.
Qed.

Section FlowKeyBits.

Context {key_len : nat}.
Implicit Types a b k : FlowKey.FlowKey key_len.

Lemma byte_at_ext a b :
  (forall j : nat, (j < key_len)%nat -> FlowKey.byte_at a j = FlowKey.byte_at b j) ->
  a = b.
Proof.
  intros Hall. apply vec_to_list_inj2. apply (nth_ext _ _ 0 0).
  - by rewrite !length_vec_to_list.
  - intros j Hj. rewrite length_vec_to_list in Hj. by apply Hall.
Qed.

Lemma byte_at_valid k (j : nat) :
  key_valid k -> -128 <= FlowKey.byte_at k j <= 127.
Proof.
  intros Hk. rewrite byte_at_lookup.
  destruct (vec_to_list k !! j) as [x|] eqn:E; cbn; [|lia].
  exact (Forall_lookup_1 _ _ _ _ Hk E).
Qed.

Lemma byte_at_xor a b (j : nat) :
  (j < key_len)%nat ->
  FlowKey.byte_at (FlowKey.xor a b) j
  = Int.int8 (Z.lxor (FlowKey.byte_at a j) (FlowKey.byte_at b j)).
Proof.
  intros Hj. rewrite !byte_at_lookup. unfold FlowKey.xor.
  rewrite vec_to_list_zip_with, lookup_zip_with.
  destruct (lookup_lt_is_Some_2 (vec_to_list a) j) as [x ->];
    [by rewrite length_vec_to_list|].
  destruct (lookup_lt_is_Some_2 (vec_to_list b) j) as [y ->];
    [by rewrite length_vec_to_list|].
  done.
Qed.

Lemma byte_at_zero (j : nat) : FlowKey.byte_at (FlowKey.zero_key key_len) j = 0.
Proof.
  rewrite byte_at_lookup. unfold FlowKey.zero_key.
  rewrite vec_to_list_replicate.
  destruct (replicate key_len 0 !! j) as [x|] eqn:E; [|done].
  by apply lookup_replicate in E as [-> _].
Qed.

(** X9.  [operator^=] is its own inverse: xor-ing the same key in twice
    gives the first key back, a key xor-ed with itself is the zero key,
    and the order of the two operands does not matter; the bytes stay
    [int8_t] values. *)
Theorem FlowKey_xor_involution a b :
  key_valid a -> key_valid b ->
  FlowKey.xor (FlowKey.xor a b) b = a
  /\ FlowKey.xor a a = FlowKey.zero_key key_len
  /\ FlowKey.xor a b = FlowKey.xor b a
  /\ key_valid (FlowKey.xor a b).
Proof.
  intros Ha Hb.
  assert (Hfacts := fun j => xor_byte_facts _ _ (byte_at_valid a j Ha)
                               (byte_at_valid b j Hb)).
  split; [|split; [|split]].
  - apply byte_at_ext. intros j Hj. rewrite !byte_at_xor by done.
    apply Hfacts.
  - apply byte_at_ext. intros j Hj. rewrite byte_at_xor, byte_at_zero by done.
    apply (xor_byte_facts _ _ (byte_at_valid a j Ha) (byte_at_valid a j Ha)).
  - apply byte_at_ext. intros j Hj. rewrite !byte_at_xor by done.
    apply Hfacts.
  - unfold key_valid. apply Forall_lookup. intros j x Hx.
    assert (Hj : (j < key_len)%nat).
    { apply lookup_lt_Some in Hx. by rewrite length_vec_to_list in Hx. }
    pose proof (byte_at_xor a b j Hj) as E.
    rewrite (byte_at_lookup (FlowKey.xor a b)), Hx in E. cbn in E.
    rewrite E. apply int8_range.
Qed.

End FlowKeyBits.

Lemma FlowKey_xor_involution_witness :
  FlowKey.xor (FlowKey.xor (FlowKey.of_ip 0x1F1F1) (FlowKey.of_ip (-7)))
    (FlowKey.of_ip (-7))
  = FlowKey.of_ip 0x1F1F1.
Proof.
  apply (FlowKey_xor_involution (FlowKey.of_ip 0x1F1F1) (FlowKey.of_ip (-7)));
    unfold key_valid; vm_compute; repeat constructor; discriminate.
Defined.

Lemma FlowKey_BYTE_BIT pos :
  0 <= FlowKey.BIT pos < 8 /\ pos = 8 * FlowKey.BYTE pos + FlowKey.BIT pos.
Proof.
  unfold FlowKey.BYTE, FlowKey.BIT. rewrite Z.shiftr_div_pow2 by lia.
  change 7 with (Z.ones 3). rewrite Z.land_ones by lia. change (2 ^ 3) with 8.
  pose proof (Z.div_mod pos 8 ltac:(lia)).
  pose proof (Z.mod_pos_bound pos 8 ltac:(lia)). lia.
Qed.

Lemma bit_byte_facts x i i' :
  -128 <= x <= 127 -> 0 <= i < 8 -> 0 <= i' < 8 ->
  let set := Int.int8 (Z.lor x (Z.shiftl 1 i)) in
  let clr := Int.int8 (Z.land x (Z.lnot (Z.shiftl 1 i))) in
  Int.int8 (Z.land (Z.shiftr set i) 1) = 1
  /\ Int.int8 (Z.land (Z.shiftr clr i) 1) = 0
  /\ (i' <> i ->
      Z.land (Z.shiftr set i') 1 = Z.land (Z.shiftr x i') 1
      /\ Z.land (Z.shiftr clr i') 1 = Z.land (Z.shiftr x i') 1).
Proof.
  intros Hx Hi Hi'.
  assert (Hall :
    forallb (fun x =>
      forallb (fun i =>
        let set := Int.int8 (Z.lor x (Z.shiftl 1 i)) in
        let clr := Int.int8 (Z.land x (Z.lnot (Z.shiftl 1 i))) in
        (Int.int8 (Z.land (Z.shiftr set i) 1) =? 1)
        && (Int.int8 (Z.land (Z.shiftr clr i) 1) =? 0)
        && forallb (fun i' =>
             (i' =? i)
             || ((Z.land (Z.shiftr set i') 1 =? Z.land (Z.shiftr x i') 1)
                 && (Z.land (Z.shiftr clr i') 1 =? Z.land (Z.shiftr x i') 1)))
             [0; 1; 2; 3; 4; 5; 6; 7])
        [0; 1; 2; 3; 4; 5; 6; 7]) int8_values = true) by (by vm_compute).
  pose proof (int8_forall _ Hall x Hx) as H1. cbn beta in H1.
  pose proof (bit_forall _ H1 i Hi) as H2. cbn beta zeta in H2.
  apply andb_true_iff in H2 as [H2 H3]. apply andb_true_iff in H2 as [H2 H2'].
  pose proof (bit_forall _ H3 i' Hi') as H4. cbn beta in H4.
  cbn zeta. split; [lia|]. split; [lia|]. intros Hne.
  apply orb_true_iff in H4 as [H4|H4]; [lia|].
  apply andb_true_iff in H4 as [? ?]. lia.
Qed.

Section FlowKeySetBit.

Context {key_len : nat}.
Implicit Types k : FlowKey.FlowKey key_len.

Lemma vec_at_key k B :
  0 <= B < Z.of_nat key_len ->
  vec_at (vec_to_list k) B = Ok (FlowKey.byte_at k (Z.to_nat B)).
Proof.
  intros HB. apply vec_at_Ok. split; [lia|].
  rewrite byte_at_lookup.
  destruct (lookup_lt_is_Some_2 (vec_to_list k) (Z.to_nat B)) as [x ->];
    [rewrite length_vec_to_list; lia|done].
Qed.

Lemma getBit_in_range k pos :
  0 <= pos < 8 * Z.of_nat key_len ->
  FlowKey.getBit k pos
  = Ok (Int.int8 (Z.land (Z.shiftr (FlowKey.byte_at k (Z.to_nat (FlowKey.BYTE pos)))
                            (FlowKey.BIT pos)) 1)).
Proof.
  intros Hpos. destruct (FlowKey_BYTE_BIT pos) as [Hbit Hsplit].
  unfold FlowKey.getBit.
  destruct (Z.leb_spec (Z.of_nat key_len) (FlowKey.BYTE pos)); [lia|].
  rewrite vec_at_key by lia. done.
Qed.

(** X10.  [setBit(pos, one)] followed by [getBit(pos)] returns [one], and
    the bit at every other position reads as before; both throw
    [FlowKeyOutOfRange] for [pos >= 8 * key_len].  A negative [pos] passes
    that check and indexes the key below its first byte. *)
Theorem FlowKey_setBit_getBit k pos one :
  key_valid k ->
  (0 <= pos < 8 * Z.of_nat key_len ->
   exists k',
     FlowKey.setBit k pos one = Ok k'
     /\ key_valid k'
     /\ FlowKey.getBit k' pos = Ok (if one then 1 else 0)
     /\ forall pos', pos' <> pos -> FlowKey.getBit k' pos' = FlowKey.getBit k pos')
  /\ (8 * Z.of_nat key_len <= pos ->
      FlowKey.getBit k pos = Throw out_of_range
      /\ FlowKey.setBit k pos one = Throw out_of_range)
  /\ (pos < 0 ->
      FlowKey.getBit k pos = Throw undefined_behaviour
      /\ FlowKey.setBit k pos one = Throw undefined_behaviour).
Proof.
  intros Hk. destruct (FlowKey_BYTE_BIT pos) as [Hbit Hsplit].
  split; [|split].
  - intros Hpos. unfold FlowKey.setBit.
    destruct (Z.leb_spec (Z.of_nat key_len) (FlowKey.BYTE pos)); [lia|].
    rewrite vec_at_key by lia. cbn [rbind].
    set (B := FlowKey.BYTE pos) in *. set (x := FlowKey.byte_at k (Z.to_nat B)).
    set (x' := if one then _ else _).
    assert (Hx : -128 <= x <= 127) by (by apply byte_at_valid).
    assert (Hx' : -128 <= x' <= 127).
    { subst x'. destruct one; apply int8_range. }
    eexists. split; [reflexivity|].
    assert (Hbyte : forall j : nat,
               FlowKey.byte_at (FlowKey.write_bytes k B [x']) j
               = if decide (Z.of_nat j = B) then x' else FlowKey.byte_at k j).
    { intros j. rewrite byte_at_write. cbn [length].
      destruct (Nat.ltb_spec j key_len); cbn [andb];
        destruct (Z.leb_spec B (Z.of_nat j));
        destruct (Z.ltb_spec (Z.of_nat j) (B + Z.of_nat 1));
        destruct (decide (Z.of_nat j = B)); cbn [andb]; try done; try lia.
      replace (Z.to_nat (Z.of_nat j - B)) with 0%nat by lia. done. }
    split; [|split].
    + apply write_bytes_valid; [done|]. by constructor.
    + rewrite getBit_in_range by done. fold B. rewrite Hbyte.
      destruct (decide (Z.of_nat (Z.to_nat B) = B)); [|lia].
      f_equal. subst x'.
      destruct (bit_byte_facts x (FlowKey.BIT pos) (FlowKey.BIT pos) Hx Hbit Hbit)
        as (H1 & H0 & _).
      by destruct one.
    + intros pos' Hne. destruct (FlowKey_BYTE_BIT pos') as [Hbit' Hsplit'].
      unfold FlowKey.getBit.
      destruct (Z.leb_spec (Z.of_nat key_len) (FlowKey.BYTE pos')); [done|].
      destruct (Z.lt_ge_cases (FlowKey.BYTE pos') 0) as [Hneg|Hnn].
      { unfold vec_at. by destruct (Z.ltb_spec (FlowKey.BYTE pos') 0); [|lia]. }
      rewrite !vec_at_key by lia. cbn [rbind]. rewrite Hbyte. f_equal. f_equal.
      destruct (decide (Z.of_nat (Z.to_nat (FlowKey.BYTE pos')) = B)) as [E|E];
        [|done].
      assert (HB : FlowKey.BYTE pos' = B) by lia. rewrite HB. fold x.
      assert (Hi : FlowKey.BIT pos' <> FlowKey.BIT pos) by (subst B; lia).
      destruct (bit_byte_facts x (FlowKey.BIT pos) (FlowKey.BIT pos') Hx Hbit Hbit')
        as (_ & _ & Hother).
      destruct (Hother Hi) as [Hs Hc]. subst x'. by destruct one.
  - intros Hpos. unfold FlowKey.getBit, FlowKey.setBit.
    by destruct (Z.leb_spec (Z.of_nat key_len) (FlowKey.BYTE pos)); [|lia].
  - intros Hpos. unfold FlowKey.getBit, FlowKey.setBit.
    destruct (Z.leb_spec (Z.of_nat key_len) (FlowKey.BYTE pos)); [lia|].
    unfold vec_at. by destruct (Z.ltb_spec (FlowKey.BYTE pos) 0); [|lia].
Qed.

End FlowKeySetBit.

Lemma FlowKey_setBit_getBit_witness :
  exists k',
    FlowKey.setBit (FlowKey.of_ip 0) 31 true = Ok k'
    /\ key_valid k'
    /\ FlowKey.getBit k' 31 = Ok 1
    /\ forall pos', pos' <> 31 ->
                    FlowKey.getBit k' pos' = FlowKey.getBit (FlowKey.of_ip 0) pos'.
Proof.
  apply (proj1 (FlowKey_setBit_getBit (FlowKey.of_ip 0) 31 true
                  ltac:(unfold key_valid; vm_compute;
                        repeat constructor; discriminate))).
  simpl. lia.
Defined.

(** ** [BloomFilter]: what an insertion changes *)

Section BloomMore.
Context {key_len : nat} {hash_t : Type} `{Hash.HashT hash_t}.
Implicit Types bf : Bloom.BloomFilter (hash_t := hash_t).
Implicit Types k : FlowKey.FlowKey key_len.

Lemma existsb_pointwise {A} (f g : A -> bool) l :
  (forall x, f x = g x) -> existsb f l = existsb g l.
Proof. intros Hfg. induction l as [|x l IH]; cbn; [done|]. by rewrite Hfg, IH. Qed.

Lemma getBit_total bf q :
  bloom_wf bf -> 0 <= q < Bloom.nbits bf -> exists b, Bloom.getBit bf q = Ok b.
Proof.
  intros Hwf Hq. unfold Bloom.getBit.
  destruct (vec_at_in_range (Bloom.arr bf) (Bloom.BYTE q)
              (BYTE_in_array bf q Hwf Hq)) as [x ->].
  cbn [rbind]. eauto.
Qed.

(** Setting a bit changes that bit and no other. *)
Lemma setBit_exact bf pos :
  bloom_wf bf -> 0 <= pos < Bloom.nbits bf ->
  exists bf', Bloom.setBit bf pos = Ok bf'
    /\ bloom_wf bf' /\ same_shape bf bf'
    /\ forall q b, 0 <= q < Bloom.nbits bf ->
         Bloom.getBit bf q = Ok b ->
         Bloom.getBit bf' q = Ok (b || (pos =? q)).
Proof.
  intros Hwf Hp. pose proof (BYTE_in_array bf pos Hwf Hp) as Hbyte.
  destruct (BYTE_BIT_range pos) as (_ & Hbit & Hsplit); [lia|].
  unfold Bloom.setBit.
  destruct (vec_at_in_range (Bloom.arr bf) (Bloom.BYTE pos) Hbyte) as [x Hx].
  rewrite Hx. cbn [rbind]. eexists. split; [reflexivity|].
  split; [|split; [done|]].
  - destruct Hwf. constructor; cbn; try done. by rewrite length_insert.
  - intros q b Hq. unfold Bloom.getBit. cbn [Bloom.arr Bloom.set_arr].
    destruct (BYTE_BIT_range q) as (Hq1 & Hq2 & Hqs); [lia|].
    destruct (decide (Bloom.BYTE pos = Bloom.BYTE q)) as [E|E].
    + rewrite <- E, Hx, vec_at_insert by done. cbn [rbind].
      rewrite !shifted_bit, set_bit_in_byte by lia.
      intros [= <-]. f_equal. f_equal.
      destruct (Z.eqb_spec (Bloom.BIT pos) (Bloom.BIT q));
        destruct (Z.eqb_spec pos q); try done; lia.
    + rewrite vec_at_insert_ne by lia. intros ->. f_equal.
      destruct (Z.eqb_spec pos q) as [->|]; [done|]. by rewrite orb_false_r.
Qed.

Lemma insert_loop_exact bf k idxs :
  bloom_wf bf ->
  (forall i, i ∈ idxs -> 0 <= Z.of_nat i < Bloom.num_hash bf) ->
  exists bf',
    for_loop (fun i bf => let* idx := Bloom.index_of bf i k in Bloom.setBit bf idx)
      idxs bf = Ok bf'
    /\ bloom_wf bf' /\ same_shape bf bf'
    /\ forall q b, 0 <= q < Bloom.nbits bf ->
         Bloom.getBit bf q = Ok b ->
         Bloom.getBit bf' q
         = Ok (b || existsb (fun i =>
                       match Bloom.index_of bf (Z.of_nat i) k with
                       | Ok idx => idx =? q
                       | Throw _ => false
                       end) idxs).
Proof.
  revert bf. induction idxs as [|i idxs IH]; intros bf Hwf Hidx.
  - exists bf. split; [done|]. split; [done|]. split; [done|].
    intros q b _ ->. cbn. by rewrite orb_false_r.
  - cbn [for_loop].
    destruct (index_of_range bf (Z.of_nat i) k Hwf) as (idx & Hi & Hr).
    { apply Hidx. left. }
    rewrite Hi. cbn [rbind].
    destruct (setBit_exact bf idx Hwf Hr) as (bf1 & -> & Hwf1 & Hs1 & Hb1).
    cbn [rbind].
    destruct (IH bf1 Hwf1) as (bf' & Hloop & Hwf' & Hs' & Hb').
    { intros j Hj. destruct Hs1 as (_ & -> & _). apply Hidx. by right. }
    exists bf'. split; [done|]. split; [done|]. split.
    { destruct Hs1 as (? & ? & ? & ?), Hs' as (? & ? & ? & ?).
      repeat split; congruence. }
    intros q b Hq Hb. cbn [existsb]. rewrite Hi.
    rewrite (Hb' q (b || (idx =? q))).
    + f_equal. rewrite <- orb_assoc. f_equal. f_equal.
      apply existsb_pointwise. intros j.
      by rewrite (index_of_same_shape bf bf1).
    + destruct Hs1 as (-> & _). done.
    + by apply Hb1.
Qed.

Lemma BloomFilter_insert_sets_exactly_aux bf k :
  bloom_wf bf ->
  exists bf', Bloom.insert bf k = Ok bf'
    /\ bloom_wf bf' /\ same_shape bf bf'
    /\ forall q b, 0 <= q < Bloom.nbits bf ->
         Bloom.getBit bf q = Ok b ->
         Bloom.getBit bf' q = Ok (b || hits bf k q).
Proof.
  intros Hwf. unfold Bloom.insert, hits.
  apply insert_loop_exact; [done|].
  intros i Hi. unfold upto in Hi. apply elem_of_seq in Hi. lia.
Qed.

(** X12.  [insert] sets exactly the bits the hash functions give the key:
    afterwards a position reads 1 when it read 1 before or is one of the
    key's positions, and reads 0 otherwise; size and hash functions of the
    filter stay as they are. *)
Theorem BloomFilter_insert_sets_exactly bf k :
  bloom_wf bf ->
  exists bf', Bloom.insert bf k = Ok bf'
    /\ bloom_wf bf' /\ same_shape bf bf'
    /\ forall q b, 0 <= q < Bloom.nbits bf ->
         Bloom.getBit bf q = Ok b ->
         Bloom.getBit bf' q = Ok (b || hits bf k q).
Proof. apply BloomFilter_insert_sets_exactly_aux. Qed.

(** Filters of one shape that read alike at every position answer every
    lookup alike. *)
Lemma lookup_same_bits bf1 bf2 k :
  bloom_wf bf1 -> same_shape bf1 bf2 ->
  (forall q, 0 <= q < Bloom.nbits bf1 ->
             Bloom.getBit bf2 q = Bloom.getBit bf1 q) ->
  Bloom.lookup bf2 k = Bloom.lookup bf1 k.
Proof.
  intros Hwf Hs Hbits. unfold Bloom.lookup.
  destruct Hs as (Hn & Hh & Hb & Hf). rewrite Hh.
  assert (Hidx : forall i, i ∈ upto (Bloom.num_hash bf1) ->
                           0 <= Z.of_nat i < Bloom.num_hash bf1).
  { intros i Hi. unfold upto in Hi. apply elem_of_seq in Hi. lia. }
  induction (upto (Bloom.num_hash bf1)) as [|i idxs IH]; [done|].
  cbn [Bloom.lookup_loop].
  rewrite (index_of_same_shape bf1 bf2) by done.
  destruct (index_of_range bf1 (Z.of_nat i) k Hwf) as (idx & -> & Hr).
  { apply Hidx. left. }
  cbn [rbind]. rewrite Hbits by done.
  destruct (Bloom.getBit bf1 idx) as [[|]|]; cbn [rbind negb]; try done.
  apply IH. intros j Hj. apply Hidx. by right.
Qed.

(** X13.  The order of two insertions does not matter, and inserting a
    key again changes nothing: the filters read alike at every position
    and answer every lookup alike. *)
Theorem BloomFilter_insert_order_irrelevant bf k1 k2 :
  bloom_wf bf ->
  exists b1 b12 b21 b11,
    Bloom.insert bf k1 = Ok b1
    /\ Bloom.insert_all bf [k1; k2] = Ok b12
    /\ Bloom.insert_all bf [k2; k1] = Ok b21
    /\ Bloom.insert_all bf [k1; k1] = Ok b11
    /\ (forall q, 0 <= q < Bloom.nbits bf ->
          Bloom.getBit b21 q = Bloom.getBit b12 q
          /\ Bloom.getBit b11 q = Bloom.getBit b1 q)
    /\ (forall k, Bloom.lookup b21 k = Bloom.lookup b12 k
                  /\ Bloom.lookup b11 k = Bloom.lookup b1 k).
Proof.
  intros Hwf. cbn [Bloom.insert_all].
  destruct (BloomFilter_insert_sets_exactly_aux bf k1 Hwf)
    as (b1 & E1 & Hwf1 & Hs1 & Hb1).
  destruct (BloomFilter_insert_sets_exactly_aux bf k2 Hwf)
    as (b2 & E2 & Hwf2 & Hs2 & Hb2).
  destruct (BloomFilter_insert_sets_exactly_aux b1 k2 Hwf1)
    as (b12 & E12 & Hwf12 & Hs12 & Hb12).
  destruct (BloomFilter_insert_sets_exactly_aux b2 k1 Hwf2)
    as (b21 & E21 & Hwf21 & Hs21 & Hb21).
  destruct (BloomFilter_insert_sets_exactly_aux b1 k1 Hwf1)
    as (b11 & E11 & Hwf11 & Hs11 & Hb11).
  exists b1, b12, b21, b11. rewrite E1, E2. cbn [rbind].
  rewrite E12, E21, E11. cbn [rbind].
  do 4 (split; [done|]).
  assert (Hhits : forall (b : Bloom.BloomFilter) k q,
             same_shape bf b -> hits b k q = hits bf k q).
  { intros b k q Hs. unfold hits. destruct Hs as (Hn & Hh & Hbytes & Hf).
    rewrite Hh. apply existsb_pointwise. intros i.
    by rewrite (index_of_same_shape bf b). }
  assert (Hn1 : Bloom.nbits b1 = Bloom.nbits bf) by apply Hs1.
  assert (Hn2 : Bloom.nbits b2 = Bloom.nbits bf) by apply Hs2.
  assert (Hbits : forall q, 0 <= q < Bloom.nbits bf ->
             Bloom.getBit b21 q = Bloom.getBit b12 q
             /\ Bloom.getBit b11 q = Bloom.getBit b1 q).
  { intros q Hq. destruct (getBit_total bf q Hwf Hq) as [b Hb].
    rewrite (Hb12 q _ ltac:(lia) (Hb1 q b Hq Hb)).
    rewrite (Hb21 q _ ltac:(lia) (Hb2 q b Hq Hb)).
    rewrite (Hb11 q _ ltac:(lia) (Hb1 q b Hq Hb)).
    rewrite (Hb1 q b Hq Hb).
    rewrite !(Hhits b1), !(Hhits b2) by done.
    split; f_equal.
    - destruct b, (hits bf k1 q), (hits bf k2 q); done.
    - destruct b, (hits bf k1 q); done. }
  split; [done|]. intros k. split.
  - apply lookup_same_bits; [done| |].
    + destruct Hs1 as (? & ? & ? & ?), Hs2 as (? & ? & ? & ?),
        Hs12 as (? & ? & ? & ?), Hs21 as (? & ? & ? & ?).
      repeat split; congruence.
    + intros q Hq. apply Hbits. destruct Hs1 as (Hn & _), Hs12 as (Hn' & _).
      lia.
  - apply lookup_same_bits; [done|done|].
    intros q Hq. apply Hbits. lia.
Qed.

(** *** The empty filter *)



End BloomMore.


Section BloomConstructor.
Context {key_len : nat} {hash_t : Type} `{Hash.HashT hash_t}.


End BloomConstructor.

Lemma BloomFilter_insert_sets_exactly_witness :
  exists bf',
    Bloom.insert example_filter (FlowKey.of_ip 5) = Ok bf'
    /\ bloom_wf bf' /\ same_shape example_filter bf'
    /\ forall q b, 0 <= q < Bloom.nbits example_filter ->
         Bloom.getBit example_filter q = Ok b ->
         Bloom.getBit bf' q = Ok (b || hits example_filter (FlowKey.of_ip 5) q).
Proof.
  apply (BloomFilter_insert_sets_exactly example_filter (FlowKey.of_ip 5)).
  apply (BloomFilter_new_wf 10 3
           (fun i => Hash.AwareHash_new 7 (3 * Z.of_nat i))).
  - by vm_compute.
  - by vm_compute.
Defined.

Lemma BloomFilter_insert_order_irrelevant_witness :
  exists b1 b12 b21 b11,
    Bloom.insert example_filter (FlowKey.of_ip 5) = Ok b1
    /\ Bloom.insert_all example_filter [FlowKey.of_ip 5; FlowKey.of_ip 77]
       = Ok b12
    /\ Bloom.insert_all example_filter [FlowKey.of_ip 77; FlowKey.of_ip 5]
       = Ok b21
    /\ Bloom.insert_all example_filter [FlowKey.of_ip 5; FlowKey.of_ip 5]
       = Ok b11
    /\ (forall q, 0 <= q < Bloom.nbits example_filter ->
          Bloom.getBit b21 q = Bloom.getBit b12 q
          /\ Bloom.getBit b11 q = Bloom.getBit b1 q)
    /\ (forall k : FlowKey.FlowKey 4,
          Bloom.lookup b21 k = Bloom.lookup b12 k
          /\ Bloom.lookup b11 k = Bloom.lookup b1 k).
Proof.
  apply (BloomFilter_insert_order_irrelevant example_filter
           (FlowKey.of_ip 5) (FlowKey.of_ip 77)).
  apply (BloomFilter_new_wf 10 3
           (fun i => Hash.AwareHash_new 7 (3 * Z.of_nat i))).
  - by vm_compute.
  - by vm_compute.
Defined.

(** ** [CounterHierarchy]: cached reads, [clear], the last layer *)

Section HierarchyMore.
Context {hash_t : Type} `{Hash.HashT hash_t}.
Variable no_layer : Z.
Variable Tbits : Z.
Variable lscg_solve :
  Z -> Z -> list (Z * Z) -> list Double.double -> list Double.double.
Implicit Types ch : Hierarchy.CounterHierarchy (hash_t := hash_t).

(** Flushing and decoding leave the layer sizes alone. *)
Lemma updateLayer_step_no_cnt layer st kv st' :
  Hierarchy.updateLayer_step no_layer Tbits layer st kv = Ok st' ->
  Hierarchy.no_cnt st'.2 = Hierarchy.no_cnt st.2.
Proof.
  unfold Hierarchy.updateLayer_step.
  destruct (vec_at (Hierarchy.cnt_array st.2) layer) as [row|]; [|done].
  cbn [rbind]. destruct (vec_at row kv.1) as [c|]; [|done]. cbn [rbind].
  destruct (Util.add Tbits c kv.2) as [oc|]; [|done]. cbn [rbind].
  destruct (oc.1 =? 0); [by intros [= <-]|].
  destruct (layer =? no_layer - 1); [done|].
  match goal with
  | |- (let* nh := ?X in _) = _ -> _ => destruct X as [nh|]; [|done]
  end.
  cbn [rbind].
  match goal with
  | |- (let* ret := ?X in _) = _ -> _ => destruct X as [ret|]; [|done]
  end.
  cbn [rbind]. by intros [= <-].
Qed.

Lemma updateLayer_loop_no_cnt layer ups st st' :
  Hierarchy.updateLayer_loop no_layer Tbits layer ups st = Ok st' ->
  Hierarchy.no_cnt st'.2 = Hierarchy.no_cnt st.2.
Proof.
  revert st. induction ups as [|kv ups IH]; intros st; cbn.
  - by intros [= <-].
  - destruct (Hierarchy.updateLayer_step no_layer Tbits layer st kv)
      as [st1|] eqn:E; [|done].
    cbn [rbind]. intros Hl. rewrite (IH _ Hl).
    by eapply updateLayer_step_no_cnt.
Qed.

Lemma flush_no_cnt ch ch' :
  Hierarchy.flush no_layer Tbits ch = Ok ch' ->
  Hierarchy.no_cnt ch' = Hierarchy.no_cnt ch
  /\ Hierarchy.lazy_update ch' = [].
Proof.
  unfold Hierarchy.flush.
  assert (Hloop : forall idxs (st st' : Hierarchy.CarryOver * _),
    for_loop (fun i (st : Hierarchy.CarryOver * Hierarchy.CounterHierarchy) =>
                Hierarchy.updateLayer no_layer Tbits st.2 i st.1) idxs st
    = Ok st' ->
    Hierarchy.no_cnt st'.2 = Hierarchy.no_cnt st.2).
  { induction idxs as [|i idxs IH]; intros st st'; cbn [for_loop].
    - by intros [= <-].
    - destruct (Hierarchy.updateLayer no_layer Tbits st.2 (Z.of_nat i) st.1)
        as [st1|] eqn:E; [|done].
      cbn [rbind]. intros Hl. rewrite (IH _ _ Hl).
      apply updateLayer_loop_no_cnt in E. exact E. }
  match goal with
  | |- (let* st := ?X in _) = _ -> _ => destruct X as [st|] eqn:E; [|done]
  end.
  cbn [rbind]. intros [= <-]. apply Hloop in E. done.
Qed.

Lemma decode_no_cnt ch ch' :
  Hierarchy.decode no_layer Tbits lscg_solve ch = Ok ch' ->
  Hierarchy.no_cnt ch' = Hierarchy.no_cnt ch
  /\ Hierarchy.lazy_update ch' = Hierarchy.lazy_update ch.
Proof.
  unfold Hierarchy.decode.
  destruct (vec_at (Hierarchy.no_cnt ch) _) as [m|]; [|done]. cbn [rbind].
  match goal with
  | |- (let* top := ?X in _) = _ -> _ => destruct X as [top|]; [|done]
  end.
  cbn [rbind].
  match goal with
  | |- (let* d := ?X in _) = _ -> _ => destruct X as [d|]; [|done]
  end.
  cbn [rbind]. by intros [= <-].
Qed.

(** What a [getCnt] that returns leaves behind. *)
Lemma getCnt_Ok_inv ch index v ch' :
  Hierarchy.getCnt no_layer Tbits lscg_solve ch index = Ok (v, ch') ->
  exists m d,
    vec_at (Hierarchy.no_cnt ch) 0 = Ok m /\ index < m
    /\ Hierarchy.no_cnt ch' = Hierarchy.no_cnt ch
    /\ Hierarchy.lazy_update ch' = []
    /\ vec_at (Hierarchy.decoded_cnt ch') index = Ok d
    /\ Double.to_signed Tbits d = Ok v.
Proof.
  unfold Hierarchy.getCnt.
  destruct (vec_at (Hierarchy.no_cnt ch) 0) as [m|] eqn:Em; [|done].
  cbn [rbind]. destruct (Z.leb_spec m index); [done|].
  assert (Hstate : forall ch1,
    match Hierarchy.lazy_update ch with
    | [] => Ok ch
    | _ :: _ =>
        let* ch1 := Hierarchy.flush no_layer Tbits ch in
        Hierarchy.decode no_layer Tbits lscg_solve ch1
    end = Ok ch1 ->
    Hierarchy.no_cnt ch1 = Hierarchy.no_cnt ch
    /\ Hierarchy.lazy_update ch1 = []).
  { intros ch1. destruct (Hierarchy.lazy_update ch) eqn:El.
    - by intros [= <-].
    - destruct (Hierarchy.flush no_layer Tbits ch) as [ch2|] eqn:Ef; [|done].
      cbn [rbind]. intros Hd. apply flush_no_cnt in Ef as [? ?].
      apply decode_no_cnt in Hd as [? ?]. split; congruence. }
  match goal with
  | |- (let* ch' := ?X in _) = _ -> _ => destruct X as [ch1|]; [|done]
  end.
  destruct (Hstate ch1 eq_refl) as [Hm Hl]. cbn [rbind].
  destruct (vec_at (Hierarchy.decoded_cnt ch1) index) as [d|] eqn:Ed; [|done].
  cbn [rbind].
  destruct (Double.to_signed Tbits d) as [v'|] eqn:Ev; [|done].
  cbn [rbind]. intros [= <- <-]. by exists m, d.
Qed.

(** X15.  A [getCnt] that returns leaves nothing pending, so reading the
    same counter again returns the same value, and no later [getCnt]
    changes the hierarchy until the next [updateCnt]: the reads are
    served from the decoded values. *)
Theorem CounterHierarchy_getCnt_cached ch index v ch' :
  Hierarchy.getCnt no_layer Tbits lscg_solve ch index = Ok (v, ch') ->
  Hierarchy.lazy_update ch' = []
  /\ Hierarchy.getCnt no_layer Tbits lscg_solve ch' index = Ok (v, ch')
  /\ forall j r,
       Hierarchy.getCnt no_layer Tbits lscg_solve ch' j = Ok r -> r.2 = ch'.
Proof.
  intros Hget.
  destruct (getCnt_Ok_inv _ _ _ _ Hget) as (m & d & Em & Hi & Hm & Hl & Ed & Ev).
  split; [done|]. split.
  - unfold Hierarchy.getCnt. rewrite Hm, Em. cbn [rbind].
    destruct (Z.leb_spec m index); [lia|]. rewrite Hl. cbn [rbind].
    rewrite Ed. cbn [rbind]. by rewrite Ev.
  - intros j r. unfold Hierarchy.getCnt. rewrite Hm, Em. cbn [rbind].
    destruct (m <=? j); [done|]. rewrite Hl. cbn [rbind].
    destruct (vec_at (Hierarchy.decoded_cnt ch') j) as [dj|]; [|done].
    cbn [rbind]. destruct (Double.to_signed Tbits dj); [|done].
    cbn [rbind]. by intros [= <-].
Qed.

(** X16.  [clear] resets the shadow counters but not the decoded values:
    after a read of counter [index] that returned [v], clearing the
    hierarchy leaves [getOriginalCnt(index)] at 0 while [getCnt(index)]
    still returns [v]. *)
Theorem CounterHierarchy_clear_keeps_decoded ch index v ch1 ch2 :
  Hierarchy.getCnt no_layer Tbits lscg_solve ch index = Ok (v, ch1) ->
  Hierarchy.clear Tbits ch1 = Ok ch2 ->
  Hierarchy.getCnt no_layer Tbits lscg_solve ch2 index = Ok (v, ch2)
  /\ Hierarchy.getOriginalCnt ch2 index = Ok 0
  /\ Hierarchy.lazy_update ch2 = [].
Proof.
  intros Hget.
  destruct (getCnt_Ok_inv _ _ _ _ Hget) as (m & d & Em & Hi & Hm & Hl & Ed & Ev).
  unfold Hierarchy.clear.
  destruct (Hierarchy.new_counters Tbits _ _) as [cnts|]; [|done].
  cbn [rbind]. intros [= <-].
  unfold Hierarchy.getCnt, Hierarchy.getOriginalCnt.
  cbn [Hierarchy.no_cnt Hierarchy.lazy_update Hierarchy.decoded_cnt
       Hierarchy.original_cnt].
  rewrite Hm, Em. cbn [rbind]. destruct (Z.leb_spec m index); [lia|].
  cbn [rbind Hierarchy.decoded_cnt]. rewrite Ed. cbn [rbind]. rewrite Ev.
  cbn [rbind]. split; [done|]. split; [|done].
  apply vec_at_Ok in Ed as [Hi0 _]. apply vec_at_Ok in Em as [_ Em].
  change (Z.to_nat 0) with 0%nat in Em.
  apply vec_at_Ok. split; [done|]. apply lookup_replicate. split; [done|].
  destruct (Hierarchy.no_cnt ch) as [|m' ms]; [done|].
  cbn in Em. injection Em as ->. cbn. lia.
Qed.




End HierarchyMore.

Section HierarchyLastLayer.
Context {hash_t : Type} `{Hash.HashT hash_t}.
Variable Tbits : Z.
Variable lscg_solve :
  Z -> Z -> list (Z * Z) -> list Double.double -> list Double.double.
Implicit Types ch : Hierarchy.CounterHierarchy (hash_t := hash_t).



End HierarchyLastLayer.

Section HierarchyConstructor.
Context {hash_t : Type} `{Hash.HashT hash_t}.
Variable no_layer : Z.
Variable Tbits : Z.
Variable lscg_solve :
  Z -> Z -> list (Z * Z) -> list Double.double -> list Double.double.
Implicit Types ch : Hierarchy.CounterHierarchy (hash_t := hash_t).

Lemma existsb_zero (l : list Z) :
  existsb (Z.eqb 0) l = false <-> Forall (fun x => x <> 0) l.
Proof.
  induction l as [|x l IH]; cbn [existsb]; [by split|].
  rewrite orb_false_iff, IH, Forall_cons. destruct (Z.eqb_spec 0 x); split;
    intros [? ?]; split; first [done | lia | exfalso; lia].
Qed.

(** The loop over [width_cnt] accepts exactly the widths that sum to at
    most the bits of [T]. *)
Lemma check_widths_spec (ws : list Z) acc :
  0 <= acc <= Tbits -> Tbits <= 64 ->
  Forall (fun w => 0 <= w < 2 ^ 64) ws ->
  fold_left (fun (r : result Z) i =>
               let* length := r in
               let tmp := Int.size_t (length + i) in
               if (tmp <? length) || (Tbits <? tmp)
               then Throw invalid_argument else Ok tmp)
    ws (Ok acc)
  = if acc + foldr Z.add 0 ws <=? Tbits
    then Ok (acc + foldr Z.add 0 ws) else Throw invalid_argument.
Proof.
  intros Hacc HT Hws. revert acc Hacc.
  induction Hws as [|w ws Hw Hws IH]; intros acc Hacc; cbn [fold_left foldr].
  - rewrite Z.add_0_r. destruct (Z.leb_spec acc Tbits); [done|lia].
  - assert (Hsum : 0 <= foldr Z.add 0 ws).
    { clear IH. induction Hws as [|x xs Hx _ IHx]; cbn; lia. }
    assert (Hthrow : forall l,
      fold_left (fun (r : result Z) i =>
               let* length := r in
               let tmp := Int.size_t (length + i) in
               if (tmp <? length) || (Tbits <? tmp)
               then Throw invalid_argument else Ok tmp)
        l (Throw invalid_argument) = Throw invalid_argument).
    { induction l as [|x l IHl]; [done|]. cbn. exact IHl. }
    cbn [rbind]. unfold Int.size_t, Int.wrap_unsigned.
    destruct (Z.lt_ge_cases (acc + w) (2 ^ 64)) as [Hlt|Hge].
    + rewrite Z.mod_small by lia.
      destruct (Z.ltb_spec (acc + w) acc); [lia|]. cbn [orb].
      destruct (Z.ltb_spec Tbits (acc + w)).
      * rewrite Hthrow.
        destruct (Z.leb_spec (acc + (w + foldr Z.add 0 ws)) Tbits); [lia|done].
      * rewrite IH by lia. by rewrite Z.add_assoc.
    + assert (Hm : (acc + w) mod 2 ^ 64 = acc + w - 2 ^ 64).
      { symmetry. apply (Z.mod_unique_pos _ _ 1); lia. }
      rewrite Hm. destruct (Z.ltb_spec (acc + w - 2 ^ 64) acc); [|lia].
      cbn [orb]. rewrite Hthrow.
      destruct (Z.leb_spec (acc + (w + foldr Z.add 0 ws)) Tbits); [lia|done].
Qed.

Lemma new_counters_Ok (no_cnt width_cnt : list Z) :
  length no_cnt = length width_cnt ->
  Forall (fun w => w <> 0 /\ w < Int.size_t (Tbits - 1)) width_cnt ->
  Hierarchy.new_counters Tbits no_cnt width_cnt
  = Ok (zip_with (fun m w =>
                    replicate (Z.to_nat m)
                      {| Util.counter := 0; Util.bits := w |})
          no_cnt width_cnt).
Proof.
  revert width_cnt. induction no_cnt as [|m no_cnt IH];
    intros [|w width_cnt] Hlen Hall; try done; cbn [Hierarchy.new_counters].
  apply Forall_cons in Hall as [[Hw0 Hw] Hall].
  unfold Util.DynamicIntX_new.
  destruct (Z.eqb_spec w 0); [done|].
  destruct (Z.leb_spec (Int.size_t (Tbits - 1)) w); [lia|].
  cbn [orb rbind]. rewrite IH; [done|by injection Hlen|done].
Qed.

Lemma new_counters_Throw (no_cnt width_cnt : list Z) :
  length no_cnt = length width_cnt ->
  Exists (fun w => w = 0 \/ Int.size_t (Tbits - 1) <= w) width_cnt ->
  Hierarchy.new_counters Tbits no_cnt width_cnt = Throw length_error.
Proof.
  revert width_cnt. induction no_cnt as [|m no_cnt IH];
    intros [|w width_cnt] Hlen Hex; try done; cbn [Hierarchy.new_counters].
  - by apply Exists_nil in Hex.
  - unfold Util.DynamicIntX_new.
    destruct (Z.eqb_spec w 0); [done|].
    destruct (Z.leb_spec (Int.size_t (Tbits - 1)) w); [done|].
    cbn [orb rbind]. apply Exists_cons in Hex as [Hex|Hex]; [lia|].
    rewrite IH; [done|by injection Hlen|done].
Qed.

(** X18.  The constructor of a hierarchy over a [T] of 2 to 64 bits:
    arguments that fail the validity check throw [invalid_argument];
    arguments that pass it but hold a width of [Tbits - 1] or more throw
    [length_error], from the constructor of the counters; all others
    build a hierarchy every counter of which reads 0. *)
Theorem CounterHierarchy_new_outcomes no_cnt width_cnt no_hash new_hash :
  2 <= Tbits <= 64 ->
  Forall (fun w => 0 <= w < 2 ^ 64) width_cnt ->
  (~ valid_arguments no_layer Tbits no_cnt width_cnt no_hash ->
   Hierarchy.CounterHierarchy_new no_layer Tbits no_cnt width_cnt no_hash
     new_hash = Throw invalid_argument)
  /\ (valid_arguments no_layer Tbits no_cnt width_cnt no_hash ->
      Exists (fun w => Tbits - 1 <= w) width_cnt ->
      Hierarchy.CounterHierarchy_new no_layer Tbits no_cnt width_cnt no_hash
        new_hash = Throw length_error)
  /\ (valid_arguments no_layer Tbits no_cnt width_cnt no_hash ->
      Forall (fun w => w < Tbits - 1) width_cnt ->
      exists ch,
        Hierarchy.CounterHierarchy_new no_layer Tbits no_cnt width_cnt no_hash
          new_hash = Ok ch
        /\ forall index, 0 <= index < nth 0 no_cnt 0 ->
             Hierarchy.getCnt no_layer Tbits lscg_solve ch index = Ok (0, ch)
             /\ Hierarchy.getOriginalCnt ch index = Ok 0).
Proof.
  intros HT Hws.
  assert (HsT : Int.size_t (Tbits - 1) = Tbits - 1).
  { unfold Int.size_t, Int.wrap_unsigned. apply Z.mod_small. lia. }
  pose proof (check_widths_spec width_cnt 0 ltac:(lia) ltac:(lia) Hws) as Hcw.
  rewrite Z.add_0_l in Hcw.
  change (fold_left _ _ _) with (Hierarchy.check_widths Tbits width_cnt) in Hcw.
  split; [|split].
  - intros Hbad. unfold Hierarchy.CounterHierarchy_new.
    destruct (Z.ltb_spec no_layer 1); [done|].
    destruct (Z.eqb_spec (Z.of_nat (length no_cnt)) no_layer); [|done].
    destruct (Z.eqb_spec (Z.of_nat (length width_cnt)) no_layer); [|done].
    destruct (Z.eqb_spec (Z.of_nat (length no_hash)) (no_layer - 1)); [|done].
    cbn [negb].
    destruct (existsb (Z.eqb 0) no_cnt) eqn:E1; [done|].
    destruct (existsb (Z.eqb 0) width_cnt) eqn:E2; [done|].
    destruct (existsb (Z.eqb 0) no_hash) eqn:E3; [done|].
    apply existsb_zero in E1, E2, E3. rewrite Hcw.
    destruct (Z.leb_spec (foldr Z.add 0 width_cnt) Tbits); [|done].
    destruct Hbad. unfold valid_arguments. repeat split; try done; lia.
  - intros (Hn & Hl1 & Hl2 & Hl3 & H1 & H2 & H3 & Hsum) Hex.
    unfold Hierarchy.CounterHierarchy_new.
    destruct (Z.ltb_spec no_layer 1); [lia|].
    destruct (Z.eqb_spec (Z.of_nat (length no_cnt)) no_layer); [|done].
    destruct (Z.eqb_spec (Z.of_nat (length width_cnt)) no_layer); [|done].
    destruct (Z.eqb_spec (Z.of_nat (length no_hash)) (no_layer - 1)); [|done].
    cbn [negb]. apply existsb_zero in H1, H2, H3. rewrite H1, H2, H3, Hcw.
    destruct (Z.leb_spec (foldr Z.add 0 width_cnt) Tbits); [|lia].
    cbn [rbind]. rewrite new_counters_Throw; [done|lia|].
    eapply Exists_impl; [exact Hex|]. cbn. intros w Hw. right. lia.
  - intros (Hn & Hl1 & Hl2 & Hl3 & H1 & H2 & H3 & Hsum) Hall.
    eexists. split.
    + unfold Hierarchy.CounterHierarchy_new.
      destruct (Z.ltb_spec no_layer 1); [lia|].
      destruct (Z.eqb_spec (Z.of_nat (length no_cnt)) no_layer); [|done].
      destruct (Z.eqb_spec (Z.of_nat (length width_cnt)) no_layer); [|done].
      destruct (Z.eqb_spec (Z.of_nat (length no_hash)) (no_layer - 1)); [|done].
      cbn [negb]. pose proof H1 as H1'. pose proof H2 as H2'.
      pose proof H3 as H3'.
      apply existsb_zero in H1', H2', H3'. rewrite H1', H2', H3', Hcw.
      destruct (Z.leb_spec (foldr Z.add 0 width_cnt) Tbits); [|lia].
      cbn [rbind]. rewrite new_counters_Ok; [done|lia|].
      rewrite HsT. apply Forall_and. by split.
    + intros index Hi.
      unfold Hierarchy.getCnt, Hierarchy.getOriginalCnt.
      cbn [Hierarchy.no_cnt Hierarchy.lazy_update Hierarchy.decoded_cnt
           Hierarchy.original_cnt].
      destruct no_cnt as [|m ms]; [cbn in Hi; lia|]. cbn [nth] in *.
      rewrite vec_at_head. cbn [rbind].
      destruct (Z.leb_spec m index); [lia|].
      cbn [rbind Hierarchy.decoded_cnt].
      replace (vec_at (replicate (Z.to_nat m) Double.zero) index)
        with (Ok (A := Double.double) Double.zero).
      2:{ symmetry. apply vec_at_Ok. split; [lia|].
          apply lookup_replicate. split; [done|lia]. }
      cbn [rbind]. change Double.zero with (Double.of_Z 0).
      rewrite to_signed_of_Z.
      * cbn [rbind]. split; [done|]. apply vec_at_Ok. split; [lia|].
        apply lookup_replicate. split; [done|lia].
      * lia.
      * apply Z.pow_pos_nonneg; lia.
Qed.

End HierarchyConstructor.

Section HierarchyUpdates.
Context {hash_t : Type} `{Hash.HashT hash_t}.
Variable no_layer : Z.
Variable Tbits : Z.
Variable lscg_solve :
  Z -> Z -> list (Z * Z) -> list Double.double -> list Double.double.
Implicit Types ch : Hierarchy.CounterHierarchy (hash_t := hash_t).

(** A run of [updateCnt] calls with indices below [m]. *)
Lemma updateCnt_run (ups : list (Z * Z)) ch m ms :
  Hierarchy.no_cnt ch = m :: ms ->
  Z.of_nat (length (Hierarchy.original_cnt ch)) = m ->
  StronglySorted Z.lt (map fst (Hierarchy.lazy_update ch)) ->
  Forall (fun kv => 0 <= kv.1 < m) ups ->
  exists ch',
    Hierarchy.run_quiet no_layer Tbits lscg_solve
      (map (fun kv => Hierarchy.UpdateCnt kv.1 kv.2) ups) ch = Some ch'
    /\ Hierarchy.no_cnt ch' = Hierarchy.no_cnt ch
    /\ Hierarchy.cnt_array ch' = Hierarchy.cnt_array ch
    /\ Hierarchy.status_bits ch' = Hierarchy.status_bits ch
    /\ Hierarchy.decoded_cnt ch' = Hierarchy.decoded_cnt ch
    /\ forall j o, 0 <= j -> Hierarchy.getOriginalCnt ch j = Ok o ->
         let step acc (kv : Z * Z) :=
           if kv.1 =? j then Util.wrapT Tbits (acc + kv.2) else acc in
         Hierarchy.getOriginalCnt ch' j = Ok (fold_left step ups o)
         /\ co_get (Hierarchy.lazy_update ch') j
            = fold_left step ups (co_get (Hierarchy.lazy_update ch) j).
Proof.
  intros Hm Hlen Hs Hups. revert ch Hm Hlen Hs.
  induction Hups as [|[k v] ups Hk Hups IH]; intros ch Hm Hlen Hs.
  - exists ch. cbn. repeat split; done.
  - cbn [map Hierarchy.run_quiet fst snd] in *.
    destruct (vec_at_in_range (Hierarchy.original_cnt ch) k) as [o Ho]; [lia|].
    destruct (Hierarchy.updateCnt Tbits ch k v) as [ch1|] eqn:Eu.
    2:{ revert Eu. unfold Hierarchy.updateCnt. rewrite Hm, vec_at_head.
        cbn [rbind]. destruct (Z.leb_spec m k); [lia|]. by rewrite Ho. }
    pose proof Eu as Eu'. revert Eu'. unfold Hierarchy.updateCnt.
    rewrite Hm, vec_at_head. cbn [rbind]. destruct (Z.leb_spec m k); [lia|].
    rewrite Ho. cbn [rbind]. intros [= Hch1].
    destruct (IH ch1) as (ch' & Hrun & Hn & Hc & Hst & Hd & Hval).
    { by rewrite <- Hch1. }
    { rewrite <- Hch1. cbn. by rewrite length_insert. }
    { rewrite <- Hch1. cbn. by apply co_add_sorted. }
    assert (Hf : Hierarchy.no_cnt ch1 = Hierarchy.no_cnt ch
                 /\ Hierarchy.cnt_array ch1 = Hierarchy.cnt_array ch
                 /\ Hierarchy.status_bits ch1 = Hierarchy.status_bits ch
                 /\ Hierarchy.decoded_cnt ch1 = Hierarchy.decoded_cnt ch
                 /\ Hierarchy.lazy_update ch1
                    = Hierarchy.co_add Tbits (Hierarchy.lazy_update ch) k v)
      by (by rewrite <- Hch1).
    destruct Hf as (F1 & F2 & F3 & F4 & F5).
    exists ch'. split; [done|].
    split; [congruence|]. split; [congruence|]. split; [congruence|].
    split; [congruence|].
    intros j oj Hj Hoj. cbn zeta.
    destruct (Hval j (if k =? j then Util.wrapT Tbits (oj + v) else oj) Hj)
      as [Ha Hb].
    { rewrite (updateCnt_original Tbits ch k v ch1 j Eu Hj), Hoj. done. }
    cbn zeta in Ha, Hb. cbn [fold_left fst snd]. split; [exact Ha|].
    rewrite Hb, F5, co_get_add by done. rewrite (Z.eqb_sym j k).
    by destruct (Z.eqb_spec k j) as [->|].
Qed.

(** X19.  [updateCnt] only records: on a new hierarchy, any number of
    updates with indices below [no_cnt[0]] returns normally, leaves the
    counters, status bits and decoded values as constructed, and both
    [getOriginalCnt(j)] and the pending [lazy_update[j]] hold the sum in
    [T] of the updates to [j].  An index of [no_cnt[0]] or more makes
    [updateCnt] and [getCnt] throw [out_of_range]. *)
Theorem CounterHierarchy_updateCnt_deferred
  no_cnt width_cnt no_hash new_hash ch ups :
  Hierarchy.CounterHierarchy_new no_layer Tbits no_cnt width_cnt no_hash
    new_hash = Ok ch ->
  Forall (fun kv => 0 <= kv.1 < nth 0 no_cnt 0) ups ->
  let calls := map (fun kv => Hierarchy.UpdateCnt kv.1 kv.2) ups in
  exists ch',
    Hierarchy.run_quiet no_layer Tbits lscg_solve calls ch = Some ch'
    /\ Hierarchy.cnt_array ch' = Hierarchy.cnt_array ch
    /\ Hierarchy.status_bits ch' = Hierarchy.status_bits ch
    /\ Hierarchy.decoded_cnt ch' = Hierarchy.decoded_cnt ch
    /\ (forall j, 0 <= j < nth 0 no_cnt 0 ->
          Hierarchy.getOriginalCnt ch' j = Ok (Hierarchy.shadow Tbits calls j)
          /\ co_get (Hierarchy.lazy_update ch') j
             = Hierarchy.shadow Tbits calls j)
    /\ (forall index val, nth 0 no_cnt 0 <= index ->
          Hierarchy.updateCnt Tbits ch' index val = Throw out_of_range
          /\ Hierarchy.getCnt no_layer Tbits lscg_solve ch' index
             = Throw out_of_range).
Proof.
  intros Hnew Hups calls.
  apply CounterHierarchy_new_inv in Hnew
    as (Hn & Hl1 & Hl2 & Hl3 & Hm0 & Hwr & ->).
  destruct no_cnt as [|m ms]; [cbn in Hl1; lia|]. cbn [nth] in *.
  match goal with
  | |- context [Hierarchy.run_quiet _ _ _ _ ?c] => set (ch := c)
  end.
  assert (Hout : forall ch',
    Hierarchy.no_cnt ch' = m :: ms ->
    forall index val, m <= index ->
      Hierarchy.updateCnt Tbits ch' index val = Throw out_of_range
      /\ Hierarchy.getCnt no_layer Tbits lscg_solve ch' index
         = Throw out_of_range).
  { intros ch' E index val Hi. unfold Hierarchy.updateCnt, Hierarchy.getCnt.
    rewrite E, vec_at_head. cbn [rbind].
    destruct (Z.leb_spec m index); [done|lia]. }
  destruct (Z.le_gt_cases m 0) as [Hle|Hpos].
  { destruct ups as [|[k v] ups].
    - exists ch. split; [done|]. do 3 (split; [done|]). split.
      + intros j Hj. lia.
      + by apply Hout.
    - apply Forall_cons in Hups as [Hk _]. cbn in Hk. lia. }
  destruct (updateCnt_run ups ch m ms) as (ch' & Hrun & Hcnt & Hc & Hst & Hd & Hval);
    [done|cbn; rewrite length_replicate; lia|constructor|done|].
  exists ch'. split; [done|]. do 3 (split; [done|]). split.
  - intros j Hj. destruct (Hval j 0) as [Ha Hb]; [lia| |].
    { apply vec_at_Ok. split; [lia|]. apply lookup_replicate. split; [done|lia]. }
    cbn zeta in Ha, Hb. change (co_get (Hierarchy.lazy_update ch) j) with 0 in Hb.
    assert (Hsh : forall a,
      fold_left (fun acc (kv : Z * Z) =>
                   if kv.1 =? j then Util.wrapT Tbits (acc + kv.2) else acc)
        ups a
      = fold_left (fun acc c =>
                     match c with
                     | Hierarchy.UpdateCnt i val =>
                         if i =? j then Util.wrapT Tbits (acc + val) else acc
                     | Hierarchy.GetCnt _ => acc
                     end) calls a).
    { unfold calls. clear. induction ups as [|[k v] ups IH]; intros a; [done|].
      cbn. apply IH. }
    unfold Hierarchy.shadow. rewrite <- Hsh. by split.
  - apply Hout. by rewrite Hcnt.
Qed.

End HierarchyUpdates.

Lemma CounterHierarchy_getCnt_cached_witness :
  Hierarchy.lazy_update example_read = []
  /\ Hierarchy.getCnt 3 32 no_solver example_read 3 = Ok (1020, example_read)
  /\ forall j r,
       Hierarchy.getCnt 3 32 no_solver example_read j = Ok r ->
       r.2 = example_read.
Proof.
  apply (CounterHierarchy_getCnt_cached 3 32 no_solver example_after 3).
  by vm_compute.
Defined.

Lemma CounterHierarchy_clear_keeps_decoded_witness :
  Hierarchy.getCnt 3 32 no_solver example_cleared 3
  = Ok (1020, example_cleared)
  /\ Hierarchy.getOriginalCnt example_cleared 3 = Ok 0
  /\ Hierarchy.lazy_update example_cleared = [].
Proof.
  apply (CounterHierarchy_clear_keeps_decoded 3 32 no_solver
           example_after 3 1020 example_read example_cleared).
  - by vm_compute.
  - by vm_compute.
Defined.


Lemma CounterHierarchy_new_outcomes_witness :
  Hierarchy.CounterHierarchy_new 1 32 [2] [31] [] (fun _ _ => Hash.gen_hash)
  = Throw length_error.
Proof.
  apply (proj1 (proj2 (CounterHierarchy_new_outcomes 1 32 no_solver
                         [2] [31] [] (fun _ _ => Hash.gen_hash)
                         ltac:(lia) ltac:(repeat constructor; lia)))).
  - unfold valid_arguments. cbn. repeat split; try lia; repeat constructor; lia.
  - constructor. lia.
Defined.

Lemma CounterHierarchy_updateCnt_deferred_witness :
  let calls :=
    map (fun kv : Z * Z => Hierarchy.UpdateCnt kv.1 kv.2)
      [(1, 5); (1, -2); (3, 1000)] in
  exists ch',
    Hierarchy.run_quiet 3 32 no_solver calls example_hierarchy = Some ch'
    /\ Hierarchy.cnt_array ch' = Hierarchy.cnt_array example_hierarchy
    /\ Hierarchy.status_bits ch' = Hierarchy.status_bits example_hierarchy
    /\ Hierarchy.decoded_cnt ch' = Hierarchy.decoded_cnt example_hierarchy
    /\ (forall j, 0 <= j < nth 0 [7; 5; 3] 0 ->
          Hierarchy.getOriginalCnt ch' j = Ok (Hierarchy.shadow 32 calls j)
          /\ co_get (Hierarchy.lazy_update ch') j
             = Hierarchy.shadow 32 calls j)
    /\ (forall index val, nth 0 [7; 5; 3] 0 <= index ->
          Hierarchy.updateCnt 32 ch' index val = Throw out_of_range
          /\ Hierarchy.getCnt 3 32 no_solver ch' index = Throw out_of_range).
Proof.
  apply (CounterHierarchy_updateCnt_deferred 3 32 no_solver
           [7; 5; 3] [10; 10; 10] [2; 2] (fun _ _ => Hash.gen_hash)
           example_hierarchy [(1, 5); (1, -2); (3, 1000)]).
  - by vm_compute.
  - repeat constructor; cbn; lia.
Defined.

(** ** [GndTruth]: what the ground truth holds, percentiles, overloads *)

Section DataMore.

Context {key_len : nat}.
Variable Tbits : Z.
Variable left_order :
  Data.BidirMap (key_len := key_len) -> Data.BidirMap (key_len := key_len).

Implicit Types g fs : Data.GndTruth (key_len := key_len).
Implicit Types m l : list (FlowKey.FlowKey key_len * Z).
Implicit Types k : FlowKey.FlowKey key_len.
Implicit Types records : list (Data.PacketRecord (key_len := key_len)).

Local Abbreviation to_map :=
  (list_to_map (M := gmap (FlowKey.FlowKey key_len) Z)).
Local Abbreviation occurs records k :=
  (existsb (fun r => FlowKey.eq (Data.flowkey r) k) records).

Lemma flow_volume_absent cnt_method records k :
  occurs records k = false -> flow_volume cnt_method records k = 0.
Proof.
  induction records as [|r records IH]; [done|]. cbn.
  destruct (FlowKey.eq (Data.flowkey r) k); [done|]. exact IH.
Qed.

Lemma flow_volume_cons cnt_method r records k :
  flow_volume cnt_method (r :: records) k
  = if FlowKey.eq (Data.flowkey r) k
    then record_size cnt_method r + flow_volume cnt_method records k
    else flow_volume cnt_method records k.
Proof. reflexivity. Qed.

Lemma total_volume_cons cnt_method r records :
  total_volume cnt_method (r :: records)
  = record_size cnt_method r + total_volume cnt_method records.
Proof. reflexivity. Qed.

(** The loop of [getGroundTruth], flow by flow. *)
Lemma count_fold cnt_method records m tot sp ov :
  NoDup (map fst m) ->
  Int.int64 tot = tot ->
  let st' := fold_left (Data.count_step Tbits cnt_method) records
               (m, tot, sp, ov) in
  NoDup (map fst st'.1.1.1)
  /\ (forall k,
        to_map st'.1.1.1 !! k
        = if occurs records k
          then Some (Int.wrap_signed Tbits
                       (default 0 (to_map m !! k)
                        + flow_volume cnt_method records k))
          else to_map m !! k)
  /\ st'.1.1.2 = Int.int64 (tot + total_volume cnt_method records)
  /\ st'.1.2
     = sp || (match cnt_method with
              | Data.InLength => existsb spurious_length records
              | Data.InPacket => false
              end).
Proof.
  revert m tot sp ov.
  induction records as [|r records IH]; intros m tot sp ov Hnd Htot.
  - cbn. rewrite Z.add_0_r. repeat split; try done.
    by destruct cnt_method; rewrite ?orb_false_r.
  - cbn [fold_left].
    set (size := record_size cnt_method r).
    set (m1 := Data.left_update m (Data.flowkey r)
                 (fun v => Int.wrap_signed Tbits (v + size))).
    set (tot1 := Int.int64 (tot + size)).
    assert (Hstep : exists sp1 ov1,
      Data.count_step Tbits cnt_method (m, tot, sp, ov) r
      = (m1, tot1, sp1, ov1)
      /\ sp1 = sp || match cnt_method with
                     | Data.InLength => spurious_length r
                     | Data.InPacket => false
                     end).
    { unfold Data.count_step, m1, tot1, size, record_size, spurious_length.
      destruct cnt_method.
      - eexists _, _. split; [reflexivity|].
        destruct (_ || _); by rewrite ?orb_true_r, ?orb_false_r.
      - eexists _, _. split; [reflexivity|]. by rewrite orb_false_r. }
    destruct Hstep as (sp1 & ov1 & -> & ->).
    destruct (IH m1 tot1 (sp || match cnt_method with
                     | Data.InLength => spurious_length r
                     | Data.InPacket => false
                     end) ov1) as (Hnd' & Hmap & Htot' & Hsp).
    { by apply left_update_NoDup. }
    { apply wrap_signed_idemp. }
    split; [exact Hnd'|]. split; [|split].
    + intros k. etrans; [apply Hmap|]. unfold m1.
      rewrite left_update_map, left_at_map.
      cbn [existsb]. rewrite flow_volume_cons. fold size.
      destruct (FlowKey.eq (Data.flowkey r) k) eqn:E.
      * apply FlowKey_eq_spec in E as <-. rewrite lookup_insert_eq.
        cbn [orb default]. unfold id.
        destruct (occurs records (Data.flowkey r)) eqn:Eo.
        -- f_equal. rewrite wrap_signed_add_l. f_equal. lia.
        -- rewrite flow_volume_absent by done. by rewrite Z.add_0_r.
      * assert (Data.flowkey r <> k).
        { intros Hk. by rewrite Hk, FlowKey_eq_refl in E. }
        rewrite lookup_insert_ne by done. done.
    + etrans; [exact Htot'|]. unfold tot1, Int.int64.
      rewrite total_volume_cons.
      fold size. rewrite wrap_signed_add_l. f_equal. lia.
    + etrans; [exact Hsp|].
      destruct cnt_method; cbn [existsb]; by rewrite ?orb_assoc, ?orb_false_r.
Qed.

(** X20.  On a new instance [getGroundTruth] always returns, and leaves
    one entry per flow of the records, in descending order of value:
    [at(k)] is the sum in [T] of the lengths (or the number) of the
    records of flow [k], and throws [out_of_range] for a flow without
    records; [totalValue()] is the sum over all records in [int64_t].
    The warning about spurious lengths is issued exactly when lengths
    are counted and some record has a length outside 1..1500. *)
Theorem getGroundTruth_counts_flows records cnt_method :
  exists g w,
    Data.getGroundTruth Tbits Data.empty records cnt_method = Ok (g, w)
    /\ NoDup (map fst (Data.my_map g))
    /\ descending (Data.my_map g)
    /\ (forall k,
          Data.at_ g k
          = if occurs records k
            then Ok (Int.wrap_signed Tbits
                       (flow_volume cnt_method records k))
            else Throw out_of_range)
    /\ Data.totalValue g = Int.int64 (total_volume cnt_method records)
    /\ (Data.SpuriousLength ∈ w
        <-> cnt_method = Data.InLength
            /\ existsb spurious_length records = true).
Proof.
  unfold Data.getGroundTruth, Data.check_called_once. cbn.
  destruct (count_fold cnt_method records [] 0 false false)
    as (Hnd & Hmap & Htot & Hsp); [apply NoDup_nil_2|done|].
  destruct (fold_left _ records _) as [[[m tot] sp] ov]. cbn [fst snd] in *.
  eexists _, _. split; [reflexivity|]. cbn [Data.my_map].
  split; [by rewrite sort_desc_perm|]. split; [apply sort_desc_sorted|].
  assert (Hsort : to_map (Data.sort_desc m) = to_map m).
  { apply list_to_map_proper; [by rewrite sort_desc_perm|apply sort_desc_perm]. }
  split; [|split].
  - intros k. unfold Data.at_. cbn [Data.my_map].
    rewrite left_at_map, Hsort.
    destruct (Data.left_count (Data.sort_desc m) k) eqn:Ec.
    + apply left_count_map in Ec. rewrite Hsort, Hmap in Ec. rewrite Hmap.
      destruct (occurs records k); [done|].
      change (to_map []) with (∅ : gmap (FlowKey.FlowKey key_len) Z) in Ec.
      rewrite lookup_empty in Ec. by destruct Ec.
    + destruct (occurs records k) eqn:Eo; [|done].
      assert (Hin : is_Some (to_map (Data.sort_desc m) !! k)).
      { rewrite Hsort, Hmap, Eo. by eexists. }
      apply left_count_map in Hin. congruence.
  - unfold Data.totalValue. cbn. by rewrite Htot, Z.add_0_l.
  - rewrite Hsp. cbn [orb]. unfold Data.report.
    destruct cnt_method.
    + destruct (existsb spurious_length records); destruct ov; cbn;
        rewrite ?elem_of_cons, ?elem_of_nil; split; try tauto;
        intros H; try (split; [done|]); try done;
        repeat destruct H as [H|H]; try done; by destruct H.
    + destruct ov; cbn; rewrite ?elem_of_cons, ?elem_of_nil; split;
        intros H; try done; repeat destruct H as [H|H]; try done;
        by destruct H.
Qed.

(** X21.  [A -= B] on two maps without repeated keys (the left view
    enumerating each map in some order): the result holds every flow of
    [A] or [B] once, in descending order of value, with [|a - b|] in [T]
    for a flow of both and the value itself for a flow of one side only,
    and its total is the sum of its values in [int64_t]. *)
Theorem sub_assign_differences g B :
  (forall l, left_order l ≡ₚ l) ->
  NoDup (map fst (Data.my_map g)) ->
  Data.tot_value g = Int.int64 (sum_values (Data.my_map g)) ->
  NoDup (map fst (Data.my_map B)) ->
  let D := Data.sub_assign Tbits left_order g B in
  NoDup (map fst (Data.my_map D))
  /\ descending (Data.my_map D)
  /\ Data.tot_value D = Int.int64 (sum_values (Data.my_map D))
  /\ forall k, to_map (Data.my_map D) !! k
               = change_of Tbits (to_map (Data.my_map g) !! k)
                   (to_map (Data.my_map B) !! k).
Proof. apply sub_assign_spec. Qed.

Lemma copy_from_tot g l :
  Data.tot_value (Data.copy_from g l) = Data.add_values (Data.tot_value g) l.
Proof.
  unfold Data.copy_from, Data.add_values. revert g.
  induction l as [|kv l IH]; intros g; [done|]. cbn [fold_left].
  by rewrite IH.
Qed.

Lemma copy_from_new c l :
  NoDup (map fst l) ->
  Data.copy_from {| Data.my_map := []; Data.tot_value := 0; Data.called := c |} l
  = {| Data.my_map := l; Data.tot_value := Int.int64 (sum_values l);
       Data.called := c |}.
Proof.
  intros Hnd.
  set (g := {| Data.my_map := []; Data.tot_value := 0; Data.called := c |}).
  destruct (copy_from_fresh g l) as [Hm Hc]; [done|].
  pose proof (copy_from_tot g l) as Ht.
  rewrite add_values_spec in Ht by done.
  destruct (Data.copy_from g l) as [m t c']. cbn in *. by subst.
Qed.

Lemma NoDup_take_keys l n : NoDup (map fst l) -> NoDup (map fst (take n l)).
Proof.
  intros Hnd. rewrite <- (take_drop n l), map_app in Hnd.
  by apply NoDup_app in Hnd as (? & _).
Qed.

(** X22.  The percentile policy of [getHeavyHitter] on a new instance:
    a threshold outside [0, 1], NaN included, throws
    [invalid_argument]; otherwise, with [t] the integer part of
    [threshold * totalValue], the result holds exactly the flows of the
    summary whose value is above [t], in the order of the summary, and
    their sum as its total. *)
Theorem getHeavyHitter_Percentile_keeps_above fs threshold :
  flow_summary fs ->
  (Double.leb Double.zero threshold && Double.leb threshold Double.one = false ->
   Data.getHeavyHitter Tbits Data.empty fs threshold Data.Percentile
   = Throw invalid_argument)
  /\ (forall t,
        Double.leb Double.zero threshold && Double.leb threshold Double.one
        = true ->
        Double.to_signed Tbits
          (Double.mul threshold (Double.of_Z (Data.tot_value fs))) = Ok t ->
        exists r,
          Data.getHeavyHitter Tbits Data.empty fs threshold Data.Percentile
          = Ok (r, [])
          /\ Data.my_map r = filter (fun kv => t < kv.2) (Data.my_map fs)
          /\ Data.totalValue r = Int.int64 (sum_values (Data.my_map r))).
Proof.
  intros [Hkeys Hsorted Htot]. split.
  - intros Hout. unfold Data.getHeavyHitter, Data.check_called_once. cbn.
    by rewrite Hout.
  - intros t Hin Ht. unfold Data.getHeavyHitter, Data.check_called_once. cbn.
    rewrite Hin, Ht. cbn [negb rbind].
    unfold Data.set_called. cbn [Data.my_map Data.tot_value Data.empty].
    rewrite copy_from_new by by apply NoDup_take_keys.
    eexists. split; [reflexivity|]. cbn [Data.my_map Data.totalValue Data.tot_value].
    split; [by apply lower_bound_filter|done].
Qed.

(** X23.  The overload of [getHeavyHitter] that takes its argument by
    rvalue reference agrees with the copying one on a new instance, for
    a flow summary whose number of flows fits the [int] that the copying
    one counts in: it throws when the copying one throws, and otherwise
    builds the same instance, leaving the flow summary it was given
    empty with a total of 0. *)
Theorem getHeavyHitter_move_agrees fs threshold hh_method :
  (forall l, left_order l ≡ₚ l) ->
  NoDup (map fst (Data.my_map fs)) ->
  Data.size fs <= Int.INT32_MAX ->
  Data.getHeavyHitter_move Tbits left_order Data.empty fs threshold hh_method
  = (let* rw := Data.getHeavyHitter Tbits Data.empty fs threshold hh_method in
     Ok (rw.1,
         {| Data.my_map := []; Data.tot_value := 0;
            Data.called := Data.called fs |},
         rw.2)).
Proof.
  intros Hperm Hkeys Hint.
  assert (Hadd : forall l, Data.add_values 0 (left_order l)
                           = Int.int64 (sum_values l)).
  { intros l. rewrite add_values_spec by done.
    by rewrite (sum_values_perm _ _ (Hperm l)). }
  unfold Data.getHeavyHitter_move, Data.getHeavyHitter,
    Data.check_called_once, Data.truncate. cbn.
  destruct hh_method.
  - unfold Data.truncate_top_k. cbn.
    destruct (Double.ltb threshold Double.one); [done|].
    destruct (Double.to_size_t threshold) as [K|]; [|done]. cbn [rbind].
    destruct (Z.ltb_spec Int.INT32_MAX (Z.min (Data.size fs) K)); [lia|].
    unfold Data.set_called. cbn [Data.my_map Data.tot_value Data.empty Data.called].
    rewrite copy_from_new by by apply NoDup_take_keys.
    cbn [fst snd]. by rewrite Hadd.
  - unfold Data.truncate_percentile. cbn.
    destruct (negb _); [done|].
    destruct (Double.to_signed Tbits _) as [t|]; [|done]. cbn [rbind].
    unfold Data.set_called. cbn [Data.my_map Data.tot_value Data.empty Data.called].
    rewrite copy_from_new by by apply NoDup_take_keys.
    cbn [fst snd]. by rewrite Hadd.
Qed.

(** X24.  On an instance in descending order of value, as every
    [getXXX] leaves it, [max()] and [min()] return the largest and the
    smallest value held; on an empty instance they are undefined
    behaviour.  [at(k)] throws [out_of_range] exactly when [count(k)]
    is 0. *)
Theorem GndTruth_min_max_bound g :
  descending (Data.my_map g) ->
  (Data.my_map g = [] ->
   Data.min g = Throw undefined_behaviour
   /\ Data.max g = Throw undefined_behaviour)
  /\ (Data.my_map g <> [] ->
      exists lo hi,
        Data.min g = Ok lo /\ Data.max g = Ok hi
        /\ (exists k, (k, lo) ∈ Data.my_map g)
        /\ (exists k, (k, hi) ∈ Data.my_map g)
        /\ forall kv, kv ∈ Data.my_map g -> lo <= kv.2 <= hi)
  /\ (forall k, Data.at_ g k = Throw out_of_range <-> Data.count g k = 0).
Proof.
  intros Hs. unfold Data.min, Data.max, Data.at_, Data.count.
  split; [by intros ->|]. split.
  - intros Hne. destruct (Data.my_map g) as [|[k0 hi] l] eqn:E; [done|].
    destruct (last ((k0, hi) :: l)) as [[k1 lo]|] eqn:El.
    2:{ by apply last_None in El. }
    exists lo, hi. cbn [head fst snd]. split; [done|]. split; [done|].
    apply last_Some in El as [l' El].
    split; [exists k1; rewrite El; apply elem_of_app; right; by left|].
    split; [exists k0; by left|].
    intros kv Hin. split.
    + rewrite El in Hs, Hin. apply elem_of_app in Hin as [Hin|Hin].
      * apply (StronglySorted_app_1_elem_of _ _ _ kv (k1, lo) Hs Hin).
        by left.
      * apply list_elem_of_singleton in Hin as ->. done.
    + apply StronglySorted_inv in Hs as [_ Hall].
      apply elem_of_cons in Hin as [->|Hin]; [done|].
      rewrite Forall_forall in Hall. by apply Hall.
  - intros k. destruct (Data.left_count (Data.my_map g) k); by split.
Qed.

Lemma left_update_length m k (f : Z -> Z) :
  length (Data.left_update m k f)
  = (length m + if Data.left_count m k then 0 else 1)%nat.
Proof.
  pose proof (left_update_keys m k f) as E.
  apply (f_equal length) in E. rewrite length_map in E. rewrite E.
  destruct (Data.left_count m k); rewrite ?length_app, length_map; cbn; lia.
Qed.

Lemma at_map g k :
  Data.at_ g k
  = match to_map (Data.my_map g) !! k with
    | Some v => Ok v
    | None => Throw out_of_range
    end.
Proof.
  unfold Data.at_. rewrite left_at_map.
  destruct (Data.left_count (Data.my_map g) k) eqn:E.
  - apply left_count_map in E as [v ->]. done.
  - destruct (to_map (Data.my_map g) !! k) eqn:El; [|done].
    assert (Hs : is_Some (to_map (Data.my_map g) !! k)) by by eexists.
    apply left_count_map in Hs. congruence.
Qed.

(** X25.  [Estimation::update(k, val)] returns whether [k] was new;
    afterwards [at(k)] is the former value of [k] (0 when new) plus
    [val] in [T], every other key reads as before, and [size()] has
    grown by one exactly when [k] was new.  [insert(k)] changes nothing
    and returns false when [k] is there, and otherwise adds [k] with
    value 0. *)
Theorem Estimation_update_at e k val :
  let r := Data.update Tbits e k val in
  (r.1 = true <-> Data.count e k = 0)
  /\ Data.at_ r.2 k
     = Ok (Int.wrap_signed Tbits
             (match Data.at_ e k with Ok v => v | Throw _ => 0 end + val))
  /\ (forall k', k' <> k -> Data.at_ r.2 k' = Data.at_ e k')
  /\ Data.size r.2 = Data.size e + (if r.1 then 1 else 0)
  /\ (let i := Data.insert e k in
      (Data.count e k = 1 -> i = (false, e))
      /\ (Data.count e k = 0 ->
          i.1 = true /\ Data.at_ i.2 k = Ok 0
          /\ (forall k', k' <> k -> Data.at_ i.2 k' = Data.at_ e k')
          /\ Data.size i.2 = Data.size e + 1)).
Proof.
  cbn zeta. unfold Data.update, Data.insert, Data.count, Data.size.
  cbn [fst snd Data.set_map Data.my_map].
  split; [|split; [|split; [|split]]].
  - destruct (Data.left_count (Data.my_map e) k); by split.
  - rewrite !at_map. cbn [Data.my_map Data.set_map].
    rewrite left_update_map, lookup_insert_eq, left_at_map.
    by destruct (to_map (Data.my_map e) !! k).
  - intros k' Hne. rewrite !at_map. cbn [Data.my_map Data.set_map].
    by rewrite left_update_map, lookup_insert_ne.
  - rewrite left_update_length.
    destruct (Data.left_count (Data.my_map e) k); cbn; lia.
  - destruct (Data.left_count (Data.my_map e) k) eqn:Ec.
    + split; [done|]. intros; lia.
    + split; [intros; lia|]. intros _. cbn [fst snd Data.set_map].
      split; [done|]. rewrite !at_map. cbn [Data.my_map Data.set_map].
      rewrite left_update_map, lookup_insert_eq. split; [done|]. split.
      * intros k' Hne. rewrite !at_map. cbn [Data.my_map Data.set_map].
        by rewrite left_update_map, lookup_insert_ne.
      * rewrite left_update_length, Ec. lia.
Qed.

End DataMore.

Lemma sub_assign_differences_witness :
  let D := Data.sub_assign 64 id test_ground_truth test_packet_truth in
  NoDup (map fst (Data.my_map D))
  /\ descending (Data.my_map D)
  /\ Data.tot_value D = Int.int64 (sum_values (Data.my_map D))
  /\ forall k : FlowKey.FlowKey 4,
       list_to_map (M := gmap (FlowKey.FlowKey 4) Z) (Data.my_map D) !! k
       = change_of 64
           (list_to_map (M := gmap (FlowKey.FlowKey 4) Z)
              (Data.my_map test_ground_truth) !! k)
           (list_to_map (M := gmap (FlowKey.FlowKey 4) Z)
              (Data.my_map test_packet_truth) !! k).
Proof.
  apply (sub_assign_differences 64 id test_ground_truth test_packet_truth).
  - intros l. reflexivity.
  - apply (bool_decide_unpack _). by vm_compute.
  - by vm_compute.
  - apply (bool_decide_unpack _). by vm_compute.
Defined.

Lemma getHeavyHitter_Percentile_keeps_above_witness :
  exists r,
    Data.getHeavyHitter 64 Data.empty test_ground_truth Double.half
      Data.Percentile = Ok (r, [])
    /\ Data.my_map r
       = filter (fun kv => 511 < kv.2) (Data.my_map test_ground_truth)
    /\ Data.totalValue r = Int.int64 (sum_values (Data.my_map r)).
Proof.
  apply (proj2 (getHeavyHitter_Percentile_keeps_above 64 test_ground_truth
                  Double.half
                  ltac:(split;
                        [apply (bool_decide_unpack _); by vm_compute
                        |vm_compute;
                         repeat (constructor;
                                 [|repeat constructor; by vm_compute]);
                         constructor
                        |by vm_compute])) 511).
  - by vm_compute.
  - by vm_compute.
Defined.

Lemma getHeavyHitter_move_agrees_witness :
  Data.getHeavyHitter_move 64 id Data.empty test_ground_truth
    (Double.of_Z 2) Data.TopK
  = (let* rw := Data.getHeavyHitter 64 Data.empty test_ground_truth
                  (Double.of_Z 2) Data.TopK in
     Ok (rw.1,
         {| Data.my_map := []; Data.tot_value := 0;
            Data.called := Data.called test_ground_truth |},
         rw.2)).
Proof.
  apply (getHeavyHitter_move_agrees 64 id test_ground_truth (Double.of_Z 2)
           Data.TopK).
  - intros l. reflexivity.
  - apply (bool_decide_unpack _). by vm_compute.
  - by vm_compute.
Defined.

Lemma GndTruth_min_max_bound_witness :
  (Data.my_map test_ground_truth = [] ->
   Data.min test_ground_truth = Throw undefined_behaviour
   /\ Data.max test_ground_truth = Throw undefined_behaviour)
  /\ (Data.my_map test_ground_truth <> [] ->
      exists lo hi,
        Data.min test_ground_truth = Ok lo
        /\ Data.max test_ground_truth = Ok hi
        /\ (exists k, (k, lo) ∈ Data.my_map test_ground_truth)
        /\ (exists k, (k, hi) ∈ Data.my_map test_ground_truth)
        /\ forall kv, kv ∈ Data.my_map test_ground_truth -> lo <= kv.2 <= hi)
  /\ (forall k, Data.at_ test_ground_truth k = Throw out_of_range
                <-> Data.count test_ground_truth k = 0).
Proof.
  apply (GndTruth_min_max_bound test_ground_truth).
  vm_compute. repeat (constructor; [|repeat constructor; by vm_compute]).
  constructor.
Defined.

(** ** [CMSketch]: the estimate is never below the truth *)

Section CountMinFacts.
Context {key_len : nat} {hash_t : Type} `{Hash.HashT hash_t}.
Variable Tbits : Z.
Implicit Types s : CMSketch.CMSketch (hash_t := hash_t).
Implicit Types k : FlowKey.FlowKey key_len.
Implicit Types ups : list (FlowKey.FlowKey key_len * Z).

Lemma row_index_same s s' i k : cm_same s s' -> row_index s' i k = row_index s i k.
Proof. intros (_ & Hw & Hh). unfold row_index. by rewrite Hw, Hh. Qed.

Lemma index_of_row s i k :
  cm_wf s -> 0 <= i < CMSketch.depth s ->
  CMSketch.index_of s i k = Ok (row_index s i k)
  /\ 0 <= row_index s i k < CMSketch.width s.
Proof.
  intros [Hd Hw Hh Hc] Hi. unfold CMSketch.index_of, row_index.
  destruct (lookup_lt_is_Some_2 (CMSketch.hash_fns s) (Z.to_nat i)) as [h Eh];
    [lia|].
  replace (vec_at (CMSketch.hash_fns s) i) with (Ok (A := hash_t) h)
    by (symmetry; apply vec_at_Ok; split; [lia|done]).
  rewrite Eh. cbn [rbind].
  assert (Hu : Int.uint64 (CMSketch.width s) = CMSketch.width s).
  { unfold Int.uint64, Int.wrap_unsigned. apply Z.mod_small.
    unfold Int.INT32_MAX in Hw. lia. }
  rewrite Hu. destruct (Z.eqb_spec (CMSketch.width s) 0); [lia|].
  pose proof (Z.mod_pos_bound (Hash.hash_flowkey h k) (CMSketch.width s)
                ltac:(lia)) as Hb.
  split; [|done]. f_equal. apply wrap_signed_small; [lia|].
  unfold Int.INT32_MAX in Hw. lia.
Qed.

Lemma cell_in_block s i j :
  cm_wf s -> 0 <= i < CMSketch.depth s -> 0 <= j < CMSketch.width s ->
  0 <= CMSketch.cell s i j < Z.of_nat (length (CMSketch.counter s)).
Proof. intros [Hd Hw Hh Hc] Hi Hj. unfold CMSketch.cell. rewrite Hc. nia. Qed.

Lemma cell_inj s i j i' j' :
  0 <= j < CMSketch.width s -> 0 <= j' < CMSketch.width s ->
  0 <= i -> 0 <= i' ->
  CMSketch.cell s i j = CMSketch.cell s i' j' -> i = i' /\ j = j'.
Proof.
  unfold CMSketch.cell. intros Hj Hj' Hi Hi' E.
  assert (i = i') as ->.
  { destruct (Z.lt_trichotomy i i') as [Hlt|[Heq|Hgt]]; [|done|].
    - assert (i * CMSketch.width s + CMSketch.width s
              <= i' * CMSketch.width s) by nia. lia.
    - assert (i' * CMSketch.width s + CMSketch.width s
              <= i * CMSketch.width s) by nia. lia. }
  split; [done|lia].
Qed.

Lemma vec_at_cell s i j :
  cm_wf s -> 0 <= i < CMSketch.depth s -> 0 <= j < CMSketch.width s ->
  vec_at (CMSketch.counter s) (CMSketch.cell s i j) = Ok (cell_at s i j).
Proof.
  intros Hwf Hi Hj. pose proof (cell_in_block s i j Hwf Hi Hj) as Hb.
  apply vec_at_Ok. split; [lia|]. unfold cell_at.
  destruct (lookup_lt_is_Some_2 (CMSketch.counter s)
              (Z.to_nat (CMSketch.cell s i j))) as [c ->]; [lia|done].
Qed.

(** The loop of [update] over the rows [idxs]. *)
Lemma update_loop_spec s k val (idxs : list nat) :
  cm_wf s -> NoDup idxs ->
  (forall i, i ∈ idxs -> Z.of_nat i < CMSketch.depth s) ->
  exists s',
    for_loop (fun i s =>
                let* index := CMSketch.index_of s i k in
                let* c := vec_at (CMSketch.counter s) (CMSketch.cell s i index) in
                Ok (CMSketch.set_counter s
                      (<[Z.to_nat (CMSketch.cell s i index)
                         := Int.wrap_signed Tbits (c + val)]>
                         (CMSketch.counter s))))
      idxs s = Ok s'
    /\ cm_wf s' /\ cm_same s s'
    /\ forall i j, 0 <= i < CMSketch.depth s -> 0 <= j < CMSketch.width s ->
         cell_at s' i j
         = if bool_decide (Z.to_nat i ∈ idxs) && (j =? row_index s i k)
           then Int.wrap_signed Tbits (cell_at s i j + val)
           else cell_at s i j.
Proof.
  revert s. induction idxs as [|i0 idxs IH]; intros s Hwf Hnd Hidx.
  - exists s. split; [done|]. split; [done|]. split; [done|].
    intros i j _ _. done.
  - apply NoDup_cons in Hnd as [Hnotin Hnd]. cbn [for_loop].
    assert (Hi0 : 0 <= Z.of_nat i0 < CMSketch.depth s).
    { split; [lia|]. apply Hidx. by left. }
    destruct (index_of_row s (Z.of_nat i0) k Hwf Hi0) as [-> Hr].
    cbn [rbind]. rewrite vec_at_cell by done. cbn [rbind].
    set (j0 := row_index s (Z.of_nat i0) k) in *.
    set (s1 := CMSketch.set_counter s _).
    assert (Hwf1 : cm_wf s1).
    { destruct Hwf as [Hd Hw Hh Hc]. split; try done.
      unfold s1. cbn. by rewrite length_insert. }
    assert (Hsame1 : cm_same s s1) by done.
    assert (Hcell1 : forall i j,
      0 <= i < CMSketch.depth s -> 0 <= j < CMSketch.width s ->
      cell_at s1 i j
      = if (i =? Z.of_nat i0) && (j =? j0)
        then Int.wrap_signed Tbits (cell_at s i j + val) else cell_at s i j).
    { intros i j Hi Hj. unfold cell_at at 1. unfold s1.
      cbn [CMSketch.counter CMSketch.set_counter].
      change (CMSketch.cell (CMSketch.set_counter s _) i j)
        with (CMSketch.cell s i j).
      pose proof (cell_in_block s _ _ Hwf Hi0 Hr) as Hb0.
      pose proof (cell_in_block s _ _ Hwf Hi Hj) as Hb.
      destruct (Z.eqb_spec i (Z.of_nat i0)) as [->|Hne]; cbn [andb].
      - destruct (Z.eqb_spec j j0) as [->|Hne].
        + rewrite list_lookup_insert_eq by lia. done.
        + rewrite list_lookup_insert_ne; [done|].
          intros E. apply Z2Nat.inj in E; [|lia|lia].
          apply cell_inj in E; [|done|done|lia|lia]. lia.
      - rewrite list_lookup_insert_ne; [done|].
        intros E. apply Z2Nat.inj in E; [|lia|lia].
        apply cell_inj in E; [|done|done|lia|lia]. lia. }
    destruct (IH s1 Hwf1 Hnd) as (s' & Hloop & Hwf' & Hsame' & Hcell').
    { intros i Hin. apply Hidx. by right. }
    exists s'. split; [done|]. split; [done|]. split.
    { destruct Hsame' as (E1 & E2 & E3).
      repeat split; [rewrite E1|rewrite E2|rewrite E3]; done. }
    intros i j Hi Hj. rewrite Hcell' by done.
    rewrite (row_index_same s s1) by done. rewrite Hcell1 by done.
    destruct (Z.eqb_spec i (Z.of_nat i0)) as [->|Hne]; cbn [andb].
    + rewrite Nat2Z.id. rewrite (bool_decide_eq_false_2 _ Hnotin).
      rewrite bool_decide_eq_true_2 by by left. cbn [andb]. done.
    + assert (Hiff : Z.to_nat i ∈ i0 :: idxs <-> Z.to_nat i ∈ idxs).
      { rewrite elem_of_cons. split; [|by right]. intros [E|?]; [lia|done]. }
      rewrite (bool_decide_ext _ _ Hiff).
      by destruct (bool_decide _ && _).
Qed.

Lemma update_spec s k val :
  cm_wf s ->
  exists s',
    CMSketch.update Tbits s k val = Ok s'
    /\ cm_wf s' /\ cm_same s s'
    /\ forall i j, 0 <= i < CMSketch.depth s -> 0 <= j < CMSketch.width s ->
         cell_at s' i j
         = if j =? row_index s i k
           then Int.wrap_signed Tbits (cell_at s i j + val)
           else cell_at s i j.
Proof.
  intros Hwf. unfold CMSketch.update.
  destruct (update_loop_spec s k val (upto (CMSketch.depth s)) Hwf)
    as (s' & Hloop & Hwf' & Hsame & Hcell).
  { apply NoDup_seq. }
  { intros i Hin. apply elem_of_seq in Hin. lia. }
  exists s'. split; [done|]. split; [done|]. split; [done|].
  intros i j Hi Hj. rewrite Hcell by done.
  rewrite bool_decide_eq_true_2; [done|]. apply elem_of_seq. lia.
Qed.

Lemma cell_sum_same s s' ups i j :
  cm_same s s' -> cell_sum s' ups i j = cell_sum s ups i j.
Proof.
  intros Hsame. unfold cell_sum. induction ups as [|[k v] ups IH]; [done|].
  cbn [foldr fst snd]. by rewrite (row_index_same s s'), IH.
Qed.

Lemma update_all_spec ups s (base : Z -> Z -> Z) :
  cm_wf s ->
  (forall i j, 0 <= i < CMSketch.depth s -> 0 <= j < CMSketch.width s ->
     cell_at s i j = Int.wrap_signed Tbits (base i j)) ->
  exists s',
    CMSketch.update_all Tbits s ups = Ok s'
    /\ cm_wf s' /\ cm_same s s'
    /\ forall i j, 0 <= i < CMSketch.depth s -> 0 <= j < CMSketch.width s ->
         cell_at s' i j = Int.wrap_signed Tbits (base i j + cell_sum s ups i j).
Proof.
  revert s base. induction ups as [|[k v] ups IH]; intros s base Hwf Hbase.
  - exists s. split; [done|]. split; [done|]. split; [done|].
    intros i j Hi Hj. cbn. rewrite Z.add_0_r. by apply Hbase.
  - cbn [CMSketch.update_all fst snd].
    destruct (update_spec s k v Hwf) as (s1 & -> & Hwf1 & Hsame1 & Hcell1).
    cbn [rbind]. pose proof Hsame1 as (Hd1 & Hw1 & Hh1).
    destruct (IH s1 (fun i j => base i j
                       + if j =? row_index s i k then v else 0) Hwf1)
      as (s' & Hrun & Hwf' & Hsame' & Hcell').
    { intros i j Hi Hj. rewrite Hd1 in Hi. rewrite Hw1 in Hj.
      rewrite Hcell1 by done. destruct (j =? row_index s i k).
      - rewrite Hbase by done. by rewrite wrap_signed_add_l.
      - rewrite Z.add_0_r. by apply Hbase. }
    exists s'. split; [done|]. split; [done|]. split.
    { destruct Hsame' as (? & ? & ?). repeat split; congruence. }
    intros i j Hi Hj. rewrite Hcell' by (rewrite ?Hd1, ?Hw1; done).
    f_equal. cbn [cell_sum foldr fst snd]. fold (cell_sum s ups i j).
    rewrite (cell_sum_same s s1) by done.
    destruct (j =? row_index s i k); lia.
Qed.

Lemma cell_sum_bounds s ups i j k :
  Forall (fun kv => 0 <= kv.2) ups ->
  j = row_index s i k ->
  key_sum ups k <= cell_sum s ups i j <= sum_values ups.
Proof.
  intros Hpos ->. induction Hpos as [|[k' v'] ups Hv Hpos IH]; [done|].
  cbn [key_sum cell_sum sum_values foldr fst snd] in *.
  fold (key_sum ups k) (cell_sum s ups i (row_index s i k)) (sum_values ups).
  destruct (FlowKey.eq k' k) eqn:E.
  - apply FlowKey_eq_spec in E as ->. rewrite Z.eqb_refl. lia.
  - destruct (_ =? _); lia.
Qed.

Lemma key_sum_bounds ups k :
  Forall (fun kv => 0 <= kv.2) ups -> 0 <= key_sum ups k <= sum_values ups.
Proof.
  intros Hpos. induction Hpos as [|[k' v'] ups Hv Hpos IH]; [done|].
  cbn [key_sum sum_values foldr fst snd] in *.
  fold (key_sum ups k) (sum_values ups).
  destruct (FlowKey.eq k' k); lia.
Qed.

(** The loop of [query]: the least of the counters of the key, and of
    the value it starts from. *)
Lemma query_loop_spec s k (idxs : list nat) (m lo hi : Z) :
  cm_wf s ->
  (forall i, i ∈ idxs ->
     Z.of_nat i < CMSketch.depth s
     /\ lo <= cell_at s (Z.of_nat i) (row_index s (Z.of_nat i) k) <= hi) ->
  lo <= m ->
  exists q,
    for_loop (fun i min_val =>
                let* index := CMSketch.index_of s i k in
                let* c := vec_at (CMSketch.counter s) (CMSketch.cell s i index) in
                Ok (Z.min min_val c))
      idxs m = Ok q
    /\ lo <= q <= m /\ (idxs <> [] -> q <= hi).
Proof.
  intros Hwf. revert m. induction idxs as [|i idxs IH]; intros m Hidx Hm.
  - exists m. split; [done|]. split; [lia|done].
  - cbn [for_loop]. destruct (Hidx i) as [Hi Hc]; [by left|].
    assert (Hi' : 0 <= Z.of_nat i < CMSketch.depth s) by lia.
    destruct (index_of_row s (Z.of_nat i) k Hwf Hi') as [-> Hr].
    cbn [rbind]. rewrite vec_at_cell by done. cbn [rbind].
    destruct (IH (Z.min m (cell_at s (Z.of_nat i) (row_index s (Z.of_nat i) k))))
      as (q & Hq & Hb & _).
    { intros j Hj. apply Hidx. by right. }
    { lia. }
    exists q. split; [done|]. split; [lia|]. intros _. lia.
Qed.

Lemma CMSketch_new_wf depth_ width_ new_hash s :
  width_ <= Int.INT32_MAX ->
  CMSketch.CMSketch_new depth_ width_ new_hash = Ok s ->
  cm_wf s
  /\ forall i j, cell_at s i j = 0.
Proof.
  intros Hw. unfold CMSketch.CMSketch_new.
  destruct (NextPrime_spec width_) as [Hneg Hpos].
  destruct (Z.le_gt_cases width_ 0) as [Hle|Hgt].
  { by rewrite Hneg. }
  destruct Hpos as (p & -> & Hp & _); [lia|]. cbn [rbind].
  destruct (Z.ltb_spec depth_ 0); [done|].
  destruct (Z.eqb_spec depth_ 0); [done|].
  destruct (Z.ltb_spec Int.INT32_MAX (depth_ * p)); [done|].
  intros [= <-]. split.
  - split; cbn; [lia|lia|rewrite length_map, length_seq; lia|].
    rewrite length_replicate. nia.
  - intros i j. unfold cell_at. cbn [CMSketch.counter].
    destruct (replicate _ _ !! _) as [c|] eqn:E; [|done].
    apply lookup_replicate in E as [-> _]. done.
Qed.

(** X26.  A Count-Min sketch never underestimates: after any updates
    with non-negative values whose sum fits [T], [query(k)] returns at
    least the sum of the values added for [k] and at most the sum of all
    values added.  In particular a sketch that has seen no update
    answers 0. *)
Theorem CMSketch_never_underestimates depth_ width_ new_hash s ups k :
  0 < Tbits ->
  width_ <= Int.INT32_MAX ->
  CMSketch.CMSketch_new depth_ width_ new_hash = Ok s ->
  Forall (fun kv => 0 <= kv.2) ups ->
  sum_values ups < 2 ^ (Tbits - 1) ->
  exists s' q,
    CMSketch.update_all Tbits s ups = Ok s'
    /\ CMSketch.query Tbits s' k = Ok q
    /\ key_sum ups k <= q <= sum_values ups.
Proof.
  intros HT Hw Hnew Hpos Hfit.
  destruct (CMSketch_new_wf _ _ _ _ Hw Hnew) as [Hwf Hzero].
  destruct (update_all_spec ups s (fun _ _ => 0) Hwf)
    as (s' & Hrun & Hwf' & (Hd & Hw' & Hh) & Hcell).
  { intros i j _ _. rewrite Hzero. symmetry. apply wrap_signed_small; [done|].
    pose proof (Z.pow_pos_nonneg 2 (Tbits - 1)). lia. }
  pose proof (key_sum_bounds ups k Hpos) as Hk.
  destruct (query_loop_spec s' k (upto (CMSketch.depth s'))
              (2 ^ (Tbits - 1) - 1) (key_sum ups k) (sum_values ups) Hwf')
    as (q & Hq & Hb & Hhi).
  { intros i Hin. apply elem_of_seq in Hin. split; [lia|].
    assert (Hi : 0 <= Z.of_nat i < CMSketch.depth s) by lia.
    destruct (index_of_row s' (Z.of_nat i) k Hwf' ltac:(lia)) as [_ Hr].
    rewrite Hw' in Hr. rewrite Hcell by done. cbn beta. rewrite Z.add_0_l.
    pose proof (cell_sum_bounds s ups (Z.of_nat i)
                  (row_index s' (Z.of_nat i) k) k Hpos) as Hc.
    rewrite (row_index_same s s') in * by done.
    specialize (Hc eq_refl).
    rewrite wrap_signed_small; [done|done|lia]. }
  { lia. }
  exists s', q. split; [done|]. split; [done|]. split; [lia|].
  apply Hhi. destruct Hwf' as [Hd' _ _ _]. unfold upto.
  destruct (Z.to_nat (CMSketch.depth s')) eqn:E; [lia|done].
Qed.

End CountMinFacts.

Lemma CMSketch_never_underestimates_witness :
  exists s' q,
    CMSketch.update_all 32 example_cm example_updates = Ok s'
    /\ CMSketch.query 32 s' (FlowKey.of_ip 1) = Ok q
    /\ key_sum example_updates (FlowKey.of_ip 1) <= q
       <= sum_values example_updates.
Proof.
  apply (CMSketch_never_underestimates 32 2 5
           (fun i => Hash.AwareHash_new 7 (3 * Z.of_nat i))
           example_cm example_updates (FlowKey.of_ip 1)).
  - lia.
  - by vm_compute.
  - by vm_compute.
  - repeat constructor; cbn; lia.
  - by vm_compute.
Defined.

(** ** [DataFormat]: the layout of a record, writing and reading back *)

Section FormatLayout.

Import DataFormat.

Lemma advance_Done o len o' :
  advance o len = Done o' -> o' = o + len /\ o + len <= Int.INT32_MAX.
Proof.
  unfold advance. destruct (Z.ltb_spec Int.INT32_MAX (o + len)); [done|].
  intros [= <-]. done.
Qed.

Lemma int32_small n : - 2 ^ 31 <= n < 2 ^ 31 -> Int.int32 n = n.
Proof. intros Hn. apply wrap_signed_small; [lia|]. exact Hn. Qed.

Lemma field_ok_grow valid o l lim lim' :
  field_ok valid o l lim -> lim <= lim' -> field_ok valid o l lim'.
Proof.
  intros [[-> ->]|(Ho & Hv & Hfit)] Hle; [by left|right].
  split; [done|]. split; [done|lia].
Qed.

Lemma field_ok_new (valid : Z -> Prop) o l :
  0 <= o -> valid l -> field_ok valid o l (o + l).
Proof. intros Ho Hv. right. split; [done|]. split; [done|lia]. Qed.

(** A field placed where the fields before it end overlaps none of
    them. *)
Lemma apart_new_r valid o1 l1 lim l :
  field_ok valid o1 l1 lim -> apart o1 l1 lim l.
Proof.
  intros [[-> ->]|(Ho & Hv & Hfit)] H1 H2; [lia|by left].
Qed.

Lemma apart_new_l valid o2 l2 lim l :
  field_ok valid o2 l2 lim -> apart lim l o2 l2.
Proof.
  intros [[-> ->]|(Ho & Hv & Hfit)] H1 H2; [lia|by right].
Qed.

Lemma key_length_pos l : key_length l -> 0 < l.
Proof. unfold key_length. lia. Qed.

Lemma int_length_pos l : int_length l -> 0 < l.
Proof. unfold int_length. lia. Qed.

Lemma place_key_ok st len st' :
  state_ok st -> b_flow st = false -> key_length len ->
  place st KEYLEN len true (b_len st) (b_time st) = Done st' ->
  state_ok st' /\ off st' = off st + len /\ b_flow st' = true.
Proof.
  intros [Hoff Hk Ht Hl Hbk Hbt Hbl Hkt Hkl Htl] Hb Hv.
  pose proof (key_length_pos _ Hv) as Hpos. unfold place.
  destruct (advance (off st) len) as [o'|] eqn:Ea; [|done].
  apply advance_Done in Ea as [-> Hle]. cbn [obind]. intros [= <-].
  split; [|done].
  split; cbn [off st_offset st_length b_flow b_len b_time set field_eqb].
  - lia.
  - apply field_ok_new; [lia|done].
  - apply (field_ok_grow _ _ _ _ _ Ht). lia.
  - apply (field_ok_grow _ _ _ _ _ Hl). lia.
  - split; [lia|done].
  - exact Hbt.
  - exact Hbl.
  - by eapply apart_new_l.
  - by eapply apart_new_l.
  - exact Htl.
Qed.

Lemma place_time_ok st len st' :
  state_ok st -> b_time st = false -> int_length len ->
  place st TIMESTAMP len (b_flow st) (b_len st) true = Done st' ->
  state_ok st' /\ off st' = off st + len /\ b_flow st' = b_flow st.
Proof.
  intros [Hoff Hk Ht Hl Hbk Hbt Hbl Hkt Hkl Htl] Hb Hv.
  pose proof (int_length_pos _ Hv) as Hpos. unfold place.
  destruct (advance (off st) len) as [o'|] eqn:Ea; [|done].
  apply advance_Done in Ea as [-> Hle]. cbn [obind]. intros [= <-].
  split; [|done].
  split; cbn [off st_offset st_length b_flow b_len b_time set field_eqb].
  - lia.
  - apply (field_ok_grow _ _ _ _ _ Hk). lia.
  - apply field_ok_new; [lia|done].
  - apply (field_ok_grow _ _ _ _ _ Hl). lia.
  - exact Hbk.
  - split; [lia|done].
  - exact Hbl.
  - by eapply apart_new_r.
  - exact Hkl.
  - by eapply apart_new_l.
Qed.

Lemma place_len_ok st len st' :
  state_ok st -> b_len st = false -> int_length len ->
  place st LENGTH len (b_flow st) true (b_time st) = Done st' ->
  state_ok st' /\ off st' = off st + len /\ b_flow st' = b_flow st.
Proof.
  intros [Hoff Hk Ht Hl Hbk Hbt Hbl Hkt Hkl Htl] Hb Hv.
  pose proof (int_length_pos _ Hv) as Hpos. unfold place.
  destruct (advance (off st) len) as [o'|] eqn:Ea; [|done].
  apply advance_Done in Ea as [-> Hle]. cbn [obind]. intros [= <-].
  split; [|done].
  split; cbn [off st_offset st_length b_flow b_len b_time set field_eqb].
  - lia.
  - apply (field_ok_grow _ _ _ _ _ Hk). lia.
  - apply (field_ok_grow _ _ _ _ _ Ht). lia.
  - apply field_ok_new; [lia|done].
  - exact Hbk.
  - exact Hbt.
  - split; [lia|done].
  - exact Hkt.
  - by eapply apart_new_r.
  - by eapply apart_new_r.
Qed.

Lemma key_length_test len :
  (len =? 4) || (len =? 8) || (len =? 13) = true -> key_length len.
Proof. unfold key_length. rewrite !orb_true_iff, !Z.eqb_eq. tauto. Qed.

Lemma int_length_test len :
  (len =? 1) || (len =? 2) || (len =? 4) || (len =? 8) = true ->
  int_length len.
Proof. unfold int_length. rewrite !orb_true_iff, !Z.eqb_eq. tauto. Qed.

(** One field of the specification keeps the layout, and moves [off] by
    its length. *)
Lemma parse_step_ok st name value st' :
  state_ok st ->
  parse_step st name value = Done st' ->
  state_ok st'
  /\ off st' = off st + spec_length value
  /\ 0 < spec_length value
  /\ (b_flow st = true -> b_flow st' = true).
Proof.
  intros Hok. unfold parse_step. destruct name as [str| | |]; try done.
  destruct value as [|n| |]; try done. cbn [spec_length].
  set (len := Int.int32 n).
  destruct (String.eqb str "flowkey").
  { destruct (b_flow st) eqn:Eb; [done|].
    destruct ((len =? 4) || (len =? 8) || (len =? 13)) eqn:Ev; [|done].
    apply key_length_test in Ev. intros Hp.
    destruct (place_key_ok _ _ _ Hok Eb Ev Hp) as (? & ? & ?).
    pose proof (key_length_pos _ Ev). done. }
  destruct (String.eqb str "timestamp").
  { destruct (b_time st) eqn:Eb; [done|].
    destruct ((len =? 1) || (len =? 2) || (len =? 4) || (len =? 8)) eqn:Ev;
      [|done].
    apply int_length_test in Ev. intros Hp.
    destruct (place_time_ok _ _ _ Hok Eb Ev Hp) as (? & ? & Hf).
    pose proof (int_length_pos _ Ev). rewrite Hf. done. }
  destruct (String.eqb str "length").
  { destruct (b_len st) eqn:Eb; [done|].
    destruct ((len =? 1) || (len =? 2) || (len =? 4) || (len =? 8)) eqn:Ev;
      [|done].
    apply int_length_test in Ev. intros Hp.
    destruct (place_len_ok _ _ _ Hok Eb Ev Hp) as (? & ? & Hf).
    pose proof (int_length_pos _ Ev). rewrite Hf. done. }
  destruct (String.eqb str "padding"); [|done]. cbn [andb].
  destruct (Z.gtb_spec len 0); [|done].
  destruct (advance (off st) len) as [o'|] eqn:Ea; [|done].
  apply advance_Done in Ea as [-> Hle]. cbn [obind]. intros [= <-].
  destruct Hok as [Hoff Hk Ht Hl Hbk Hbt Hbl Hkt Hkl Htl].
  split; [|cbn; split; [done|split; [lia|done]]].
  split; cbn [off st_offset st_length b_flow b_len b_time]; try done.
  - lia.
  - apply (field_ok_grow _ _ _ _ _ Hk). lia.
  - apply (field_ok_grow _ _ _ _ _ Ht). lia.
  - apply (field_ok_grow _ _ _ _ _ Hl). lia.
Qed.

Lemma parse_loop_ok names values st st' :
  state_ok st ->
  parse_loop st names values = Done st' ->
  state_ok st'
  /\ off st'
     = off st + foldr Z.add 0 (map spec_length
                                 (take (List.length names) values))
  /\ (b_flow st = true -> b_flow st' = true).
Proof.
  revert values st. induction names as [|name names IH];
    intros [|value values] st Hok; cbn [parse_loop].
  - intros [= <-]. cbn. split; [done|]. split; [lia|done].
  - intros [= <-]. cbn. split; [done|]. split; [lia|done].
  - intros [= <-]. cbn. split; [done|]. split; [lia|done].
  - destruct (parse_step st name value) as [st1|] eqn:E; [|done].
    cbn [obind]. intros Hloop.
    destruct (parse_step_ok _ _ _ _ Hok E) as (Hok1 & Hoff1 & _ & Hb1).
    destruct (IH values st1 Hok1 Hloop) as (Hok' & Hoff' & Hb').
    split; [done|]. split; [|auto].
    rewrite Hoff', Hoff1. cbn. lia.
Qed.

Lemma DataFormat_new_layout_aux array fmt :
  DataFormat_new array = Done fmt ->
  layout_ok fmt
  /\ exists names values,
       array = [toml_array names; toml_array values]
       /\ List.length names = List.length values
       /\ getRecordLength fmt = foldr Z.add 0 (map spec_length values)
       /\ key_length (getKeyLength fmt).
Proof.
  unfold DataFormat_new.
  destruct array as [|[|?|names|] [|[|?|values|] [|? ?]]]; try done.
  destruct (Nat.eqb_spec (List.length names) (List.length values)) as [Hlen|];
    [|done].
  cbn [negb].
  match goal with
  | |- obind (parse_loop ?s _ _) _ = _ -> _ => set (st0 := s)
  end.
  assert (Hok0 : state_ok st0).
  { split; cbn; unfold field_ok, apart, Int.INT32_MAX; try lia; try by left.
    all: split; [done|intros ?; lia]. }
  destruct (parse_loop st0 names values) as [st|] eqn:E; [|done].
  cbn [obind]. destruct (b_flow st) eqn:Eb; [|done]. cbn [negb].
  intros [= <-].
  destruct (parse_loop_ok _ _ _ _ Hok0 E) as (Hok & Hoff & _).
  destruct Hok as [Hoff' Hk Ht Hl Hbk Hbt Hbl Hkt Hkl Htl].
  assert (Hkey : 0 <= st_offset st KEYLEN) by by apply Hbk.
  assert (Hk' : 0 <= st_offset st KEYLEN /\ key_length (st_length st KEYLEN)
                /\ st_offset st KEYLEN + st_length st KEYLEN <= off st).
  { destruct Hk as [[? ?]|?]; [lia|done]. }
  split.
  - split; cbn; done.
  - exists names, values. split; [done|]. split; [done|].
    unfold getRecordLength, getKeyLength. cbn. split; [|tauto].
    rewrite Hoff, Hlen, firstn_all. cbn. lia.
Qed.

(** X27.  A format that the constructor of [DataFormat] accepts comes
    from two arrays of the same size; its record length is the sum of
    the lengths given, the flow key is present with 4, 8 or 13 bytes,
    the time stamp and the length have 1, 2, 4 or 8 bytes when present,
    and every field lies within the record without overlapping another
    one. *)
Theorem DataFormat_new_layout array fmt :
  DataFormat_new array = Done fmt ->
  layout_ok fmt
  /\ exists names values,
       array = [toml_array names; toml_array values]
       /\ List.length names = List.length values
       /\ getRecordLength fmt = foldr Z.add 0 (map spec_length values)
       /\ key_length (getKeyLength fmt).
Proof. apply DataFormat_new_layout_aux. Qed.

End FormatLayout.

Section FormatRoundTrip.

Import DataFormat.
Context {key_len : nat}.
Implicit Types b byte src : list Z.
Implicit Types r : Data.PacketRecord (key_len := key_len).

Lemma write_at_Ok b p src :
  0 <= p -> p + Z.of_nat (List.length src) <= Z.of_nat (List.length b) ->
  write_at b p src = Ok (list_inserts (Z.to_nat p) src b).
Proof.
  intros Hp Hfit. unfold write_at.
  destruct (Z.ltb_spec p 0); [lia|].
  destruct (Z.ltb_spec (Z.of_nat (List.length b))
              (p + Z.of_nat (List.length src))); [lia|done].
Qed.

Lemma slice_inserts_same b (p : nat) src :
  (p + List.length src <= List.length b)%nat ->
  take (List.length src) (drop p (list_inserts p src b)) = src.
Proof.
  intros Hfit. apply list_eq. intros i.
  destruct (decide (i < List.length src)%nat).
  - rewrite lookup_take_lt, lookup_drop, list_lookup_inserts by lia.
    f_equal. lia.
  - rewrite lookup_take_ge by lia. symmetry. apply lookup_ge_None. lia.
Qed.

Lemma slice_inserts_other b (p : nat) src (o n : nat) :
  (o + n <= p \/ p + List.length src <= o)%nat ->
  take n (drop o (list_inserts p src b)) = take n (drop o b).
Proof.
  intros Hd. apply list_eq. intros i. destruct (decide (i < n)%nat).
  - rewrite !lookup_take_lt, !lookup_drop by done.
    destruct Hd; [apply list_lookup_inserts_lt|apply list_lookup_inserts_ge];
      lia.
  - by rewrite !lookup_take_ge by lia.
Qed.

Lemma drop_inserts b (p : nat) src (n : nat) :
  (p + List.length src <= n)%nat ->
  drop n (list_inserts p src b) = drop n b.
Proof.
  intros Hd. apply list_eq. intros i. rewrite !lookup_drop.
  apply list_lookup_inserts_ge. lia.
Qed.

Lemma put_write b o src :
  o = -1 \/ (0 <= o /\ o + Z.of_nat (List.length src) <= Z.of_nat (List.length b)) ->
  (if 0 <=? o then lift (write_at b o src) else Done b) = Done (put b o src).
Proof.
  unfold put. intros [->|[Ho Hfit]]; [done|].
  destruct (Z.leb_spec 0 o); [|lia]. by rewrite write_at_Ok.
Qed.

Lemma put_length b o src : List.length (put b o src) = List.length b.
Proof. unfold put. destruct (0 <=? o); [apply length_inserts|done]. Qed.

Lemma put_same b o src :
  0 <= o -> o + Z.of_nat (List.length src) <= Z.of_nat (List.length b) ->
  take (List.length src) (drop (Z.to_nat o) (put b o src)) = src.
Proof.
  intros Ho Hfit. unfold put. destruct (Z.leb_spec 0 o); [|lia].
  apply slice_inserts_same. lia.
Qed.

Lemma put_other b o src (q n : nat) :
  o < 0 \/ Z.of_nat q + Z.of_nat n <= o
  \/ o + Z.of_nat (List.length src) <= Z.of_nat q ->
  take n (drop q (put b o src)) = take n (drop q b).
Proof.
  intros Hd. unfold put. destruct (Z.leb_spec 0 o); [|done].
  apply slice_inserts_other. lia.
Qed.

Lemma put_drop b o src (n : nat) :
  o < 0 \/ o + Z.of_nat (List.length src) <= Z.of_nat n ->
  drop n (put b o src) = drop n b.
Proof.
  intros Hd. unfold put. destruct (Z.leb_spec 0 o); [|done].
  apply drop_inserts. lia.
Qed.

Lemma switch_len_valid len :
  int_length len -> Z.of_nat (switch_len len) = len.
Proof. by intros [->|[->|[->| ->]]]. Qed.

Lemma my_memset_length v len :
  int_length len -> Z.of_nat (List.length (my_memset v len)) = len.
Proof.
  intros Hlen. unfold my_memset. rewrite int_bytes_length.
  by apply switch_len_valid.
Qed.

(** Reading back what [my_memset] stored. *)
Lemma convert_stored b (o : nat) len v :
  int_length len ->
  (o + switch_len len <= List.length b)%nat ->
  take (switch_len len) (drop o b) = my_memset v len ->
  convert (drop o b) len = Ok (stored len v).
Proof.
  intros Hlen Hfit Hslice. unfold convert.
  destruct (Nat.ltb_spec (List.length (drop o b)) (switch_len len)) as [Hlt|_].
  { rewrite length_drop in Hlt. lia. }
  rewrite Hslice. unfold my_memset, FlowKey.int_bytes.
  rewrite map_map.
  rewrite (map_ext_Forall _ id).
  2:{ eapply Forall_impl; [apply to_bytes_range|].
      intros x Hx. by apply uint8_int8. }
  rewrite map_id, of_bytes_to_bytes. unfold Int.wrap_unsigned, stored.
  rewrite Z.mod_mod by (apply Z.pow_nonzero; lia).
  destruct Hlen as [->|[->|[->| ->]]]; try done.
  change (switch_len 8) with 8%nat. cbn [Nat.eqb Z.eqb].
  change (Int.int64 (v mod 2 ^ (8 * Z.of_nat 8)))
    with (Int.wrap_signed 64 (Int.wrap_unsigned 64 v)).
  by rewrite wrap_signed_unsigned.
Qed.

Lemma write_bytes_whole (k0 k : FlowKey.FlowKey key_len) :
  FlowKey.write_bytes k0 0 (vec_to_list k) = k.
Proof.
  apply byte_at_ext. intros j Hj. rewrite byte_at_write.
  rewrite length_vec_to_list.
  destruct (Nat.ltb_spec j key_len); [|lia].
  destruct (Z.leb_spec 0 (Z.of_nat j)); [|lia].
  destruct (Z.ltb_spec (Z.of_nat j) (0 + Z.of_nat key_len)); [|lia].
  cbn [andb]. unfold FlowKey.byte_at. f_equal. lia.
Qed.

(** Writing a record in a format with a good layout and reading it
    back. *)
Lemma write_read_layout fmt r r0 byte :
  layout_ok fmt ->
  length fmt KEYLEN = Z.of_nat key_len ->
  total fmt <= Z.of_nat (List.length byte) ->
  exists byte',
    writeAsFormat fmt r byte = Done byte'
    /\ List.length byte' = List.length byte
    /\ drop (Z.to_nat (total fmt)) byte' = drop (Z.to_nat (total fmt)) byte
    /\ readAsFormat fmt r0 byte'
       = Done ({| Data.flowkey := Data.flowkey r;
                  Data.timestamp :=
                    if 0 <=? offset fmt TIMESTAMP
                    then stored (length fmt TIMESTAMP) (Data.timestamp r)
                    else Data.timestamp r0;
                  Data.length :=
                    if 0 <=? offset fmt LENGTH
                    then stored (length fmt LENGTH) (Data.length r)
                    else Data.length r0 |},
               drop (Z.to_nat (total fmt)) byte).
Proof.
  intros [Htot (Hko & Hkl & Hkfit) Ht Hl Hkt Hkl' Htl] Hkey Hbuf.
  unfold field_ok, apart in *.
  set (zeros := replicate (Z.to_nat (total fmt)) 0).
  set (kb := vec_to_list (Data.flowkey r)).
  set (tb := my_memset (Data.timestamp r) (length fmt TIMESTAMP)).
  set (lb := my_memset (Data.length r) (length fmt LENGTH)).
  set (b0 := list_inserts 0 zeros byte).
  set (b1 := put b0 (offset fmt KEYLEN) kb).
  set (b2 := put b1 (offset fmt TIMESTAMP) tb).
  set (b3 := put b2 (offset fmt LENGTH) lb).
  assert (Hkb : Z.of_nat (List.length kb) = length fmt KEYLEN).
  { unfold kb. rewrite length_vec_to_list. lia. }
  assert (Htb : 0 <= offset fmt TIMESTAMP ->
                Z.of_nat (List.length tb) = length fmt TIMESTAMP).
  { intros ?. apply my_memset_length. destruct Ht as [[? ?]|(_ & ? & _)]; [lia|done]. }
  assert (Hlb : 0 <= offset fmt LENGTH ->
                Z.of_nat (List.length lb) = length fmt LENGTH).
  { intros ?. apply my_memset_length. destruct Hl as [[? ?]|(_ & ? & _)]; [lia|done]. }
  assert (Hl0 : List.length b0 = List.length byte) by apply length_inserts.
  assert (Hl1 : List.length b1 = List.length byte)
    by (unfold b1; by rewrite put_length).
  assert (Hl2 : List.length b2 = List.length byte)
    by (unfold b2; by rewrite put_length).
  assert (Hl3 : List.length b3 = List.length byte)
    by (unfold b3; by rewrite put_length).
  assert (Hwrite : writeAsFormat fmt r byte = Done b3).
  { unfold writeAsFormat. rewrite Hkey, Z.eqb_refl. cbn [negb].
    destruct (Z.ltb_spec (total fmt) 0); [lia|].
    rewrite write_at_Ok; [|lia|unfold zeros; rewrite length_replicate; lia].
    cbn [lift obind]. change (Z.to_nat 0) with 0%nat.
    fold zeros. fold b0. fold kb. fold tb. fold lb.
    rewrite (put_write b0 (offset fmt KEYLEN) kb) by (right; lia).
    cbn [obind]. fold b1.
    rewrite (put_write b1 (offset fmt TIMESTAMP) tb).
    2:{ destruct Ht as [[? ?]|(? & ? & ?)]; [by left|right].
        rewrite Htb by done. lia. }
    cbn [obind]. fold b2.
    rewrite (put_write b2 (offset fmt LENGTH) lb).
    2:{ destruct Hl as [[? ?]|(? & ? & ?)]; [by left|right].
        rewrite Hlb by done. lia. }
    done. }
  exists b3. split; [done|]. split; [done|].
  assert (Hdrop : drop (Z.to_nat (total fmt)) b3
                  = drop (Z.to_nat (total fmt)) byte).
  { unfold b3, b2, b1, b0. rewrite !put_drop.
    - apply drop_inserts. unfold zeros. rewrite length_replicate. lia.
    - right. lia.
    - destruct Ht as [[? ?]|(? & ? & ?)]; [left; lia|right].
      rewrite Htb by done. lia.
    - destruct Hl as [[? ?]|(? & ? & ?)]; [left; lia|right].
      rewrite Hlb by done. lia. }
  split; [done|].
  (* the three fields as the reader finds them *)
  assert (Hrk : take (Z.to_nat (length fmt KEYLEN))
                  (drop (Z.to_nat (offset fmt KEYLEN)) b3) = kb).
  { unfold b3, b2. rewrite !put_other.
    - replace (Z.to_nat (length fmt KEYLEN)) with (List.length kb) by lia.
      apply put_same; lia.
    - destruct Ht as [[? ?]|(? & ? & ?)]; [left; lia|right].
      rewrite Htb by done. rewrite !Z2Nat.id by lia.
      destruct (Hkt ltac:(lia) ltac:(lia)); [left|right]; lia.
    - destruct Hl as [[? ?]|(? & ? & ?)]; [left; lia|right].
      rewrite Hlb by done. rewrite !Z2Nat.id by lia.
      destruct (Hkl' ltac:(lia) ltac:(lia)); [left|right]; lia. }
  assert (Hrt : 0 <= offset fmt TIMESTAMP ->
                take (switch_len (length fmt TIMESTAMP))
                  (drop (Z.to_nat (offset fmt TIMESTAMP)) b3) = tb).
  { intros Hp. destruct Ht as [[? ?]|(_ & Hv & Hfit)]; [lia|].
    pose proof (switch_len_valid _ Hv) as Hsw.
    unfold b3. rewrite put_other.
    - replace (switch_len (length fmt TIMESTAMP)) with (List.length tb)
        by (specialize (Htb Hp); lia).
      apply put_same; [done|]. rewrite Htb by done. lia.
    - destruct Hl as [[? ?]|(? & ? & ?)]; [left; lia|right].
      rewrite Hlb by done. rewrite Z2Nat.id by lia.
      destruct (Htl ltac:(lia) ltac:(lia)); [left|right]; lia. }
  assert (Hrl : 0 <= offset fmt LENGTH ->
                take (switch_len (length fmt LENGTH))
                  (drop (Z.to_nat (offset fmt LENGTH)) b3) = lb).
  { intros Hp. destruct Hl as [[? ?]|(_ & Hv & Hfit)]; [lia|].
    pose proof (switch_len_valid _ Hv) as Hsw.
    unfold b3.
    replace (switch_len (length fmt LENGTH)) with (List.length lb)
      by (specialize (Hlb Hp); lia).
    apply put_same; [done|]. rewrite Hlb by done. lia. }
  unfold readAsFormat.
  destruct (Z.eqb_spec (Z.of_nat key_len) (length fmt KEYLEN)); [|lia].
  cbn [negb].
  destruct (Z.leb_spec 0 (offset fmt KEYLEN)); [|lia].
  assert (Hcopy :
    FlowKey.copy_bytes (Data.flowkey r0) 0
      (drop (Z.to_nat (offset fmt KEYLEN)) b3) (length fmt KEYLEN)
    = Ok (Data.flowkey r)).
  { unfold FlowKey.copy_bytes. cbn [Z.ltb Z.compare].
    destruct (Z.ltb_spec Int.INT32_MAX (0 + length fmt KEYLEN)); [lia|].
    destruct (Z.ltb_spec (Z.of_nat key_len) (0 + length fmt KEYLEN)); [lia|].
    destruct (Z.ltb_spec (length fmt KEYLEN) 0); [lia|].
    destruct (Z.ltb_spec (Z.of_nat (List.length
                (drop (Z.to_nat (offset fmt KEYLEN)) b3)))
                (length fmt KEYLEN)) as [Hlt|_].
    { rewrite length_drop in Hlt. lia. }
    rewrite Hrk. unfold kb. by rewrite write_bytes_whole. }
  rewrite Hcopy. cbn [lift obind].
  assert (Hts :
    (if 0 <=? offset fmt TIMESTAMP
     then lift (convert (drop (Z.to_nat (offset fmt TIMESTAMP)) b3)
                  (length fmt TIMESTAMP))
     else Done (Data.timestamp r0))
    = Done (if 0 <=? offset fmt TIMESTAMP
            then stored (length fmt TIMESTAMP) (Data.timestamp r)
            else Data.timestamp r0)).
  { destruct (Z.leb_spec 0 (offset fmt TIMESTAMP)) as [Hp|]; [|done].
    destruct Ht as [[? ?]|(_ & Hv & Hfit)]; [lia|].
    pose proof (switch_len_valid _ Hv) as Hsw.
    rewrite (convert_stored b3 _ _ (Data.timestamp r)); [done|done|lia|].
    by apply Hrt. }
  rewrite Hts. cbn [obind].
  assert (Hln :
    (if 0 <=? offset fmt LENGTH
     then lift (convert (drop (Z.to_nat (offset fmt LENGTH)) b3)
                  (length fmt LENGTH))
     else Done (Data.length r0))
    = Done (if 0 <=? offset fmt LENGTH
            then stored (length fmt LENGTH) (Data.length r)
            else Data.length r0)).
  { destruct (Z.leb_spec 0 (offset fmt LENGTH)) as [Hp|]; [|done].
    destruct Hl as [[? ?]|(_ & Hv & Hfit)]; [lia|].
    pose proof (switch_len_valid _ Hv) as Hsw.
    rewrite (convert_stored b3 _ _ (Data.length r)); [done|done|lia|].
    by apply Hrl. }
  rewrite Hln. cbn [obind].
  destruct (Z.ltb_spec (total fmt) 0); [lia|].
  destruct (Z.ltb_spec (Z.of_nat (List.length b3)) (total fmt)); [lia|].
  cbn [orb]. by rewrite Hdrop.
Qed.

(** X28.  A record written by [writeAsFormat] is read back by
    [readAsFormat]: in a format that the constructor accepted, with the
    key length of the record and a buffer of at least the record length,
    writing returns normally, changes nothing beyond the record, and
    reading the buffer gives back the flow key, and the time stamp and
    the length up to the width of their fields (fields that the format
    does not have are left as they were in the record read into). *)
Theorem DataFormat_write_read_round_trip array fmt r r0 byte :
  DataFormat_new array = Done fmt ->
  getKeyLength fmt = Z.of_nat key_len ->
  getRecordLength fmt <= Z.of_nat (List.length byte) ->
  exists byte',
    writeAsFormat fmt r byte = Done byte'
    /\ List.length byte' = List.length byte
    /\ drop (Z.to_nat (total fmt)) byte' = drop (Z.to_nat (total fmt)) byte
    /\ readAsFormat fmt r0 byte'
       = Done ({| Data.flowkey := Data.flowkey r;
                  Data.timestamp :=
                    if 0 <=? offset fmt TIMESTAMP
                    then stored (length fmt TIMESTAMP) (Data.timestamp r)
                    else Data.timestamp r0;
                  Data.length :=
                    if 0 <=? offset fmt LENGTH
                    then stored (length fmt LENGTH) (Data.length r)
                    else Data.length r0 |},
               drop (Z.to_nat (total fmt)) byte).
Proof.
  intros Hnew Hkey Hbuf. apply write_read_layout; [|done|done].
  by apply DataFormat_new_layout_aux in Hnew as [? _].
Qed.

End FormatRoundTrip.

Lemma DataFormat_new_layout_witness :
  layout_ok test_format
  /\ exists names values,
       test_format_spec
       = [DataFormat.toml_array names; DataFormat.toml_array values]
       /\ List.length names = List.length values
       /\ DataFormat.getRecordLength test_format
          = foldr Z.add 0 (map spec_length values)
       /\ key_length (DataFormat.getKeyLength test_format).
Proof.
  apply (DataFormat_new_layout test_format_spec test_format).
  reflexivity.
Defined.

Lemma DataFormat_write_read_round_trip_witness :
  exists byte',
    DataFormat.writeAsFormat test_format format_record (replicate 20 7)
    = DataFormat.Done byte'
    /\ List.length byte' = List.length (replicate 20 7)
    /\ drop (Z.to_nat (DataFormat.total test_format)) byte'
       = drop (Z.to_nat (DataFormat.total test_format)) (replicate 20 7)
    /\ DataFormat.readAsFormat test_format blank_record byte'
       = DataFormat.Done
           ({| Data.flowkey := Data.flowkey format_record;
               Data.timestamp :=
                 if 0 <=? DataFormat.offset test_format DataFormat.TIMESTAMP
                 then stored
                        (DataFormat.length test_format DataFormat.TIMESTAMP)
                        (Data.timestamp format_record)
                 else Data.timestamp blank_record;
               Data.length :=
                 if 0 <=? DataFormat.offset test_format DataFormat.LENGTH
                 then stored
                        (DataFormat.length test_format DataFormat.LENGTH)
                        (Data.length format_record)
                 else Data.length blank_record |},
            drop (Z.to_nat (DataFormat.total test_format)) (replicate 20 7)).
Proof.
  apply (DataFormat_write_read_round_trip test_format_spec test_format
           format_record blank_record (replicate 20 7)).
  - reflexivity.
  - reflexivity.
  - by vm_compute.
Defined.
